(** * QuickMail: the MIME subject encoder and the Tor submission path

    A shallow embedding of [quickmail-client/quickmail.go].  Go strings are
    byte sequences, so a string is a [list ascii]; indices and lengths are
    [nat]; a Go [int] result that is [-1] for "absent" is an [option nat].
    The functions of Go's standard library that the program calls
    ([strings], [unicode/utf8], [unicode], [encoding/base64], [mime]) are
    embedded from the library's sources, each in a module named after its
    package. *)

From Stdlib Require Import Ascii String ZArith Lia Bool Arith List.
Import ListNotations.

Local Open Scope list_scope.

(** ** Bytes and byte strings *)

Definition bytes := list ascii.

(** A Go string literal. *)
Definition lit (s : string) : bytes := list_ascii_of_string s.

(** [uint(b)] of a byte. *)
Definition byteZ (a : ascii) : Z := Z.of_N (N_of_ascii a).

(** [byte(v)] of an unsigned integer: the low eight bits. *)
Definition Zbyte (v : Z) : ascii := ascii_of_N (Z.to_N (Z.land v 255)).

Fixpoint bytes_eqb (s t : bytes) : bool :=
  match s, t with
  | [], [] => true
  | a :: s', b :: t' => Ascii.eqb a b && bytes_eqb s' t'
  | _, _ => false
  end.

(** The slices [s[i:]], [s[:j]] and [s[i:j]]. *)
Definition slice_from (s : bytes) (i : nat) : bytes := skipn i s.
Definition slice_to (s : bytes) (j : nat) : bytes := firstn j s.
Definition slice (s : bytes) (i j : nat) : bytes := firstn (j - i) (skipn i s).

Definition LF : ascii := "010"%char.
Definition CR : ascii := "013"%char.
Definition TAB : ascii := "009"%char.
Definition SP : ascii := " "%char.

(** ** Package [unicode/utf8] *)

Module utf8.

Local Open Scope Z_scope.

Definition RuneError : Z := 65533.
Definition RuneSelf : Z := 128.
Definition UTFMax : nat := 4%nat.

(** The table [first]: information about the first byte of an encoding.
    [as] is [0xF0], [xx] is [0xF1], [s1] .. [s7] are the size and
    accept-range codes. *)
Definition first (b : Z) : Z :=
  if b <? 128 then 240          (* 0x00-0x7F: as *)
  else if b <? 194 then 241     (* 0x80-0xC1: xx *)
  else if b <? 224 then 2       (* 0xC2-0xDF: s1 *)
  else if b =? 224 then 19      (* 0xE0: s2 *)
  else if b <? 237 then 3       (* 0xE1-0xEC: s3 *)
  else if b =? 237 then 35      (* 0xED: s4 *)
  else if b <? 240 then 3       (* 0xEE-0xEF: s3 *)
  else if b =? 240 then 52      (* 0xF0: s5 *)
  else if b <? 244 then 4       (* 0xF1-0xF3: s6 *)
  else if b =? 244 then 68      (* 0xF4: s7 *)
  else 241.                     (* 0xF5-0xFF: xx *)

(** [acceptRanges]: the range of valid values of the second byte. *)
Definition acceptRanges (k : Z) : Z * Z :=
  if k =? 0 then (128, 191)
  else if k =? 1 then (160, 191)
  else if k =? 2 then (128, 159)
  else if k =? 3 then (144, 191)
  else if k =? 4 then (128, 143)
  else (0, 0).

Definition locb : Z := 128.
Definition hicb : Z := 191.

(** [DecodeRuneInString]: the first rune of [s] and its width in bytes;
    [(RuneError, 0)] on the empty string, [(RuneError, 1)] on an invalid
    encoding. *)
Definition DecodeRuneInString (s : bytes) : Z * nat :=
  match s with
  | [] => (RuneError, O)
  | c0 :: t0 =>
    let s0 := byteZ c0 in
    let x := first s0 in
    if 240 <=? x then
      (if Z.testbit x 0 then RuneError else s0, 1%nat)
    else
      let sz := Z.to_nat (Z.land x 7) in
      let accept := acceptRanges (Z.shiftr x 4) in
      if Nat.ltb (length s) sz then (RuneError, 1%nat) else
      match t0 with
      | [] => (RuneError, 1%nat)
      | c1 :: t1 =>
        let s1 := byteZ c1 in
        if (s1 <? fst accept) || (snd accept <? s1) then (RuneError, 1%nat)
        else if Nat.leb sz 2 then
          (Z.lor (Z.shiftl (Z.land s0 31) 6) (Z.land s1 63), 2%nat)
        else
        match t1 with
        | [] => (RuneError, 1%nat)
        | c2 :: t2 =>
          let s2 := byteZ c2 in
          if (s2 <? locb) || (hicb <? s2) then (RuneError, 1%nat)
          else if Nat.leb sz 3 then
            (Z.lor (Z.lor (Z.shiftl (Z.land s0 15) 12)
                          (Z.shiftl (Z.land s1 63) 6))
                   (Z.land s2 63), 3%nat)
          else
          match t2 with
          | [] => (RuneError, 1%nat)
          | c3 :: _ =>
            let s3 := byteZ c3 in
            if (s3 <? locb) || (hicb <? s3) then (RuneError, 1%nat)
            else
              (Z.lor (Z.lor (Z.lor (Z.shiftl (Z.land s0 7) 18)
                                   (Z.shiftl (Z.land s1 63) 12))
                            (Z.shiftl (Z.land s2 63) 6))
                     (Z.land s3 63), 4%nat)
          end
        end
      end
  end.

(** [RuneStart]: the byte is not a continuation byte. *)
Definition RuneStart (b : ascii) : bool :=
  negb (Z.land (byteZ b) 192 =? 128).

(** The loop [for start--; start >= lim; start--] of
    [DecodeLastRuneInString]; a [start] below zero is [None]. *)
Fixpoint last_start (fuel : nat) (s : bytes) (start : option nat) (lim : nat)
  : option nat :=
  match start with
  | None => None
  | Some st =>
    if Nat.ltb st lim then start
    else if RuneStart (nth st s "000"%char) then start
    else match fuel with
         | O => start
         | S fuel' =>
           last_start fuel' s (match st with O => None | S p => Some p end) lim
         end
  end.

(** [DecodeLastRuneInString]: the last rune of [s] and its width. *)
Definition DecodeLastRuneInString (s : bytes) : Z * nat :=
  let end_ := length s in
  match end_ with
  | O => (RuneError, O)
  | S start =>
    let r := byteZ (nth start s "000"%char) in
    if r <? RuneSelf then (r, 1%nat)
    else
      let lim := (end_ - UTFMax)%nat in
      let start' :=
        match last_start UTFMax s
                (match start with O => None | S p => Some p end) lim with
        | None => O
        | Some st => st
        end in
      let '(r', size) := DecodeRuneInString (slice s start' end_) in
      if Nat.eqb (start' + size) end_ then (r', size) else (RuneError, 1%nat)
  end.

End utf8.

(** ** Package [unicode] *)

Module unicode.

Local Open Scope Z_scope.

(** The ranges of the table [White_Space] above Latin-1. *)
Definition White_Space_above_Latin1 (r : Z) : bool :=
  (r =? 5760) ||                       (* U+1680 *)
  ((8192 <=? r) && (r <=? 8202)) ||    (* U+2000 - U+200A *)
  ((8232 <=? r) && (r <=? 8233)) ||    (* U+2028 - U+2029 *)
  (r =? 8239) ||                       (* U+202F *)
  (r =? 8287) ||                       (* U+205F *)
  (r =? 12288).                        (* U+3000 *)

Definition MaxLatin1 : Z := 255.

Definition IsSpace (r : Z) : bool :=
  if (0 <=? r) && (r <=? MaxLatin1) then
    (r =? 9) || (r =? 10) || (r =? 11) || (r =? 12) || (r =? 13) ||
    (r =? 32) || (r =? 133) || (r =? 160)
  else White_Space_above_Latin1 r.

End unicode.

(** ** Package [strings] *)

Module strings.

(** [HasPrefix]: [len(s) >= len(prefix) && s[:len(prefix)] == prefix]. *)
Fixpoint HasPrefix (s prefix : bytes) {struct prefix} : bool :=
  match prefix, s with
  | [], _ => true
  | _ :: _, [] => false
  | p :: prefix', a :: s' => Ascii.eqb a p && HasPrefix s' prefix'
  end.

(** [HasSuffix]: [len(s) >= len(suffix) && s[len(s)-len(suffix):] == suffix]. *)
Definition HasSuffix (s suffix : bytes) : bool :=
  (length suffix <=? length s) &&
  bytes_eqb (slice_from s (length s - length suffix)) suffix.

(** [TrimSuffix]: [s] without the trailing [suffix], or [s] itself. *)
Definition TrimSuffix (s suffix : bytes) : bytes :=
  if HasSuffix s suffix then slice_to s (length s - length suffix) else s.

(** [Index]: the index of the first instance of [substr] in [s]. *)
Fixpoint Index (s substr : bytes) : option nat :=
  if HasPrefix s substr then Some 0
  else match s with
       | [] => None
       | _ :: s' => option_map S (Index s' substr)
       end.

(** The loop of [genSplit] for a non-empty separator and [n < 0]: the count
    [n] is one more than the number of non-overlapping instances, so the
    loop runs until [Index] fails.  Each turn shortens [s] by at least
    [len(sep)], so [length s] turns are enough. *)
Fixpoint genSplit_loop (fuel : nat) (s sep : bytes) : list bytes :=
  match Index s sep with
  | None => [s]
  | Some m =>
    match fuel with
    | O => [s]
    | S fuel' =>
      slice_to s m :: genSplit_loop fuel' (slice_from s (m + length sep)) sep
    end
  end.

(** [explode]: the string split into its UTF-8 sequences, for an empty
    separator. *)
Fixpoint explode (fuel : nat) (s : bytes) : list bytes :=
  match fuel with
  | O => []
  | S fuel' =>
    match s with
    | [] => []
    | _ :: _ =>
      let size := snd (utf8.DecodeRuneInString s) in
      slice_to s size :: explode fuel' (slice_from s size)
    end
  end.

(** [Split(s, sep)], that is [genSplit(s, sep, 0, -1)]. *)
Definition Split (s sep : bytes) : list bytes :=
  match sep with
  | [] => explode (length s) s
  | _ :: _ => genSplit_loop (length s) s sep
  end.

(** The table [asciiSpace]. *)
Definition asciiSpace (c : ascii) : bool :=
  let b := byteZ c in
  ((b =? 9) || (b =? 10) || (b =? 11) || (b =? 12) || (b =? 13) ||
   (b =? 32))%Z.

(** [indexFunc(s, f, truth)]: the index of the first rune [r] of [s] with
    [f(r) == truth]; the loop is [for i, r := range s]. *)
Fixpoint indexFunc_loop (fuel : nat) (s : bytes) (i : nat)
    (f : Z -> bool) (truth : bool) : option nat :=
  match fuel with
  | O => None
  | S fuel' =>
    match slice_from s i with
    | [] => None
    | _ :: _ =>
      let '(r, size) := utf8.DecodeRuneInString (slice_from s i) in
      if Bool.eqb (f r) truth then Some i
      else indexFunc_loop fuel' s (i + size) f truth
    end
  end.

Definition indexFunc (s : bytes) (f : Z -> bool) (truth : bool) : option nat :=
  indexFunc_loop (length s) s 0 f truth.

(** [lastIndexFunc(s, f, truth)]: the same from the end; the loop is
    [for i := len(s); i > 0; ] with [i -= size]. *)
Fixpoint lastIndexFunc_loop (fuel : nat) (s : bytes) (i : nat)
    (f : Z -> bool) (truth : bool) : option nat :=
  match fuel with
  | O => None
  | S fuel' =>
    if i =? 0 then None
    else
      let '(r, size) := utf8.DecodeLastRuneInString (slice s 0 i) in
      let i' := i - size in
      if Bool.eqb (f r) truth then Some i'
      else lastIndexFunc_loop fuel' s i' f truth
  end.

Definition lastIndexFunc (s : bytes) (f : Z -> bool) (truth : bool)
  : option nat :=
  lastIndexFunc_loop (length s) s (length s) f truth.

Definition TrimLeftFunc (s : bytes) (f : Z -> bool) : bytes :=
  match indexFunc s f false with
  | None => []
  | Some i => slice_from s i
  end.

Definition TrimRightFunc (s : bytes) (f : Z -> bool) : bytes :=
  match lastIndexFunc s f false with
  | Some i =>
    if (utf8.RuneSelf <=? byteZ (nth i s "000"%char))%Z
    then slice s 0 (i + snd (utf8.DecodeRuneInString (slice_from s i)))
    else slice s 0 (i + 1)
  | None => slice s 0 0
  end.

Definition TrimFunc (s : bytes) (f : Z -> bool) : bytes :=
  TrimRightFunc (TrimLeftFunc s f) f.

(** The first loop of [TrimSpace]: [inr start] at the first ASCII byte that
    is not a space or at the end (the loop is left), [inl start] when the
    byte at [start] is at or above [utf8.RuneSelf] (the function returns
    through the rune-aware trimming). *)
Fixpoint TrimSpace_start (s : bytes) (start : nat) : nat + nat :=
  match s with
  | [] => inr start
  | c :: s' =>
    if (utf8.RuneSelf <=? byteZ c)%Z then inl start
    else if negb (asciiSpace c) then inr start
    else TrimSpace_start s' (S start)
  end.

(** The second loop of [TrimSpace], [for ; stop > start; stop--]. *)
Fixpoint TrimSpace_stop (s : bytes) (start stop : nat) : nat + nat :=
  match stop with
  | O => inr stop
  | S stop' =>
    if stop <=? start then inr stop
    else
      let c := nth stop' s "000"%char in
      if (utf8.RuneSelf <=? byteZ c)%Z then inl stop
      else if negb (asciiSpace c) then inr stop
      else TrimSpace_stop s start stop'
  end.

(** [TrimSpace]: [s] without leading and trailing white space, as defined
    by Unicode. *)
Definition TrimSpace (s : bytes) : bytes :=
  match TrimSpace_start s 0 with
  | inl start => TrimFunc (slice_from s start) unicode.IsSpace
  | inr start =>
    match TrimSpace_stop s start (length s) with
    | inl stop => TrimRightFunc (slice s start stop) unicode.IsSpace
    | inr stop => slice s start stop
    end
  end.

End strings.

(** ** Package [encoding/base64], the encoding [StdEncoding] *)

Module base64.

Local Open Scope Z_scope.

Definition encodeStd : bytes :=
  lit "ABCDEFGHIJKLMNOPQRSTUVWXYZabcdefghijklmnopqrstuvwxyz0123456789+/".

Definition padChar : ascii := "="%char.

(** [enc.encode[v]]. *)
Definition encode (v : Z) : ascii := nth (Z.to_nat v) encodeStd "000"%char.

Fixpoint index_of (c : ascii) (l : bytes) (i : Z) : Z :=
  match l with
  | [] => 255
  | a :: l' => if Ascii.eqb a c then i else index_of c l' (i + 1)
  end.

(** [enc.decodeMap[c]]: the value of an alphabet byte, [0xff] otherwise. *)
Definition decodeMap (c : ascii) : Z := index_of c encodeStd 0.

(** [EncodedLen] and [DecodedLen] of a padded encoding. *)
Definition EncodedLen (n : nat) : nat := ((n + 2) / 3 * 4)%nat.
Definition DecodedLen (n : nat) : nat := (n / 4 * 3)%nat.

(** [Encode]: three source bytes give four bytes; a remaining block of one
    or two bytes is padded. *)
Fixpoint Encode (src : bytes) : bytes :=
  match src with
  | [] => []
  | [a] =>
    let val := Z.shiftl (byteZ a) 16 in
    [encode (Z.land (Z.shiftr val 18) 63);
     encode (Z.land (Z.shiftr val 12) 63);
     padChar; padChar]
  | [a; b] =>
    let val := Z.lor (Z.shiftl (byteZ a) 16) (Z.shiftl (byteZ b) 8) in
    [encode (Z.land (Z.shiftr val 18) 63);
     encode (Z.land (Z.shiftr val 12) 63);
     encode (Z.land (Z.shiftr val 6) 63);
     padChar]
  | a :: b :: c :: rest =>
    let val := Z.lor (Z.lor (Z.shiftl (byteZ a) 16) (Z.shiftl (byteZ b) 8))
                     (byteZ c) in
    encode (Z.land (Z.shiftr val 18) 63) ::
    encode (Z.land (Z.shiftr val 12) 63) ::
    encode (Z.land (Z.shiftr val 6) 63) ::
    encode (Z.land val 63) :: Encode rest
  end.

Definition is_newline (c : ascii) : bool := Ascii.eqb c LF || Ascii.eqb c CR.

(** [for si < len(src) && (src[si] == '\n' || src[si] == '\r') { si++ }] *)
Fixpoint skip_newlines (src : bytes) : bytes :=
  match src with
  | c :: src' => if is_newline c then skip_newlines src' else src
  | [] => []
  end.

(** The end of [decodeQuantum]: four six-bit values become [dlen - 1]
    bytes ([StdEncoding] is not strict). *)
Definition assemble (dbuf : list Z) (dlen : nat) : bytes :=
  let val := Z.lor (Z.lor (Z.lor (Z.shiftl (nth 0 dbuf 0) 18)
                                 (Z.shiftl (nth 1 dbuf 0) 12))
                          (Z.shiftl (nth 2 dbuf 0) 6))
                   (nth 3 dbuf 0) in
  firstn (dlen - 1)
    [Zbyte (Z.shiftr val 16); Zbyte (Z.shiftr val 8); Zbyte (Z.shiftr val 0)].

(** [decodeQuantum]: the bytes of one quantum of at most four alphabet
    bytes and the rest of the source, [None] for a [CorruptInputError].
    [j] is the loop counter and [dbuf] holds the [j] values read so far. *)
Fixpoint decodeQuantum (src : bytes) (j : nat) (dbuf : list Z)
  : option (bytes * bytes) :=
  if Nat.leb 4 j then Some (assemble dbuf 4, src) else
  match src with
  | [] => if Nat.eqb j 0 then Some ([], []) else None
  | c :: src' =>
    let out := decodeMap c in
    if negb (out =? 255) then decodeQuantum src' (S j) (dbuf ++ [out])
    else if is_newline c then decodeQuantum src' j dbuf
    else if negb (Ascii.eqb c padChar) then None
    else
      match j with
      | O | S O => None
      | S (S O) =>
        match skip_newlines src' with
        | [] => None
        | c' :: src'' =>
          if negb (Ascii.eqb c' padChar) then None
          else match skip_newlines src'' with
               | [] => Some (assemble dbuf j, [])
               | _ :: _ => None
               end
        end
      | _ =>
        match skip_newlines src' with
        | [] => Some (assemble dbuf j, [])
        | _ :: _ => None
        end
      end
  end.

(** The loop [for si < len(src)] of [Decode]; every quantum takes at least
    one byte. *)
Fixpoint Decode_loop (fuel : nat) (src : bytes) : option bytes :=
  match src with
  | [] => Some []
  | _ :: _ =>
    match fuel with
    | O => None
    | S fuel' =>
      match decodeQuantum src 0 [] with
      | None => None
      | Some (out, rest) =>
        match Decode_loop fuel' rest with
        | None => None
        | Some outs => Some (out ++ outs)
        end
      end
    end
  end.

(** [DecodeString]: the decoded bytes, [None] when [err != nil]. *)
Definition DecodeString (s : bytes) : option bytes :=
  Decode_loop (length s) s.

End base64.

(** ** Package [mime]: encoded words of RFC 2047 *)

Module mime.

(** [BEncoding = WordEncoder('b')]. *)
Definition BEncoding : ascii := "b"%char.

Definition maxEncodedWordLen : nat := 75.

(** [maxEncodedWordLen - len("=?UTF-8?q?") - len("?=")]. *)
Definition maxContentLen : nat :=
  maxEncodedWordLen - length (lit "=?UTF-8?q?") - length (lit "?=").

Definition maxBase64Len : nat := base64.DecodedLen maxContentLen.

Definition toLowerASCII (c : ascii) : ascii :=
  let b := byteZ c in
  if ((65 <=? b) && (b <=? 90))%Z then Zbyte (b + 32) else c.

(** [strings.EqualFold] against a name written in ASCII letters, digits and
    dashes: equality up to the case of the ASCII letters. *)
Definition EqualFold (s t : bytes) : bool :=
  bytes_eqb (map toLowerASCII s) (map toLowerASCII t).

Definition isUTF8 (charset : bytes) : bool := EqualFold charset (lit "UTF-8").

(** [needsEncoding]: the loop [for _, b := range s] over the runes of [s]. *)
Fixpoint needsEncoding_loop (fuel : nat) (s : bytes) : bool :=
  match fuel with
  | O => false
  | S fuel' =>
    match s with
    | [] => false
    | _ :: _ =>
      let '(b, size) := utf8.DecodeRuneInString s in
      if ((b <? 32) || (126 <? b))%Z && negb (b =? 9)%Z then true
      else needsEncoding_loop fuel' (slice_from s size)
    end
  end.

Definition needsEncoding (s : bytes) : bool := needsEncoding_loop (length s) s.

(** The [strings.Builder] that the encoder writes to is the byte string
    [buf]; every function returns the builder's new contents. *)

Definition openWord (buf charset : bytes) : bytes :=
  buf ++ lit "=?" ++ charset ++ ["?"%char] ++ [BEncoding] ++ ["?"%char].

Definition closeWord (buf : bytes) : bytes := buf ++ lit "?=".

Definition splitWord (buf charset : bytes) : bytes :=
  openWord (closeWord buf ++ [SP]) charset.

(** [io.WriteString(w, x); w.Close()] on the base64 encoder [w] over [buf]:
    [Close] flushes the pending block with its padding and leaves the
    encoder empty, so the builder receives the encoding of [x]. *)
Definition write_close (buf x : bytes) : bytes := buf ++ base64.Encode x.

(** The loop [for i := 0; i < len(s); i += runeLen] of [bEncode], with the
    final write after it. *)
Fixpoint bEncode_loop (fuel : nat) (buf charset s : bytes)
    (i last currentLen : nat) : bytes :=
  if negb (i <? length s) then write_close buf (slice_from s last)
  else
    match fuel with
    | O => write_close buf (slice_from s last)
    | S fuel' =>
      let runeLen := snd (utf8.DecodeRuneInString (slice_from s i)) in
      if currentLen + runeLen <=? maxBase64Len then
        bEncode_loop fuel' buf charset s (i + runeLen) last
                     (currentLen + runeLen)
      else
        bEncode_loop fuel'
                     (splitWord (write_close buf (slice s last i)) charset)
                     charset s (i + runeLen) i runeLen
    end.

Definition bEncode (buf charset s : bytes) : bytes :=
  if negb (isUTF8 charset) || (base64.EncodedLen (length s) <=? maxContentLen)
  then write_close buf s
  else bEncode_loop (length s) buf charset s 0 0 0.

(** [encodeWord] of the encoder [BEncoding]. *)
Definition encodeWord (charset s : bytes) : bytes :=
  closeWord (bEncode (openWord [] charset) charset s).

(** [BEncoding.Encode(charset, s)]: the encoded-word form of [s]; [s]
    itself when it is ASCII without special characters. *)
Definition Encode (charset s : bytes) : bytes :=
  if negb (needsEncoding s) then s else encodeWord charset s.

(** *** The decoder [WordDecoder.DecodeHeader], with a nil [CharsetReader] *)

Definition fromHex (c : ascii) : option Z :=
  let b := byteZ c in
  if ((48 <=? b) && (b <=? 57))%Z then Some (b - 48)%Z
  else if ((65 <=? b) && (b <=? 70))%Z then Some (b - 65 + 10)%Z
  else if ((97 <=? b) && (b <=? 102))%Z then Some (b - 97 + 10)%Z
  else None.

Definition readHexByte (a b : ascii) : option ascii :=
  match fromHex a, fromHex b with
  | Some hb, Some lb => Some (Zbyte (Z.lor (Z.shiftl hb 4) lb))
  | _, _ => None
  end.

(** [qDecode]: the Q encoding; [None] is [errInvalidWord] or a hex error. *)
Fixpoint qDecode (s : bytes) : option bytes :=
  match s with
  | [] => Some []
  | c :: s' =>
    if Ascii.eqb c "_"%char then option_map (cons SP) (qDecode s')
    else if Ascii.eqb c "="%char then
      match s' with
      | a :: b :: s'' =>
        match readHexByte a b with
        | Some x => option_map (cons x) (qDecode s'')
        | None => None
        end
      | _ => None
      end
    else if ((byteZ c <=? 126) && (32 <=? byteZ c))%Z
            || Ascii.eqb c LF || Ascii.eqb c CR || Ascii.eqb c TAB
    then option_map (cons c) (qDecode s')
    else None
  end.

(** [decode(encoding, text)]. *)
Definition decode (encoding : ascii) (text : bytes) : option bytes :=
  if Ascii.eqb encoding "B"%char || Ascii.eqb encoding "b"%char
  then base64.DecodeString text
  else if Ascii.eqb encoding "Q"%char || Ascii.eqb encoding "q"%char
  then qDecode text
  else None.

(** [WriteRune] of a rune up to [0xFFFF] that is not a surrogate. *)
Definition WriteRune (r : Z) : bytes :=
  if (r <? 128)%Z then [Zbyte r]
  else if (r <? 2048)%Z then
    [Zbyte (Z.lor 192 (Z.shiftr r 6)); Zbyte (Z.lor 128 (Z.land r 63))]
  else
    [Zbyte (Z.lor 224 (Z.shiftr r 12));
     Zbyte (Z.lor 128 (Z.land (Z.shiftr r 6) 63));
     Zbyte (Z.lor 128 (Z.land r 63))].

(** [d.convert(&buf, charset, content)]: the new contents of the builder,
    [None] for an unhandled charset. *)
Definition convert (buf charset content : bytes) : option bytes :=
  if EqualFold (lit "utf-8") charset then Some (buf ++ content)
  else if EqualFold (lit "iso-8859-1") charset then
    Some (buf ++ flat_map (fun c => WriteRune (byteZ c)) content)
  else if EqualFold (lit "us-ascii") charset then
    Some (buf ++ flat_map (fun c =>
            if (utf8.RuneSelf <=? byteZ c)%Z then WriteRune utf8.RuneError
            else [c]) content)
  else None.

Definition hasNonWhitespace (s : bytes) : bool :=
  existsb (fun b => negb (Ascii.eqb b SP || Ascii.eqb b TAB ||
                          Ascii.eqb b LF || Ascii.eqb b CR)) s.

(** The loop [for { ... }] of [DecodeHeader] with what follows it.  A turn
    either leaves the loop or shortens [header] by at least two bytes. *)
Fixpoint DecodeHeader_loop (fuel : nat) (buf header : bytes)
    (betweenWords : bool) : option bytes :=
  let done := Some (buf ++ header) in
  match fuel with
  | O => done
  | S fuel' =>
    match strings.Index header (lit "=?") with
    | None => done
    | Some start =>
      let cur := start + 2 in
      match strings.Index (slice_from header cur) (lit "?") with
      | None => done
      | Some i =>
        let charset := slice header cur (cur + i) in
        let cur := cur + i + 1 in
        if length header <? cur + 4 then done
        else
          let encoding := nth cur header "000"%char in
          let cur := cur + 1 in
          if negb (Ascii.eqb (nth cur header "000"%char) "?"%char) then done
          else
            let cur := cur + 1 in
            match strings.Index (slice_from header cur) (lit "?=") with
            | None => done
            | Some j =>
              let text := slice header cur (cur + j) in
              let end_ := cur + j + 2 in
              match decode encoding text with
              | None =>
                DecodeHeader_loop fuel'
                  (buf ++ slice_to header (start + 2))
                  (slice_from header (start + 2)) false
              | Some content =>
                let buf' :=
                  if (0 <? start) &&
                     (negb betweenWords ||
                      hasNonWhitespace (slice_to header start))
                  then buf ++ slice_to header start else buf in
                match convert buf' charset content with
                | None => None
                | Some buf'' =>
                  DecodeHeader_loop fuel' buf'' (slice_from header end_) true
                end
              end
            end
      end
    end
  end.

(** [DecodeHeader]: the header with its encoded words decoded to UTF-8;
    [None] when an error is returned. *)
Definition DecodeHeader (header : bytes) : option bytes :=
  match strings.Index header (lit "=?") with
  | None => Some header
  | Some i =>
    DecodeHeader_loop (length header) (slice_to header i)
                      (slice_from header i) false
  end.

End mime.

(** ** The program: [quickmail.go] *)

(** *** The subject encoder *)

(** The loop [for i, part := range parts[:len(parts)-1]] of
    [encodeMIMESubject]; [result += ""] is kept as the code has it. *)
Fixpoint fold_parts (i : nat) (parts : list bytes) (result : bytes) : bytes :=
  match parts with
  | [] => result
  | part :: parts' =>
    let result := if 0 <? i then result ++ lit "" else result in
    fold_parts (S i) parts' (result ++ (part ++ lit "?=" ++ [LF]))
  end.

Definition encodeMIMESubject (input : bytes) : bytes :=
  if bytes_eqb input (lit "") then lit ""
  else
    let encoded := mime.Encode (lit "UTF-8") input in
    let parts := strings.Split encoded (lit "?=") in
    if length parts <=? 1 then encoded
    else
      let result := fold_parts 0 (firstn (length parts - 1) parts) [] in
      let result := result ++ nth (length parts - 1) parts [] in
      strings.TrimSuffix result [LF].

(** The folding steps 3 to 5 of the specification of the header encoder,
    written from its words: split on the closing marker; a single segment
    gives the encoded string back; otherwise every segment but the last gets
    the marker and a line break, the last is appended as it is, and one
    trailing line break is stripped. *)
Definition strip_one_fold (s : bytes) : bytes :=
  match rev s with
  | c :: r => if Ascii.eqb c LF then rev r else s
  | [] => s
  end.

Definition fold_reference (encoded : bytes) : bytes :=
  match strings.Split encoded (lit "?=") with
  | [] | [_] => encoded
  | segments =>
    strip_one_fold
      (concat (map (fun seg => seg ++ lit "?=" ++ [LF]) (removelast segments))
       ++ last segments [])
  end.

(** *** The types of the submission path *)

(** A Go [error] is its message, the text of [Error()]; [%w] and [%v] of
    an error print that text. *)
Definition error := bytes.

Record Config := { OnionAddress : bytes; Port : bytes }.

Definition Window := nat.
Definition ReadCloser := nat.

(** [proxy.Dialer]: [proxy.Direct], or a dialer that a constructor
    returned. *)
Inductive Dialer := Direct | DialerOf (handle : nat).

Record Auth := { User : bytes; Password : bytes }.

Record Transport := { Dial : Dialer }.
Record Client := { ClientTransport : Transport; Timeout : Z }.

Record Request := {
  Method : bytes; URL : bytes; RequestBody : bytes;
  Header : list (bytes * bytes) }.

Record Response := { Status : bytes; StatusCode : Z; Body : ReadCloser }.

Record QuickMail := { window : Window; textArea_Text : bytes;
                      config : option Config }.

(** [request.Header.Set(key, value)]: the entries of [key] are replaced. *)
Definition Header_Set (r : Request) (key value : bytes) : Request :=
  {| Method := Method r; URL := URL r; RequestBody := RequestBody r;
     Header := filter (fun kv => negb (bytes_eqb (fst kv) key)) (Header r)
               ++ [(key, value)] |}.

Definition Second : Z := 1000000000.
Definition StatusOK : Z := 200.

(** *** Programs over the calls that leave the process *)

(** The calls to the outside, each with the type of what it returns. *)
Inductive Event : Type -> Type :=
| TimeNow : Event Z
| TimeSince (t : Z) : Event Z
| ProxySOCKS5 (network address : bytes) (auth : option Auth)
              (forward : Dialer) : Event (Dialer + error)
| HttpNewRequest (method url body : bytes) : Event (Request + error)
| ClientDo (c : Client) (req : Request) : Event (Response + error)
| IoReadAll (body : ReadCloser) : Event (bytes * option error)
| BodyClose (body : ReadCloser) : Event unit
| FmtPrintf (text : bytes) : Event unit
| DialogShowInformation (title message : bytes) (parent : Window)
  : Event unit.

(** A program returns, makes a call and goes on with its answer, or starts
    a goroutine ([go func() { ... }()]) and goes on. *)
Inductive Prog (R : Type) : Type :=
| Ret (r : R)
| Vis (X : Type) (e : Event X) (k : X -> Prog R)
| Go (body : Prog unit) (k : Prog R).

Arguments Ret {R} r.
Arguments Vis {R X} e k.
Arguments Go {R} body k.

Fixpoint bind {R S : Type} (p : Prog R) (f : R -> Prog S) : Prog S :=
  match p with
  | Ret r => f r
  | Vis e k => Vis e (fun x => bind (k x) f)
  | Go body k => Go body (bind k f)
  end.

Definition perform {X : Type} (e : Event X) : Prog X := Vis e Ret.

Declare Scope prog_scope.
Delimit Scope prog_scope with prog.
Notation "x <- p ;; q" := (bind p (fun x => q))
  (at level 61, p at next level, right associativity) : prog_scope.
Notation "p ;; q" := (bind p (fun _ => q))
  (at level 61, right associativity) : prog_scope.
Local Open Scope prog_scope.

(** A call with its answer, as a run records it. *)
Inductive Call : Type :=
| call (X : Type) (e : Event X) (x : X).

Arguments call {X} e x.

Section Run.

(** The outside world: a state and the answer it gives to every call. *)
Variable W : Type.
Variable answer : forall X : Type, Event X -> W -> X * W.

Record Outcome (R : Type) := {
  result : R;
  world : W;
  trace : list Call;
  spawned : list (Prog unit) }.

Arguments result {R} _.
Arguments world {R} _.
Arguments trace {R} _.
Arguments spawned {R} _.

(** The run of a program from a state of the world: its result, the calls
    it made in order, and the goroutines it started (which run later). *)
Fixpoint run {R : Type} (p : Prog R) (w : W) : Outcome R :=
  match p with
  | Ret r => {| result := r; world := w; trace := []; spawned := [] |}
  | Vis e k =>
    let '(x, w') := answer _ e w in
    let o := run (k x) w' in
    {| result := result o; world := world o;
       trace := call e x :: trace o; spawned := spawned o |}
  | Go body k =>
    let o := run k w in
    {| result := result o; world := world o;
       trace := trace o; spawned := body :: spawned o |}
  end.

End Run.

Arguments result {W R} _.
Arguments world {W R} _.
Arguments trace {W R} _.
Arguments spawned {W R} _.

(** *** The submission path *)

Section Submission.

(** [formatDuration] only builds the text that a successful upload prints on
    the standard output; the development holds for whatever it returns. *)
Variable formatDuration : Z -> bytes.

(** [showError] and [showSuccess]: the information dialogs. *)
Definition showError (q : QuickMail) (message : bytes) : Prog unit :=
  perform (DialogShowInformation (lit "Error") message (window q)).

Definition showSuccess (q : QuickMail) (message : bytes) : Prog unit :=
  perform (DialogShowInformation (lit "Success") message (window q)).

(** [uploadMessage]: [None] is the [nil] error.  The deferred
    [response.Body.Close()] runs when the function returns, on both paths
    that follow it. *)
Definition uploadMessage (q : QuickMail) (serverURL message : bytes)
  : Prog (option error) :=
  startTime <- perform TimeNow ;;
  let data := message in
  d <- perform (ProxySOCKS5 (lit "tcp") (lit "127.0.0.1:9050") None Direct) ;;
  match d with
  | inr err => Ret (Some (lit "can't connect to Tor proxy: " ++ err))
  | inl dialer =>
    let httpTransport := {| Dial := dialer |} in
    let client := {| ClientTransport := httpTransport;
                     Timeout := 30 * Second |} in
    r <- perform (HttpNewRequest (lit "POST") serverURL data) ;;
    match r with
    | inr err => Ret (Some (lit "failed to create request: " ++ err))
    | inl request =>
      let request :=
        Header_Set request (lit "Content-Type")
                   (lit "application/octet-stream") in
      a <- perform (ClientDo client request) ;;
      match a with
      | inr err => Ret (Some (lit "failed to send request: " ++ err))
      | inl response =>
        ret <- (rb <- perform (IoReadAll (Body response)) ;;
                let responseBody := fst rb in
                if negb (StatusCode response =? StatusOK)%Z then
                  Ret (Some (lit "unexpected status: " ++ Status response ++
                             lit ", body: " ++ responseBody))
                else
                  elapsedTime <- perform (TimeSince startTime) ;;
                  perform (FmtPrintf
                    (lit "Message sent successfully! Elapsed Time: " ++
                     formatDuration elapsedTime ++ [LF])) ;;
                  Ret None) ;;
        perform (BodyClose (Body response)) ;;
        Ret ret
      end
    end
  end.

(** Lines 103 to 111 of [sendMail]: the destination of the upload. *)
Definition serverURL (config : Config) : bytes :=
  let serverAddress := OnionAddress config in
  let serverAddress :=
    if negb (bytes_eqb (Port config) (lit ""))
    then serverAddress ++ lit ":" ++ Port config
    else serverAddress in
  let serverAddress :=
    if negb (strings.HasPrefix serverAddress (lit "http://")) &&
       negb (strings.HasPrefix serverAddress (lit "https://"))
    then lit "http://" ++ serverAddress
    else serverAddress in
  serverAddress ++ lit "/upload".

(** The goroutine that [sendMail] starts. *)
Definition sendMail_goroutine (q : QuickMail) (serverURL message : bytes)
  : Prog unit :=
  err <- uploadMessage q serverURL message ;;
  match err with
  | Some e => showError q (lit "Send error: " ++ e)
  | None => showSuccess q (lit "Message sent successfully!")
  end.

Definition sendMail (q : QuickMail) : Prog unit :=
  match config q with
  | None => showError q (lit "Configuration not loaded")
  | Some config =>
    let message := textArea_Text q in
    if bytes_eqb (strings.TrimSpace message) (lit "") then
      showError q (lit "Message is empty")
    else
      Go (sendMail_goroutine q (serverURL config) message) (Ret tt)
  end.

End Submission.

(** The destination as step 1 of the specification of the transport
    submitter words it. *)
Definition destination_reference (host port : bytes) : bytes :=
  let joined :=
    match port with
    | [] => host
    | _ :: _ => host ++ lit ":" ++ port
    end in
  let normalized :=
    if strings.HasPrefix joined (lit "http://")
       || strings.HasPrefix joined (lit "https://")
    then joined else lit "http://" ++ joined in
  normalized ++ lit "/upload".

(** *** Observations on a run *)

(** The call is a notification of the user: a dialog. *)
Definition is_notification (c : Call) : bool :=
  match c with
  | call e _ =>
    match e with
    | DialogShowInformation _ _ _ => true
    | _ => false
    end
  end.

Definition is_error_dialog (c : Call) : bool :=
  match c with
  | call e _ =>
    match e with
    | DialogShowInformation title _ _ => bytes_eqb title (lit "Error")
    | _ => false
    end
  end.

Definition is_success_dialog (c : Call) : bool :=
  match c with
  | call e _ =>
    match e with
    | DialogShowInformation title _ _ => bytes_eqb title (lit "Success")
    | _ => false
    end
  end.

(** The call reaches the network: the construction of a request or its
    dispatch. *)
Definition is_http_call (c : Call) : bool :=
  match c with
  | call e _ =>
    match e with
    | HttpNewRequest _ _ _ | ClientDo _ _ | IoReadAll _ | BodyClose _ => true
    | _ => false
    end
  end.

(** The dialers of the clients that dispatched a request in a run. *)
Fixpoint dispatch_dialers (tr : list Call) : list Dialer :=
  match tr with
  | [] => []
  | call e _ :: tr' =>
    match e with
    | ClientDo c _ => Dial (ClientTransport c) :: dispatch_dialers tr'
    | _ => dispatch_dialers tr'
    end
  end.

(** The dialers that [proxy.SOCKS5("tcp", "127.0.0.1:9050", nil,
    proxy.Direct)] returned in a run. *)
Fixpoint tor_dialers (tr : list Call) : list Dialer :=
  match tr with
  | [] => []
  | call e x :: tr' =>
    match e in Event X return X -> list Dialer with
    | ProxySOCKS5 network address auth forward =>
      fun x =>
        match x, auth, forward with
        | inl d, None, Direct =>
          if bytes_eqb network (lit "tcp") &&
             bytes_eqb address (lit "127.0.0.1:9050")
          then d :: tor_dialers tr' else tor_dialers tr'
        | _, _, _ => tor_dialers tr'
        end
    | _ => fun _ => tor_dialers tr'
    end x
  end.

(** The runes of a string, as [for _, r := range s] yields them. *)
Fixpoint runes_loop (fuel : nat) (s : bytes) : list Z :=
  match fuel with
  | O => []
  | S fuel' =>
    match s with
    | [] => []
    | _ :: _ =>
      let '(r, size) := utf8.DecodeRuneInString s in
      r :: runes_loop fuel' (slice_from s size)
    end
  end.

Definition runes (s : bytes) : list Z := runes_loop (length s) s.

(** The string is empty or every rune of it is white space. *)
Definition only_whitespace (s : bytes) : Prop :=
  Forall (fun r => unicode.IsSpace r = true) (runes s).

(** The lines of a text. *)
Definition lines (s : bytes) : list bytes := strings.Split s [LF].

(** The bytes that [mime.Encode] leaves as they are: printable ASCII and
    the tab. *)
Definition plain_byte (c : ascii) : bool :=
  let b := byteZ c in
  (((32 <=? b) && (b <=? 126)) || (b =? 9))%Z.

Definition is_ascii (c : ascii) : bool := (byteZ c <? 128)%Z.

(** ** Auxiliary notions of the proofs *)

(** No instance of ["?="] lies in the string. *)
Fixpoint no_marker (p : bytes) : bool :=
  match p with
  | a :: (b :: _) as t =>
    negb (Ascii.eqb a "?"%char && Ascii.eqb b "="%char) && no_marker t
  | _ => true
  end.

(** Every line break of the string stands right after a closing marker. *)
Definition breaks_after_marker (out : bytes) : Prop :=
  forall pre post, out = pre ++ LF :: post ->
                   exists pre', pre = pre' ++ lit "?=".

Definition no_trailing_break (out : bytes) : Prop :=
  forall pre, out <> pre ++ [LF].

(** The parts of a split put together again, a line break after each
    closing marker. *)
Fixpoint join_parts (parts : list bytes) : bytes :=
  match parts with
  | [] => []
  | [p] => p
  | p :: ps => p ++ lit "?=" ++ [LF] ++ join_parts ps
  end.

Definition no_break (s : bytes) : Prop := Forall (fun c => c <> LF) s.

(** The byte is one of the sixty-four of the base64 alphabet. *)
Definition is_alphabet (c : ascii) : bool :=
  existsb (Ascii.eqb c) base64.encodeStd.

(** The encoded word of a chunk of the input, and the words of a list of
    chunks with a separator between them. *)
Definition word_open : bytes := lit "=?UTF-8?b?".

Definition word (c : bytes) : bytes :=
  word_open ++ base64.Encode c ++ lit "?=".

Fixpoint join_words (sep : bytes) (cs : list bytes) : bytes :=
  match cs with
  | [] => []
  | [c] => word c
  | c :: cs' => word c ++ sep ++ join_words sep cs'
  end.

(** What [bEncode] and the closing of the last word write after the
    opening of the first word. *)
Fixpoint tail_words (cs : list bytes) : bytes :=
  match cs with
  | [] => []
  | [c] => base64.Encode c ++ lit "?="
  | c :: cs' =>
    base64.Encode c ++ lit "?=" ++ [SP] ++ word_open ++ tail_words cs'
  end.

(** A chunk holds between one and [maxBase64Len] bytes. *)
Definition chunk_ok (c : bytes) : Prop := 1 <= length c <= 45.

(** The responses that [client.Do] returned in a run. *)
Fixpoint responses (tr : list Call) : list Response :=
  match tr with
  | [] => []
  | call e x :: tr' =>
    match e in Event X return X -> list Response with
    | ClientDo _ _ =>
      fun x => match x with
               | inl r => r :: responses tr'
               | inr _ => responses tr'
               end
    | _ => fun _ => responses tr'
    end x
  end.

(** The bodies that [io.ReadAll] read in a run, each with its reader. *)
Fixpoint bodies_read (tr : list Call) : list (ReadCloser * bytes) :=
  match tr with
  | [] => []
  | call e x :: tr' =>
    match e in Event X return X -> list (ReadCloser * bytes) with
    | IoReadAll body => fun x => (body, fst x) :: bodies_read tr'
    | _ => fun _ => bodies_read tr'
    end x
  end.

(** The errors that [proxy.SOCKS5] returned in a run. *)
Fixpoint proxy_failures (tr : list Call) : list error :=
  match tr with
  | [] => []
  | call e x :: tr' =>
    match e in Event X return X -> list error with
    | ProxySOCKS5 _ _ _ _ =>
      fun x => match x with
               | inl _ => proxy_failures tr'
               | inr err => err :: proxy_failures tr'
               end
    | _ => fun _ => proxy_failures tr'
    end x
  end.

(** The requests that were dispatched in a run. *)
Fixpoint dispatched (tr : list Call) : list Request :=
  match tr with
  | [] => []
  | call e _ :: tr' =>
    match e with
    | ClientDo _ req => req :: dispatched tr'
    | _ => dispatched tr'
    end
  end.

(** The clients that dispatched a request in a run. *)
Fixpoint dispatch_clients (tr : list Call) : list Client :=
  match tr with
  | [] => []
  | call e _ :: tr' =>
    match e with
    | ClientDo c _ => c :: dispatch_clients tr'
    | _ => dispatch_clients tr'
    end
  end.

(** The readers that were closed in a run. *)
Fixpoint closed_bodies (tr : list Call) : list ReadCloser :=
  match tr with
  | [] => []
  | call e _ :: tr' =>
    match e with
    | BodyClose body => body :: closed_bodies tr'
    | _ => closed_bodies tr'
    end
  end.

(** The texts printed on the standard output in a run. *)
Fixpoint printed (tr : list Call) : list bytes :=
  match tr with
  | [] => []
  | call e _ :: tr' =>
    match e with
    | FmtPrintf text => text :: printed tr'
    | _ => printed tr'
    end
  end.

(** The dialogs shown in a run: title and message. *)
Fixpoint dialogs (tr : list Call) : list (bytes * bytes) :=
  match tr with
  | [] => []
  | call e _ :: tr' =>
    match e with
    | DialogShowInformation title message _ =>
      (title, message) :: dialogs tr'
    | _ => dialogs tr'
    end
  end.

(** A world without state whose proxy constructor, request constructor
    and server answer as told; the clock stands still. *)
Definition scripted (proxy : Dialer + error) (request_error : option error)
    (served : Response + error) (body : bytes * option error)
    (X : Type) (e : Event X) (w : unit) : X * unit :=
  match e in Event X return X * unit with
  | TimeNow => (0%Z, tt)
  | TimeSince _ => (0%Z, tt)
  | ProxySOCKS5 _ _ _ _ => (proxy, tt)
  | HttpNewRequest method url data =>
    (match request_error with
     | Some err => inr err
     | None => inl {| Method := method; URL := url; RequestBody := data;
                      Header := [] |}
     end, tt)
  | ClientDo _ _ => (served, tt)
  | IoReadAll _ => (body, tt)
  | BodyClose _ => (tt, tt)
  | FmtPrintf _ => (tt, tt)
  | DialogShowInformation _ _ _ => (tt, tt)
  end.

Definition denied : Response :=
  {| Status := lit "500 Internal Server Error"; StatusCode := 500;
     Body := 7 |}.

Definition accepted : Response :=
  {| Status := lit "200 OK"; StatusCode := 200; Body := 7 |}.

Definition sample_config : Config :=
  {| OnionAddress := lit "abcdef.onion"; Port := lit "8080" |}.

Definition sample_app : QuickMail :=
  {| window := 1; textArea_Text := lit "hello"; config := Some sample_config |}.

(** The shapes of a run of [uploadMessage], by what the world answers. *)
Inductive upload_shape (W : Type) (formatDuration : Z -> bytes)
    (q : QuickMail) (url message : bytes)
  : Outcome W (option error) -> Prop :=
| shape_proxy t0 err w1 :
    upload_shape W formatDuration q url message
      {| result := Some (lit "can't connect to Tor proxy: " ++ err);
         world := w1;
         trace := [call TimeNow t0;
                   call (ProxySOCKS5 (lit "tcp") (lit "127.0.0.1:9050")
                                     None Direct) (inr err)];
         spawned := [] |}
| shape_request t0 d err w1 :
    upload_shape W formatDuration q url message
      {| result := Some (lit "failed to create request: " ++ err);
         world := w1;
         trace := [call TimeNow t0;
                   call (ProxySOCKS5 (lit "tcp") (lit "127.0.0.1:9050")
                                     None Direct) (inl d);
                   call (HttpNewRequest (lit "POST") url message) (inr err)];
         spawned := [] |}
| shape_transport t0 d req err w1 :
    upload_shape W formatDuration q url message
      {| result := Some (lit "failed to send request: " ++ err);
         world := w1;
         trace := [call TimeNow t0;
                   call (ProxySOCKS5 (lit "tcp") (lit "127.0.0.1:9050")
                                     None Direct) (inl d);
                   call (HttpNewRequest (lit "POST") url message) (inl req);
                   call (ClientDo
                           {| ClientTransport := {| Dial := d |};
                              Timeout := 30 * Second |}
                           (Header_Set req (lit "Content-Type")
                                       (lit "application/octet-stream")))
                        (inr err)];
         spawned := [] |}
| shape_rejected t0 d req resp rb w1 :
    StatusCode resp <> StatusOK ->
    upload_shape W formatDuration q url message
      {| result := Some (lit "unexpected status: " ++ Status resp ++
                         lit ", body: " ++ fst rb);
         world := w1;
         trace := [call TimeNow t0;
                   call (ProxySOCKS5 (lit "tcp") (lit "127.0.0.1:9050")
                                     None Direct) (inl d);
                   call (HttpNewRequest (lit "POST") url message) (inl req);
                   call (ClientDo
                           {| ClientTransport := {| Dial := d |};
                              Timeout := 30 * Second |}
                           (Header_Set req (lit "Content-Type")
                                       (lit "application/octet-stream")))
                        (inl resp);
                   call (IoReadAll (Body resp)) rb;
                   call (BodyClose (Body resp)) tt];
         spawned := [] |}
| shape_ok t0 d req resp rb elapsed w1 :
    StatusCode resp = StatusOK ->
    upload_shape W formatDuration q url message
      {| result := None;
         world := w1;
         trace := [call TimeNow t0;
                   call (ProxySOCKS5 (lit "tcp") (lit "127.0.0.1:9050")
                                     None Direct) (inl d);
                   call (HttpNewRequest (lit "POST") url message) (inl req);
                   call (ClientDo
                           {| ClientTransport := {| Dial := d |};
                              Timeout := 30 * Second |}
                           (Header_Set req (lit "Content-Type")
                                       (lit "application/octet-stream")))
                        (inl resp);
                   call (IoReadAll (Body resp)) rb;
                   call (TimeSince t0) elapsed;
                   call (FmtPrintf
                           (lit "Message sent successfully! Elapsed Time: "
                            ++ formatDuration elapsed ++ [LF])) tt;
                   call (BodyClose (Body resp)) tt];
         spawned := [] |}.


(** ** Further observations on a run *)

(** The arguments of the calls of [http.NewRequest] in a run. *)
Fixpoint new_request_calls (tr : list Call) : list (bytes * bytes * bytes) :=
  match tr with
  | [] => []
  | call e _ :: tr' =>
    match e with
    | HttpNewRequest method url body =>
      (method, url, body) :: new_request_calls tr'
    | _ => new_request_calls tr'
    end
  end.

(** The requests that [http.NewRequest] returned in a run. *)
Fixpoint built_requests (tr : list Call) : list Request :=
  match tr with
  | [] => []
  | call e x :: tr' =>
    match e in Event X return X -> list Request with
    | HttpNewRequest _ _ _ =>
      fun x => match x with
               | inl r => r :: built_requests tr'
               | inr _ => built_requests tr'
               end
    | _ => fun _ => built_requests tr'
    end x
  end.

(** The errors that [http.NewRequest] returned in a run. *)
Fixpoint request_failures (tr : list Call) : list error :=
  match tr with
  | [] => []
  | call e x :: tr' =>
    match e in Event X return X -> list error with
    | HttpNewRequest _ _ _ =>
      fun x => match x with
               | inl _ => request_failures tr'
               | inr err => err :: request_failures tr'
               end
    | _ => fun _ => request_failures tr'
    end x
  end.

(** The errors that [client.Do] returned in a run. *)
Fixpoint transport_failures (tr : list Call) : list error :=
  match tr with
  | [] => []
  | call e x :: tr' =>
    match e in Event X return X -> list error with
    | ClientDo _ _ =>
      fun x => match x with
               | inl _ => transport_failures tr'
               | inr err => err :: transport_failures tr'
               end
    | _ => fun _ => transport_failures tr'
    end x
  end.

(** The number of calls of [proxy.SOCKS5] in a run. *)
Fixpoint proxy_calls (tr : list Call) : nat :=
  match tr with
  | [] => 0
  | call e _ :: tr' =>
    match e with
    | ProxySOCKS5 _ _ _ _ => S (proxy_calls tr')
    | _ => proxy_calls tr'
    end
  end.

(** The values of a header of a request. *)
Definition Header_Values (r : Request) (key : bytes) : list bytes :=
  map snd (filter (fun kv => bytes_eqb (fst kv) key) (Header r)).

(** The elapsed times that [time.Since] returned in a run. *)
Fixpoint elapsed_times (tr : list Call) : list Z :=
  match tr with
  | [] => []
  | call e x :: tr' =>
    match e in Event X return X -> list Z with
    | TimeSince _ => fun x => x :: elapsed_times tr'
    | _ => fun _ => elapsed_times tr'
    end x
  end.

(** *** The subject dialog *)

(** The fields of the text area ([widget.Entry]) that the program uses.
    The cursor row and column are never negative. *)
Record Entry := { Text : bytes; CursorRow : nat; CursorColumn : nat }.

(** The loop [for i := 0; i < row; i++] of the callback of
    [showSubjectDialog]; [todo] turns are left. *)
Fixpoint position_loop (lines : list bytes) (i todo actualPos : nat) : nat :=
  match todo with
  | O => actualPos
  | S todo' =>
    let actualPos :=
      if i <? length lines
      then actualPos + (length (nth i lines []) + 1)
      else actualPos in
    position_loop lines (S i) todo' actualPos
  end.

(** Lines 234 to 253: the byte offset of the cursor in the text. *)
Definition cursor_offset (currentText : bytes) (row cursorPos : nat) : nat :=
  let lines := strings.Split currentText [LF] in
  let actualPos := position_loop lines 0 row 0 in
  if row <? length lines then
    let cursorPos :=
      if length (nth row lines []) <? cursorPos
      then length (nth row lines [])
      else cursorPos in
    actualPos + cursorPos
  else length currentText.

(** The callback of the form of [showSubjectDialog], on the text area.
    [None] is a panic: a slice bound out of range or an index into an
    empty slice.  [SetText] leaves the text in [Text]; the cursor fields
    are assigned after it. *)
Definition showSubjectDialog_callback (confirmed : bool) (subject : bytes)
    (textArea : Entry) : option Entry :=
  if confirmed && negb (bytes_eqb subject (lit "")) then
    let encodedSubject := encodeMIMESubject subject ++ [LF] in
    let currentText := Text textArea in
    let actualPos :=
      cursor_offset currentText (CursorRow textArea) (CursorColumn textArea) in
    if length currentText <? actualPos then None
    else
      let newText :=
        slice_to currentText actualPos ++ encodedSubject
        ++ slice_from currentText actualPos in
      let newCursorPos := actualPos + length encodedSubject in
      if length newText <? newCursorPos then None
      else
        let newLines := strings.Split (slice_to newText newCursorPos) [LF] in
        match newLines with
        | [] => None
        | _ :: _ =>
          Some {| Text := newText;
                  CursorRow := length newLines - 1;
                  CursorColumn :=
                    length (nth (length newLines - 1) newLines []) |}
        end
  else Some textArea.

(** The lines of a text, by recursion on the text. *)
Fixpoint lines_of (s : bytes) : list bytes :=
  match s with
  | [] => [[]]
  | c :: t =>
    if Ascii.eqb c LF then [] :: lines_of t
    else match lines_of t with
         | l :: ls => (c :: l) :: ls
         | [] => [[c]]
         end
  end.

(** The number of line breaks of a text. *)
Definition breaks (s : bytes) : nat := count_occ ascii_dec s LF.

(** ** Package [time]: durations *)

Module time.

Local Open Scope Z_scope.

(** A [Duration] is an [int64] count of nanoseconds; [int64 z] is the value
    that a result [z] of the arithmetic wraps to. *)
Definition int64 (z : Z) : Z := (z + 2 ^ 63) mod 2 ^ 64 - 2 ^ 63.

(** [uint64(x)] of an [int64]. *)
Definition uint64 (z : Z) : Z := z mod 2 ^ 64.

Definition minDuration : Z := - 2 ^ 63.
Definition maxDuration : Z := 2 ^ 63 - 1.

Definition Minute : Z := 60 * Second.
Definition Hour : Z := 60 * Minute.

(** [lessThanHalf]: [uint64(x)+uint64(x) < uint64(y)]. *)
Definition lessThanHalf (x y : Z) : bool :=
  uint64 (uint64 x + uint64 x) <? uint64 y.

(** [d.Round(m)]: [d] rounded to the nearest multiple of [m], halfway
    values away from zero; the extreme durations on overflow. *)
Definition Round (d m : Z) : Z :=
  if m <=? 0 then d
  else
    let r := Z.rem d m in
    if d <? 0 then
      let r := int64 (- r) in
      if lessThanHalf r m then int64 (d + r)
      else
        let d1 := int64 (int64 (d - m) + r) in
        if d1 <? d then d1 else minDuration
    else
      if lessThanHalf r m then int64 (d - r)
      else
        let d1 := int64 (int64 (d + m) - r) in
        if d <? d1 then d1 else maxDuration.

End time.

(** ** Package [fmt]: the verb [%02d] *)

Module fmt.

Local Open Scope Z_scope.

(** ['0' + u] for a digit [u]. *)
Definition digit (u : Z) : ascii := Zbyte (48 + u).

(** The loop [for u >= 10] of [fmtInteger] and the last digit after it;
    an [uint64] has at most twenty digits. *)
Fixpoint digits_loop (fuel : nat) (u : Z) (buf : bytes) : bytes :=
  match fuel with
  | O => digit u :: buf
  | S fuel' =>
    if 10 <=? u then
      let next := u / 10 in
      digits_loop fuel' next (digit (u - next * 10) :: buf)
    else digit u :: buf
  end.

(** [%02d] of an [int64]: the digits of the absolute value, zeros before
    them up to the width, which includes the sign of a negative number. *)
Definition Sprintf_02d (v : Z) : bytes :=
  let negative := v <? 0 in
  let u := time.uint64 (if negative then - v else v) in
  let prec := if negative then 1%nat else 2%nat in
  let digits := digits_loop 20 u [] in
  let padded := repeat "0"%char (prec - length digits) ++ digits in
  if negative then "-"%char :: padded else padded.

End fmt.

(** *** [formatDuration] *)

(** The quotient of [/] on [int64]: towards zero. *)
Definition formatDuration (d : Z) : bytes :=
  let d := time.Round d Second in
  let h := Z.quot d time.Hour in
  let d := time.int64 (d - time.int64 (h * time.Hour)) in
  let m := Z.quot d time.Minute in
  let d := time.int64 (d - time.int64 (m * time.Minute)) in
  let s := Z.quot d Second in
  fmt.Sprintf_02d h ++ lit ":" ++ fmt.Sprintf_02d m ++ lit ":"
  ++ fmt.Sprintf_02d s.

(** Two decimal digits. *)
Definition two_digits (n : Z) : bytes :=
  [fmt.digit (n / 10); fmt.digit (n mod 10)]%Z.

(** *** The theme, the Clear button and the start of the program *)

Inductive Theme := DarkTheme | LightTheme.

(** [isDarkTheme], the theme that [Settings().SetTheme] was last given,
    and the number of calls of [Content().Refresh]. *)
Record Appearance := {
  isDarkTheme : bool;
  shownTheme : Theme;
  refreshes : nat }.

Definition toggleTheme (a : Appearance) : Appearance :=
  if isDarkTheme a then
    {| isDarkTheme := false; shownTheme := LightTheme;
       refreshes := S (refreshes a) |}
  else
    {| isDarkTheme := true; shownTheme := DarkTheme;
       refreshes := S (refreshes a) |}.

(** The appearance that [main] sets up: [isDarkTheme: true] and
    [SetTheme(theme.DarkTheme())]. *)
Definition main_appearance : Appearance :=
  {| isDarkTheme := true; shownTheme := DarkTheme; refreshes := 0 |}.

(** [clearContent], on the application and the clipboard of its window;
    [None] is a nil clipboard. *)
Definition clearContent (q : QuickMail) (clipboard : option bytes)
  : QuickMail * option bytes :=
  ({| window := window q; textArea_Text := lit ""; config := config q |},
   match clipboard with
   | Some _ => Some (lit "")
   | None => None
   end).

(** What the operating system and the libraries answer to [loadConfig]:
    [os.Executable], [filepath.Dir], [filepath.Join], [os.ReadFile], and
    [json.Unmarshal] into a [Config]. *)
Record Host := {
  os_Executable : bytes + error;
  filepath_Dir : bytes -> bytes;
  filepath_Join : bytes -> bytes -> bytes;
  os_ReadFile : bytes -> bytes + error;
  json_Unmarshal : bytes -> Config + error }.

(** The calls of [loadConfig] that reach the file system or the parser. *)
Inductive HostCall :=
| CallExecutable
| CallReadFile (path : bytes)
| CallUnmarshal (data : bytes).

(** [loadConfig]: the configuration and the error, one of them nil, and
    the calls made. *)
Definition loadConfig (h : Host)
  : (option Config * option error) * list HostCall :=
  match os_Executable h with
  | inr err => ((None, Some err), [CallExecutable])
  | inl exePath =>
    let configPath :=
      filepath_Join h (filepath_Dir h exePath) (lit "quickmail.json") in
    match os_ReadFile h configPath with
    | inr err =>
      ((None, Some (lit "could not read config file: " ++ err)),
       [CallExecutable; CallReadFile configPath])
    | inl data =>
      match json_Unmarshal h data with
      | inr err =>
        ((None, Some (lit "could not parse config file: " ++ err)),
         [CallExecutable; CallReadFile configPath; CallUnmarshal data])
      | inl config =>
        ((Some config, None),
         [CallExecutable; CallReadFile configPath; CallUnmarshal data])
      end
    end
  end.

(** The start of [main]: the configuration is loaded, a failure is printed
    as a warning, and the application is built with what was loaded and an
    empty text area. *)
Definition main_start (h : Host) (window : Window) : QuickMail * list bytes :=
  let '(config, err) := fst (loadConfig h) in
  ({| window := window; textArea_Text := lit ""; config := config |},
   match err with
   | Some e => [lit "Warning: Could not load config: " ++ e ++ [LF]]
   | None => []
   end).

(** The application after the user has typed a text. *)
Definition typed (q : QuickMail) (text : bytes) : QuickMail :=
  {| window := window q; textArea_Text := text; config := config q |}.

Definition no_files : Host :=
  {| os_Executable := inl (lit "/opt/quickmail/quickmail");
     filepath_Dir := fun _ => lit "/opt/quickmail";
     filepath_Join := fun d f => d ++ lit "/" ++ f;
     os_ReadFile := fun _ => inr (lit "no such file or directory");
     json_Unmarshal := fun _ => inr (lit "unexpected end of JSON input") |}.

(** *** Character boundaries *)

(** [rune_prefix s n]: the first [n] bytes of [s] are whole runes, as
    [for i := range s] steps over them with [DecodeRuneInString]. *)
Inductive rune_prefix : bytes -> nat -> Prop :=
| prefix_zero (s : bytes) : rune_prefix s 0
| prefix_step (s : bytes) (n : nat) :
    s <> [] ->
    rune_prefix (slice_from s (snd (utf8.DecodeRuneInString s))) n ->
    rune_prefix s (snd (utf8.DecodeRuneInString s) + n).

(** * Properties *)

(** ** Byte strings *)

Lemma bytes_eqb_refl (s : bytes) : bytes_eqb s s = true.
Proof.
  induction s as [|a s IH]; simpl; [reflexivity|].
  now rewrite Ascii.eqb_refl, IH.
Qed.

Lemma bytes_eqb_eq (s t : bytes) : bytes_eqb s t = true <-> s = t.
Proof.
  split.
  - revert t; induction s as [|a s IH]; intros [|b t]; simpl;
      try discriminate; [reflexivity|].
    intros H. apply andb_true_iff in H as [Hab Hst].
    apply Ascii.eqb_eq in Hab. now rewrite Hab, (IH _ Hst).
  - intros ->. apply bytes_eqb_refl.
Qed.

Lemma bytes_eqb_neq (s t : bytes) : bytes_eqb s t = false <-> s <> t.
Proof.
  rewrite <- bytes_eqb_eq. destruct (bytes_eqb s t); split; intros H;
    try discriminate; try reflexivity; now (contradiction H).
Qed.

Lemma bytes_eqb_nil (s : bytes) : bytes_eqb s [] = true <-> s = [].
Proof. apply bytes_eqb_eq. Qed.

(** ** [strings.HasPrefix], [strings.HasSuffix], [strings.TrimSuffix] *)

Lemma HasPrefix_app (p r : bytes) : strings.HasPrefix (p ++ r) p = true.
Proof.
  induction p as [|a p IH]; simpl; [now destruct r|].
  now rewrite Ascii.eqb_refl, IH.
Qed.

Lemma HasPrefix_spec (s p : bytes) :
  strings.HasPrefix s p = true <-> exists r, s = p ++ r.
Proof.
  split.
  - revert s; induction p as [|a p IH]; intros s H.
    + now exists s.
    + destruct s as [|b s]; simpl in H; [discriminate|].
      apply andb_true_iff in H as [Hab Hs]. apply Ascii.eqb_eq in Hab.
      destruct (IH _ Hs) as [r ->]. exists r. now rewrite Hab.
  - intros [r ->]. apply HasPrefix_app.
Qed.

Lemma HasPrefix_app_l (s p t : bytes) :
  strings.HasPrefix s p = true -> strings.HasPrefix (s ++ t) p = true.
Proof.
  intros H. apply HasPrefix_spec in H as [r ->].
  rewrite <- app_assoc. apply HasPrefix_app.
Qed.

Lemma HasSuffix_app (x suffix : bytes) :
  strings.HasSuffix (x ++ suffix) suffix = true.
Proof.
  unfold strings.HasSuffix, slice_from. rewrite length_app.
  apply andb_true_iff; split.
  - apply Nat.leb_le. lia.
  - rewrite Nat.add_sub, skipn_app, skipn_all, Nat.sub_diag. simpl.
    apply bytes_eqb_refl.
Qed.

Lemma HasSuffix_spec (s suffix : bytes) :
  strings.HasSuffix s suffix = true <-> exists x, s = x ++ suffix.
Proof.
  split.
  - unfold strings.HasSuffix, slice_from. intros H.
    apply andb_true_iff in H as [_ H]. apply bytes_eqb_eq in H.
    exists (firstn (length s - length suffix) s).
    rewrite <- (firstn_skipn (length s - length suffix) s) at 1.
    now rewrite H.
  - intros [x ->]. apply HasSuffix_app.
Qed.

Lemma TrimSuffix_app (x suffix : bytes) :
  strings.TrimSuffix (x ++ suffix) suffix = x.
Proof.
  unfold strings.TrimSuffix, slice_to. rewrite HasSuffix_app, length_app.
  rewrite Nat.add_sub.
  rewrite firstn_app, firstn_all, Nat.sub_diag. simpl. apply app_nil_r.
Qed.

Lemma TrimSuffix_none (s suffix : bytes) :
  strings.HasSuffix s suffix = false -> strings.TrimSuffix s suffix = s.
Proof. unfold strings.TrimSuffix. now intros ->. Qed.

(** [strings.TrimSuffix(s, "\n")] strips one trailing line break. *)
Lemma TrimSuffix_LF (s : bytes) : strings.TrimSuffix s [LF] = strip_one_fold s.
Proof.
  unfold strip_one_fold.
  destruct (rev s) as [|c r] eqn:E.
  - apply (f_equal (@rev ascii)) in E. rewrite rev_involutive in E.
    subst s. reflexivity.
  - apply (f_equal (@rev ascii)) in E. rewrite rev_involutive in E.
    simpl in E. subst s.
    destruct (Ascii.eqb c LF) eqn:Ec.
    + apply Ascii.eqb_eq in Ec. subst c. apply TrimSuffix_app.
    + apply TrimSuffix_none.
      destruct (strings.HasSuffix (rev r ++ [c]) [LF]) eqn:H; [|reflexivity].
      apply HasSuffix_spec in H as [x H].
      apply app_inj_tail in H as [_ H]. subst c.
      now rewrite Ascii.eqb_refl in Ec.
Qed.

(** ** The folding loop of [encodeMIMESubject] *)

Lemma fold_parts_concat (parts : list bytes) :
  forall i result,
    fold_parts i parts result =
    result ++ concat (map (fun seg => seg ++ lit "?=" ++ [LF]) parts).
Proof.
  induction parts as [|part parts IH]; intros i result; simpl.
  - now rewrite app_nil_r.
  - rewrite IH. destruct (0 <? i); simpl; rewrite ?app_nil_r;
      now rewrite <- app_assoc.
Qed.

Lemma firstn_pred_removelast (A : Type) (l : list A) :
  firstn (length l - 1) l = removelast l.
Proof.
  destruct l as [|a l]; [reflexivity|].
  replace (length (a :: l) - 1) with (Nat.pred (length (a :: l)))
    by (simpl; lia).
  symmetry. apply removelast_firstn_len.
Qed.

Lemma nth_pred_last (A : Type) (l : list A) (d : A) :
  nth (length l - 1) l d = last l d.
Proof.
  induction l as [|a l IH]; [reflexivity|].
  destruct l as [|b l]; [reflexivity|].
  replace (length (a :: b :: l) - 1) with (S (length (b :: l) - 1))
    by (simpl; lia).
  change (nth (S (length (b :: l) - 1)) (a :: b :: l) d)
    with (nth (length (b :: l) - 1) (b :: l) d).
  rewrite IH. reflexivity.
Qed.

(** The code's folding is the reference folding of the encoded string. *)
Lemma encodeMIMESubject_fold (input : bytes) :
  input <> [] ->
  encodeMIMESubject input = fold_reference (mime.Encode (lit "UTF-8") input).
Proof.
  intros Hne. unfold encodeMIMESubject, fold_reference.
  destruct (bytes_eqb input (lit "")) eqn:E.
  { apply bytes_eqb_eq in E. contradiction. }
  set (encoded := mime.Encode (lit "UTF-8") input).
  set (parts := strings.Split encoded (lit "?=")).
  destruct parts as [|p [|p' parts']] eqn:Ep; try reflexivity.
  rewrite <- Ep.
  replace (length parts <=? 1) with false
    by (rewrite Ep; reflexivity).
  rewrite fold_parts_concat, firstn_pred_removelast, nth_pred_last.
  apply TrimSuffix_LF.
Qed.

(** ** [strings.Index] and [strings.Split] *)

Lemma Index_eq (s sep : bytes) :
  strings.Index s sep =
  if strings.HasPrefix s sep then Some 0
  else match s with
       | [] => None
       | _ :: s' => option_map S (strings.Index s' sep)
       end.
Proof. destruct s; reflexivity. Qed.

Lemma Index_lt (s sep : bytes) (m : nat) :
  strings.Index s sep = Some m -> m + length sep <= length s.
Proof.
  revert m; induction s as [|a s IH]; intros m; rewrite Index_eq.
  - destruct sep; [|discriminate]. intros [= <-]. simpl. lia.
  - destruct (strings.HasPrefix (a :: s) sep) eqn:E.
    + intros [= <-]. apply HasPrefix_spec in E as [r E].
      rewrite E, length_app. simpl. lia.
    + destruct (strings.Index s sep) as [k|] eqn:Ek; [|discriminate].
      simpl. intros [= <-]. specialize (IH _ eq_refl). simpl. lia.
Qed.

(** The bytes before the first instance do not start an instance. *)
Lemma Index_first (p sep r : bytes) :
  (forall k, k < length p ->
             strings.HasPrefix (skipn k (p ++ sep ++ r)) sep = false) ->
  strings.Index (p ++ sep ++ r) sep = Some (length p).
Proof.
  induction p as [|a p IH]; intros H.
  - simpl app. now rewrite Index_eq, HasPrefix_app.
  - pose proof (H 0 ltac:(simpl; lia)) as H0.
    change ((a :: p) ++ sep ++ r) with (a :: (p ++ sep ++ r)) in *.
    simpl skipn in H0. rewrite Index_eq, H0.
    rewrite IH; [reflexivity|].
    intros k Hk. apply (H (S k)). simpl. lia.
Qed.

Lemma Index_none_skipn (s sep : bytes) (k : nat) :
  sep <> [] ->
  strings.Index s sep = None -> strings.Index (skipn k s) sep = None.
Proof.
  intros Hsep. revert s; induction k as [|k IH]; intros s H; [exact H|].
  destruct s as [|a s]; [exact H|].
  simpl. apply IH. rewrite Index_eq in H.
  destruct (strings.HasPrefix (a :: s) sep); [discriminate|].
  now destruct (strings.Index s sep).
Qed.

Lemma genSplit_loop_fuel (sep : bytes) :
  sep <> [] ->
  forall f1 f2 s,
    length s <= f1 -> length s <= f2 ->
    strings.genSplit_loop f1 s sep = strings.genSplit_loop f2 s sep.
Proof.
  intros Hsep. induction f1 as [|f1 IH]; intros f2 s H1 H2.
  - destruct s; [|simpl in H1; lia].
    destruct f2; simpl; destruct sep; try reflexivity; contradiction.
  - simpl. destruct (strings.Index s sep) as [m|] eqn:Em.
    + pose proof (Index_lt _ _ _ Em) as Hm.
      assert (0 < length sep) by (destruct sep; [contradiction|simpl; lia]).
      destruct f2 as [|f2]; [lia|]. simpl. rewrite Em. f_equal.
      apply IH; unfold slice_from; rewrite length_skipn; lia.
    + destruct f2; simpl; now rewrite Em.
Qed.

Lemma Split_genSplit (s sep : bytes) :
  sep <> [] -> strings.Split s sep = strings.genSplit_loop (length s) s sep.
Proof. destruct sep; [contradiction|reflexivity]. Qed.

Lemma genSplit_loop_S (fuel : nat) (s sep : bytes) :
  strings.genSplit_loop (S fuel) s sep =
  match strings.Index s sep with
  | None => [s]
  | Some m =>
    slice_to s m ::
    strings.genSplit_loop fuel (slice_from s (m + length sep)) sep
  end.
Proof. reflexivity. Qed.

Lemma Split_none (s sep : bytes) :
  sep <> [] -> strings.Index s sep = None -> strings.Split s sep = [s].
Proof.
  intros Hsep H. rewrite Split_genSplit by assumption.
  destruct (length s); simpl; now rewrite H.
Qed.

Lemma Split_first (p sep r : bytes) :
  sep <> [] ->
  strings.Index (p ++ sep ++ r) sep = Some (length p) ->
  strings.Split (p ++ sep ++ r) sep = p :: strings.Split r sep.
Proof.
  intros Hsep H. rewrite !Split_genSplit by assumption.
  assert (0 < length sep) by (destruct sep; [contradiction|simpl; lia]).
  assert (Hl : length (p ++ sep ++ r) =
               S (length p + (length sep - 1) + length r)).
  { rewrite !length_app. lia. }
  rewrite Hl, genSplit_loop_S, H.
  unfold slice_to, slice_from.
  rewrite firstn_app, firstn_all, Nat.sub_diag. simpl firstn.
  rewrite app_nil_r. f_equal.
  rewrite app_assoc, skipn_app.
  replace (length p + length sep) with (length (p ++ sep))
    by now rewrite length_app.
  rewrite skipn_all, Nat.sub_diag. simpl.
  apply genSplit_loop_fuel; [assumption|lia|lia].
Qed.

(** A part of a split is made of bytes of the string. *)
Lemma genSplit_loop_Forall (P : ascii -> Prop) (sep : bytes) :
  forall fuel s,
    Forall P s -> Forall (Forall P) (strings.genSplit_loop fuel s sep).
Proof.
  induction fuel as [|fuel IH]; intros s Hs; simpl.
  - destruct (strings.Index s sep); repeat constructor; exact Hs.
  - destruct (strings.Index s sep) as [m|]; [|repeat constructor; exact Hs].
    constructor.
    + unfold slice_to. rewrite <- (firstn_skipn m s) in Hs.
      now apply Forall_app in Hs.
    + apply IH. unfold slice_from.
      rewrite <- (firstn_skipn (m + length sep) s) in Hs.
      now apply Forall_app in Hs.
Qed.

Lemma Split_Forall (P : ascii -> Prop) (s sep : bytes) :
  sep <> [] -> Forall P s -> Forall (Forall P) (strings.Split s sep).
Proof.
  intros Hsep Hs. unfold strings.Split. destruct sep; [contradiction|].
  now apply genSplit_loop_Forall.
Qed.


(** *** The closing marker *)

Lemma HasPrefix_marker (s : bytes) :
  strings.HasPrefix s (lit "?=") =
  match s with
  | a :: b :: _ => Ascii.eqb a "?"%char && Ascii.eqb b "="%char
  | _ => false
  end.
Proof.
  destruct s as [|a [|b s]];
    cbn [strings.HasPrefix lit list_ascii_of_string]; try reflexivity.
  - now rewrite andb_false_r.
  - now rewrite andb_true_r.
Qed.

Lemma Index_marker_none (p : bytes) :
  no_marker p = true <-> strings.Index p (lit "?=") = None.
Proof.
  induction p as [|a p IH]; [split; reflexivity|].
  rewrite Index_eq, HasPrefix_marker.
  destruct p as [|b p].
  - simpl. split; reflexivity.
  - change (no_marker (a :: b :: p))
      with (negb (Ascii.eqb a "?"%char && Ascii.eqb b "="%char)
            && no_marker (b :: p)).
    destruct (Ascii.eqb a "?"%char && Ascii.eqb b "="%char);
      cbn [negb andb].
    + split; discriminate.
    + rewrite IH. destruct (strings.Index (b :: p) (lit "?="));
        cbn [option_map]; split; congruence.
Qed.

Lemma Index_marker_after (p r : bytes) :
  no_marker p = true ->
  strings.Index (p ++ lit "?=" ++ r) (lit "?=") = Some (length p).
Proof.
  induction p as [|a p IH]; intros H; [reflexivity|].
  destruct p as [|b p].
  - change ([a] ++ lit "?=" ++ r) with (a :: "?"%char :: "="%char :: r).
    rewrite Index_eq, HasPrefix_marker.
    replace (Ascii.eqb "?"%char "="%char) with false by reflexivity.
    rewrite andb_false_r. reflexivity.
  - change (no_marker (a :: b :: p))
      with (negb (Ascii.eqb a "?"%char && Ascii.eqb b "="%char)
            && no_marker (b :: p)) in H.
    apply andb_true_iff in H as [H1 H2].
    change ((a :: b :: p) ++ lit "?=" ++ r)
      with (a :: b :: (p ++ lit "?=" ++ r)).
    rewrite Index_eq, HasPrefix_marker.
    apply negb_true_iff in H1. rewrite H1.
    change (b :: (p ++ lit "?=" ++ r)) with ((b :: p) ++ lit "?=" ++ r).
    rewrite (IH H2). reflexivity.
Qed.

Lemma Split_marker_after (p r : bytes) :
  no_marker p = true ->
  strings.Split (p ++ lit "?=" ++ r) (lit "?=") =
  p :: strings.Split r (lit "?=").
Proof.
  intros H. apply Split_first; [discriminate|].
  now apply Index_marker_after.
Qed.

Lemma no_marker_no_question (p : bytes) :
  Forall (fun c => c <> "?"%char) p -> no_marker p = true.
Proof.
  induction 1 as [|a p Ha Hp IH]; [reflexivity|].
  destruct p as [|b p]; [reflexivity|].
  change (no_marker (a :: b :: p))
    with (negb (Ascii.eqb a "?"%char && Ascii.eqb b "="%char)
          && no_marker (b :: p)).
  rewrite IH. apply Ascii.eqb_neq in Ha. now rewrite Ha.
Qed.

(** A marker cannot start in [x] and end in [y] when [y] does not begin
    with ['=']. *)
Lemma no_marker_app (x y : bytes) :
  no_marker x = true -> no_marker y = true ->
  match y with c :: _ => c <> "="%char | [] => True end ->
  no_marker (x ++ y) = true.
Proof.
  intros Hx Hy Hc. induction x as [|a x IH]; [exact Hy|].
  destruct x as [|b x].
  - destruct y as [|c y]; [reflexivity|].
    change (([a] ++ c :: y)) with (a :: c :: y).
    change (no_marker (a :: c :: y))
      with (negb (Ascii.eqb a "?"%char && Ascii.eqb c "="%char)
            && no_marker (c :: y)).
    rewrite Hy. apply Ascii.eqb_neq in Hc. rewrite Hc.
    now rewrite andb_false_r.
  - change ((a :: b :: x) ++ y) with (a :: b :: (x ++ y)).
    change (no_marker (a :: b :: x ++ y))
      with (negb (Ascii.eqb a "?"%char && Ascii.eqb b "="%char)
            && no_marker ((b :: x) ++ y)).
    change (no_marker (a :: b :: x))
      with (negb (Ascii.eqb a "?"%char && Ascii.eqb b "="%char)
            && no_marker (b :: x)) in Hx.
    apply andb_true_iff in Hx as [H1 H2]. now rewrite H1, IH.
Qed.


(** ** Line breaks of a folded string *)

Lemma join_parts_concat (parts : list bytes) :
  parts <> [] ->
  concat (map (fun seg => seg ++ lit "?=" ++ [LF]) (removelast parts))
  ++ last parts [] = join_parts parts.
Proof.
  induction parts as [|p parts IH]; [contradiction|]. intros _.
  destruct parts as [|q parts]; [reflexivity|].
  change (removelast (p :: q :: parts)) with (p :: removelast (q :: parts)).
  change (last (p :: q :: parts) []) with (last (q :: parts) (@nil ascii)).
  change (join_parts (p :: q :: parts))
    with (p ++ lit "?=" ++ [LF] ++ join_parts (q :: parts)).
  rewrite <- IH by discriminate.
  simpl map. simpl concat. now rewrite <- !app_assoc.
Qed.

Lemma fold_reference_join (encoded : bytes) :
  fold_reference encoded =
  match strings.Split encoded (lit "?=") with
  | [] | [_] => encoded
  | segments => strip_one_fold (join_parts segments)
  end.
Proof.
  unfold fold_reference.
  destruct (strings.Split encoded (lit "?=")) as [|p [|q parts]];
    try reflexivity.
  now rewrite join_parts_concat by discriminate.
Qed.

Lemma strip_one_fold_app (x : bytes) : strip_one_fold (x ++ [LF]) = x.
Proof.
  unfold strip_one_fold. rewrite rev_app_distr. simpl.
  apply rev_involutive.
Qed.

Lemma strip_one_fold_cases (x : bytes) :
  (exists y, x = y ++ [LF] /\ strip_one_fold x = y) \/
  (no_trailing_break x /\ strip_one_fold x = x).
Proof.
  destruct (rev x) as [|c r] eqn:E.
  - right. apply (f_equal (@rev ascii)) in E. rewrite rev_involutive in E.
    subst x. split; [|reflexivity].
    intros pre H. now destruct pre.
  - apply (f_equal (@rev ascii)) in E. rewrite rev_involutive in E.
    simpl in E. subst x.
    destruct (Ascii.eqb c LF) eqn:Ec.
    + apply Ascii.eqb_eq in Ec. subst c. left. exists (rev r).
      split; [reflexivity|apply strip_one_fold_app].
    + right. split.
      * intros pre H. apply app_inj_tail in H as [_ H]. subst c.
        now rewrite Ascii.eqb_refl in Ec.
      * unfold strip_one_fold. rewrite rev_app_distr. simpl.
        now rewrite Ec.
Qed.

Lemma no_break_split (x y pre post : bytes) :
  no_break x -> x ++ y = pre ++ LF :: post ->
  exists pre2, pre = x ++ pre2 /\ y = pre2 ++ LF :: post.
Proof.
  intros Hx. revert pre. induction Hx as [|a x Ha Hx IH]; intros pre H.
  - now exists pre.
  - destruct pre as [|b pre].
    + simpl in H. injection H as H _. contradiction.
    + simpl in H. injection H as <- H.
      destruct (IH _ H) as [pre2 [-> Hy]]. now exists pre2.
Qed.

Lemma no_break_breaks (x : bytes) :
  no_break x -> breaks_after_marker x /\ no_trailing_break x.
Proof.
  intros Hx. split.
  - intros pre post H. exfalso.
    rewrite <- (app_nil_r x) in H.
    destruct (no_break_split _ _ _ _ Hx H) as [pre2 [_ H2]].
    now destruct pre2.
  - intros pre H. rewrite <- (app_nil_r x) in H.
    change (pre ++ [LF]) with (pre ++ LF :: []) in H.
    destruct (no_break_split _ _ _ _ Hx H) as [pre2 [_ H2]].
    now destruct pre2.
Qed.

Lemma join_parts_breaks (parts : list bytes) :
  Forall no_break parts -> breaks_after_marker (join_parts parts).
Proof.
  induction 1 as [|p parts Hp Hparts IH].
  - intros pre post H. now destruct pre.
  - destruct parts as [|q parts].
    + apply no_break_breaks. exact Hp.
    + intros pre post H.
      change (join_parts (p :: q :: parts))
        with (p ++ lit "?=" ++ [LF] ++ join_parts (q :: parts)) in H.
      rewrite app_assoc in H.
      assert (Hx : no_break (p ++ lit "?=")).
      { apply Forall_app; split; [exact Hp|].
        repeat constructor; discriminate. }
      destruct (no_break_split _ _ _ _ Hx H) as [pre2 [-> H2]].
      destruct pre2 as [|c pre3].
      * exists p. now rewrite app_nil_r.
      * simpl in H2. injection H2 as <- H2.
        destruct (IH _ _ H2) as [pre' ->].
        exists (p ++ lit "?=" ++ LF :: pre').
        now rewrite <- !app_assoc.
Qed.

Lemma strip_one_fold_breaks (x : bytes) :
  breaks_after_marker x ->
  breaks_after_marker (strip_one_fold x) /\
  no_trailing_break (strip_one_fold x).
Proof.
  intros Hx. destruct (strip_one_fold_cases x) as [[y [-> ->]]|[Hn ->]].
  - split.
    + intros pre post H. apply (Hx pre (post ++ [LF])).
      rewrite H, <- app_assoc. reflexivity.
    + intros pre ->.
      destruct (Hx (pre ++ [LF]) []) as [pre' H]; [reflexivity|].
      change (lit "?=") with (["?"%char] ++ ["="%char]) in H.
      rewrite app_assoc in H. apply app_inj_tail in H as [_ H].
      discriminate.
  - split; assumption.
Qed.

(** Folding a string without line breaks puts every line break right
    after a closing marker and none at the end. *)
Lemma fold_reference_breaks (encoded : bytes) :
  no_break encoded ->
  breaks_after_marker (fold_reference encoded) /\
  no_trailing_break (fold_reference encoded).
Proof.
  intros He. rewrite fold_reference_join.
  pose proof (Split_Forall _ encoded (lit "?=") ltac:(discriminate) He) as Hs.
  destruct (strings.Split encoded (lit "?=")) as [|p [|q parts]];
    try (now apply no_break_breaks).
  apply strip_one_fold_breaks, join_parts_breaks. exact Hs.
Qed.

(** ** Bytes and runes *)

Lemma byteZ_range (c : ascii) : (0 <= byteZ c < 256)%Z.
Proof.
  unfold byteZ. pose proof (N_ascii_bounded c). lia.
Qed.

Lemma lor_ge_128 (a b : Z) :
  (0 <= a -> 0 <= b -> 128 <= a \/ 128 <= b -> 128 <= Z.lor a b)%Z.
Proof.
  intros Ha Hb H.
  assert (Hl : (7 <= Z.log2 (Z.lor a b))%Z).
  { rewrite Z.log2_lor by assumption.
    change 7%Z with (Z.log2 128).
    destruct H as [H|H]; apply (Z.log2_le_mono 128) in H; lia. }
  assert (Hpos : (0 < Z.lor a b)%Z).
  { destruct (Z.le_gt_cases (Z.lor a b) 0) as [Hle|Hgt]; [|lia].
    rewrite (Z.log2_nonpos _ Hle) in Hl. lia. }
  destruct (Z.log2_spec _ Hpos) as [Hlow _].
  assert ((2 ^ 7 <= 2 ^ Z.log2 (Z.lor a b))%Z)
    by (apply Z.pow_le_mono_r; lia).
  change (2 ^ 7)%Z with 128%Z in *. lia.
Qed.

Lemma land_31 (b : Z) : Z.land b 31 = (b mod 32)%Z.
Proof. change 31%Z with (Z.ones 5). now rewrite Z.land_ones. Qed.

Lemma land_63 (b : Z) : Z.land b 63 = (b mod 64)%Z.
Proof. change 63%Z with (Z.ones 6). now rewrite Z.land_ones. Qed.

Lemma land_63_range (b : Z) : (0 <= Z.land b 63 < 64)%Z.
Proof. rewrite land_63. apply Z.mod_pos_bound. lia. Qed.

(** The cases of the table [first]. *)
Lemma first_cases (b : Z) :
  (0 <= b < 256)%Z ->
  (b < 128 /\ utf8.first b = 240)%Z \/
  (128 <= b /\ utf8.first b = 241)%Z \/
  (194 <= b < 224 /\ utf8.first b = 2)%Z \/
  (b = 224 /\ utf8.first b = 19)%Z \/
  (225 <= b < 240 /\ utf8.first b = 3)%Z \/
  (b = 237 /\ utf8.first b = 35)%Z \/
  (b = 240 /\ utf8.first b = 52)%Z \/
  (241 <= b < 244 /\ utf8.first b = 4)%Z \/
  (b = 244 /\ utf8.first b = 68)%Z.
Proof.
  intros Hb. unfold utf8.first.
  repeat match goal with
         | |- context [Z.ltb ?x ?y] => destruct (Z.ltb_spec x y)
         | |- context [Z.eqb ?x ?y] => destruct (Z.eqb_spec x y)
         end; lia.
Qed.

Ltac break_ifs :=
  repeat match goal with
         | |- context [if ?b then _ else _] => destruct b eqn:?
         end.

(** The width of a rune: at least one byte, at most four, and no more
    than the string has. *)
Lemma DecodeRuneInString_width (c : ascii) (t : bytes) :
  let size := snd (utf8.DecodeRuneInString (c :: t)) in
  1 <= size <= 4 /\ size <= length (c :: t).
Proof.
  unfold utf8.DecodeRuneInString.
  destruct t as [|c1 [|c2 [|c3 t]]]; break_ifs; simpl; lia.
Qed.

Lemma DecodeRuneInString_ascii (c : ascii) (t : bytes) :
  (byteZ c < 128)%Z -> utf8.DecodeRuneInString (c :: t) = (byteZ c, 1).
Proof.
  intros H. unfold utf8.DecodeRuneInString, utf8.first.
  apply Z.ltb_lt in H. rewrite H. reflexivity.
Qed.

Lemma shiftl_nonneg_ge (a k n : Z) :
  (0 <= n -> k <= a -> 0 <= k -> k * 2 ^ n <= Z.shiftl a n)%Z.
Proof.
  intros Hn Hk H0. rewrite Z.shiftl_mul_pow2 by assumption.
  apply Z.mul_le_mono_nonneg_r; [|assumption].
  apply Z.pow_nonneg. lia.
Qed.

(** The values of the runes of two, three and four bytes. *)
Lemma rune2_high (s0 s1 : Z) :
  (194 <= s0 < 224 ->
   128 <= Z.lor (Z.shiftl (Z.land s0 31) 6) (Z.land s1 63))%Z.
Proof.
  intros H. apply lor_ge_128.
  - apply Z.shiftl_nonneg. rewrite land_31. apply Z.mod_pos_bound. lia.
  - apply land_63_range.
  - left. rewrite land_31.
    pose proof (shiftl_nonneg_ge (s0 mod 32) 2 6) as Hs.
    assert (2 <= s0 mod 32)%Z
      by (Z.to_euclidean_division_equations; lia).
    change (2 * 2 ^ 6)%Z with 128%Z in Hs. lia.
Qed.

Lemma land_15 (b : Z) : Z.land b 15 = (b mod 16)%Z.
Proof. change 15%Z with (Z.ones 4). now rewrite Z.land_ones. Qed.

Lemma land_7 (b : Z) : Z.land b 7 = (b mod 8)%Z.
Proof. change 7%Z with (Z.ones 3). now rewrite Z.land_ones. Qed.

Lemma rune3_high (s0 s1 s2 : Z) :
  (225 <= s0 < 240 \/ (s0 = 224 /\ 160 <= s1 <= 191) ->
   128 <= Z.lor (Z.lor (Z.shiftl (Z.land s0 15) 12)
                       (Z.shiftl (Z.land s1 63) 6))
                (Z.land s2 63))%Z.
Proof.
  intros H.
  assert (H0 : (0 <= Z.shiftl (Z.land s0 15) 12)%Z).
  { apply Z.shiftl_nonneg. rewrite land_15. apply Z.mod_pos_bound. lia. }
  assert (H1 : (0 <= Z.shiftl (Z.land s1 63) 6)%Z).
  { apply Z.shiftl_nonneg. apply land_63_range. }
  apply lor_ge_128; [now apply Z.lor_nonneg|apply land_63_range|left].
  apply lor_ge_128; [assumption|assumption|].
  destruct H as [H|[-> H]].
  - left. rewrite land_15.
    pose proof (shiftl_nonneg_ge (s0 mod 16) 1 12) as Hs.
    assert (1 <= s0 mod 16)%Z
      by (Z.to_euclidean_division_equations; lia).
    change (1 * 2 ^ 12)%Z with 4096%Z in Hs. lia.
  - right. rewrite land_63.
    pose proof (shiftl_nonneg_ge (s1 mod 64) 32 6) as Hs.
    assert (32 <= s1 mod 64)%Z
      by (Z.to_euclidean_division_equations; lia).
    change (32 * 2 ^ 6)%Z with 2048%Z in Hs. lia.
Qed.

Lemma rune4_high (s0 s1 s2 s3 : Z) :
  (241 <= s0 <= 244 \/ (s0 = 240 /\ 144 <= s1 <= 191) ->
   128 <= Z.lor (Z.lor (Z.lor (Z.shiftl (Z.land s0 7) 18)
                              (Z.shiftl (Z.land s1 63) 12))
                       (Z.shiftl (Z.land s2 63) 6))
                (Z.land s3 63))%Z.
Proof.
  intros H.
  assert (H0 : (0 <= Z.shiftl (Z.land s0 7) 18)%Z).
  { apply Z.shiftl_nonneg. rewrite land_7. apply Z.mod_pos_bound. lia. }
  assert (H1 : (0 <= Z.shiftl (Z.land s1 63) 12)%Z).
  { apply Z.shiftl_nonneg. apply land_63_range. }
  assert (H2 : (0 <= Z.shiftl (Z.land s2 63) 6)%Z).
  { apply Z.shiftl_nonneg. apply land_63_range. }
  apply lor_ge_128;
    [repeat (apply Z.lor_nonneg; split); assumption
    |apply land_63_range|left].
  apply lor_ge_128; [now apply Z.lor_nonneg|assumption|left].
  apply lor_ge_128; [assumption|assumption|].
  destruct H as [H|[-> H]].
  - left. rewrite land_7.
    pose proof (shiftl_nonneg_ge (s0 mod 8) 1 18) as Hs.
    assert (1 <= s0 mod 8)%Z
      by (Z.to_euclidean_division_equations; lia).
    change (1 * 2 ^ 18)%Z with 262144%Z in Hs. lia.
  - right. rewrite land_63.
    pose proof (shiftl_nonneg_ge (s1 mod 64) 16 12) as Hs.
    assert (16 <= s1 mod 64)%Z
      by (Z.to_euclidean_division_equations; lia).
    change (16 * 2 ^ 12)%Z with 65536%Z in Hs. lia.
Qed.

(** The tests of [DecodeRuneInString] on a known entry of [first]. *)
Ltac first_known :=
  repeat match goal with
         | |- context [Z.leb 240 ?v] =>
           let r := eval vm_compute in (Z.leb 240 v) in
           change (Z.leb 240 v) with r
         | |- context [Z.testbit ?v 0] =>
           let r := eval vm_compute in (Z.testbit v 0) in
           change (Z.testbit v 0) with r
         | |- context [Z.to_nat (Z.land ?v 7)] =>
           let r := eval vm_compute in (Z.to_nat (Z.land v 7)) in
           change (Z.to_nat (Z.land v 7)) with r
         | |- context [utf8.acceptRanges (Z.shiftr ?v 4)] =>
           let r := eval vm_compute in (utf8.acceptRanges (Z.shiftr v 4)) in
           change (utf8.acceptRanges (Z.shiftr v 4)) with r
         end;
  cbn [fst snd Nat.leb Nat.ltb length].

(** A byte at or above [RuneSelf] starts a rune at or above it, the error
    rune included. *)
Lemma DecodeRuneInString_high (c : ascii) (t : bytes) :
  (128 <= byteZ c)%Z ->
  (128 <= fst (utf8.DecodeRuneInString (c :: t)))%Z.
Proof.
  intros H. pose proof (byteZ_range c) as Hc.
  unfold utf8.DecodeRuneInString, utf8.RuneError, utf8.locb, utf8.hicb.
  destruct (first_cases _ Hc)
    as [[? E]|[[? E]|[[? E]|[[? E]|[[? E]|[[? E]|[[? E]|[[? E]|[? E]]]]]]]]];
    rewrite E; try lia; first_known; cbv beta iota zeta;
    try (cbn [fst]; lia);
    destruct t as [|c1 [|c2 [|c3 t]]];
    cbn [fst snd Nat.leb Nat.ltb length]; cbv beta iota zeta;
    try (cbn [fst]; lia);
    try pose proof (byteZ_range c1);
    break_ifs; cbn [fst]; try lia;
    repeat match goal with
           | H : (_ || _)%bool = false |- _ =>
             apply orb_false_iff in H as [? ?]
           | H : (_ <? _)%Z = false |- _ => apply Z.ltb_ge in H
           end;
    match goal with
    | |- (128 <= Z.lor (Z.lor (Z.lor _ _) _) _)%Z => apply rune4_high; lia
    | |- (128 <= Z.lor (Z.lor _ _) _)%Z => apply rune3_high; lia
    | |- (128 <= Z.lor _ _)%Z => apply rune2_high; lia
    end.
Qed.

(** ** [mime.needsEncoding], byte by byte *)

Lemma plain_byte_ascii (c : ascii) :
  plain_byte c = true -> (byteZ c < 128)%Z.
Proof.
  unfold plain_byte. intros H.
  apply orb_true_iff in H as [H|H].
  - apply andb_true_iff in H as [_ H]. apply Z.leb_le in H. lia.
  - apply Z.eqb_eq in H. lia.
Qed.

Lemma needsEncoding_test (c : ascii) :
  let b := byteZ c in
  (((b <? 32) || (126 <? b)) && negb (b =? 9))%Z = negb (plain_byte c).
Proof.
  unfold plain_byte. cbv zeta.
  destruct (Z.ltb_spec (byteZ c) 32), (Z.ltb_spec 126 (byteZ c)),
    (Z.eqb_spec (byteZ c) 9), (Z.leb_spec 32 (byteZ c)),
    (Z.leb_spec (byteZ c) 126); simpl; try reflexivity; lia.
Qed.

Lemma needsEncoding_loop_plain :
  forall fuel s,
    length s <= fuel ->
    mime.needsEncoding_loop fuel s = negb (forallb plain_byte s).
Proof.
  induction fuel as [|fuel IH]; intros s Hs.
  - destruct s; [reflexivity|simpl in Hs; lia].
  - destruct s as [|c t]; [reflexivity|].
    cbn [mime.needsEncoding_loop forallb].
    destruct (Z.lt_ge_cases (byteZ c) 128) as [Hc|Hc].
    + rewrite (DecodeRuneInString_ascii c t Hc).
      rewrite needsEncoding_test.
      destruct (plain_byte c); [|reflexivity].
      cbn [negb andb]. apply IH. simpl in Hs. unfold slice_from. simpl. lia.
    + pose proof (DecodeRuneInString_high c t Hc) as Hr.
      destruct (utf8.DecodeRuneInString (c :: t)) as [b size].
      cbn [fst] in Hr.
      replace (plain_byte c) with false; cycle 1.
      { unfold plain_byte.
        destruct (Z.leb_spec (byteZ c) 126), (Z.eqb_spec (byteZ c) 9);
          lia. }
      destruct (Z.ltb_spec b 32), (Z.ltb_spec 126 b), (Z.eqb_spec b 9);
        simpl; try reflexivity; lia.
Qed.

(** [needsEncoding] holds when some byte is not a printable ASCII
    character or a tab. *)
Lemma needsEncoding_plain (s : bytes) :
  mime.needsEncoding s = negb (forallb plain_byte s).
Proof. apply needsEncoding_loop_plain. lia. Qed.

Lemma Encode_plain (charset s : bytes) :
  forallb plain_byte s = true -> mime.Encode charset s = s.
Proof.
  intros H. unfold mime.Encode. now rewrite needsEncoding_plain, H.
Qed.

Lemma Encode_not_plain (charset s : bytes) :
  forallb plain_byte s = false ->
  mime.Encode charset s = mime.encodeWord charset s.
Proof.
  intros H. unfold mime.Encode. now rewrite needsEncoding_plain, H.
Qed.

Lemma plain_no_break (s : bytes) : forallb plain_byte s = true -> no_break s.
Proof.
  intros H. apply Forall_forall. intros c Hc ->.
  rewrite forallb_forall in H. specialize (H _ Hc). discriminate.
Qed.

(** ** [base64.Encode] *)


(** ** Bits of a base64 quantum *)

Section Quantum.

Local Open Scope Z_scope.

Lemma testbit_small (i w m : Z) :
  0 <= i < 2 ^ w -> w <= m -> Z.testbit i m = false.
Proof.
  intros [Hi Hw] Hm.
  destruct (Z.eq_dec i 0) as [->|Hn]; [apply Z.testbit_0_l|].
  apply Z.bits_above_log2; [assumption|].
  assert (Z.log2 i < w); [|lia].
  apply Z.log2_lt_pow2; lia.
Qed.

(** The six bits of [x] from bit [k] on, in place. *)
Lemma testbit_sextet (x k m : Z) :
  0 <= k -> 0 <= m ->
  Z.testbit (Z.shiftl (Z.land (Z.shiftr x k) 63) k) m =
  (k <=? m) && (m <? k + 6) && Z.testbit x m.
Proof.
  intros Hk Hm. rewrite Z.shiftl_spec by assumption.
  destruct (Z.leb_spec k m) as [H|H].
  - rewrite Z.land_spec, Z.shiftr_spec by lia.
    replace (m - k + k) with m by lia.
    change 63 with (Z.ones 6). rewrite Z.testbit_ones_nonneg by lia.
    destruct (Z.ltb_spec (m - k) 6), (Z.ltb_spec m (k + 6)); try lia;
      simpl; now rewrite ?andb_true_r, ?andb_false_r.
  - now rewrite Z.testbit_neg_r by lia.
Qed.

Variables a b c : Z.
Hypothesis Ha : 0 <= a < 256.
Hypothesis Hb : 0 <= b < 256.
Hypothesis Hc : 0 <= c < 256.

Let val := Z.lor (Z.lor (Z.shiftl a 16) (Z.shiftl b 8)) c.

Lemma testbit_val (m : Z) :
  0 <= m ->
  Z.testbit val m =
  if m <? 8 then Z.testbit c m
  else if m <? 16 then Z.testbit b (m - 8)
  else Z.testbit a (m - 16).
Proof using Ha Hb Hc.
  intros Hm. unfold val.
  rewrite !Z.lor_spec, !Z.shiftl_spec by assumption.
  destruct (Z.ltb_spec m 8); [|destruct (Z.ltb_spec m 16)].
  - now rewrite !Z.testbit_neg_r by lia.
  - rewrite (Z.testbit_neg_r a) by lia.
    rewrite (testbit_small c 8 m) by (change (2 ^ 8) with 256; lia).
    now rewrite orb_false_r.
  - rewrite (testbit_small c 8 m) by (change (2 ^ 8) with 256; lia).
    rewrite (testbit_small b 8 (m - 8)) by (change (2 ^ 8) with 256; lia).
    now rewrite !orb_false_r.
Qed.

Lemma testbit_val_high (m : Z) : 24 <= m -> Z.testbit val m = false.
Proof using Ha Hb Hc.
  intros Hm. rewrite testbit_val by lia.
  destruct (Z.ltb_spec m 8); [lia|]. destruct (Z.ltb_spec m 16); [lia|].
  apply (testbit_small a 8); [change (2 ^ 8) with 256|]; lia.
Qed.

(** The four sextets of a quantum, put together again as the decoder
    does, are the quantum. *)
Lemma regroup :
  Z.lor (Z.lor (Z.lor (Z.shiftl (Z.land (Z.shiftr val 18) 63) 18)
                      (Z.shiftl (Z.land (Z.shiftr val 12) 63) 12))
               (Z.shiftl (Z.land (Z.shiftr val 6) 63) 6))
        (Z.land val 63) = val.
Proof using Ha Hb Hc.
  apply Z.bits_inj'. intros m Hm.
  rewrite !Z.lor_spec, !testbit_sextet by lia.
  rewrite Z.land_spec. change 63 with (Z.ones 6).
  rewrite Z.testbit_ones_nonneg by lia.
  destruct (Z.lt_ge_cases m 24) as [H|H].
  - destruct (Z.testbit val m); rewrite ?andb_false_r; [|reflexivity].
    rewrite !andb_true_r. cbn [andb].
    destruct (Z.leb_spec 18 m), (Z.leb_spec 12 m), (Z.leb_spec 6 m),
      (Z.ltb_spec m (18 + 6)), (Z.ltb_spec m (12 + 6)),
      (Z.ltb_spec m (6 + 6)), (Z.ltb_spec m 6); try lia; reflexivity.
  - rewrite testbit_val_high by assumption.
    now rewrite !andb_false_r.
Qed.

Lemma extract_byte (k x : Z) :
  0 <= k -> 0 <= x < 256 ->
  (forall m, 0 <= m < 8 -> Z.testbit val (m + k) = Z.testbit x m) ->
  Z.land (Z.shiftr val k) 255 = x.
Proof using Ha Hb Hc.
  intros Hk Hx H. apply Z.bits_inj'. intros m Hm.
  rewrite Z.land_spec, Z.shiftr_spec by assumption.
  change 255 with (Z.ones 8). rewrite Z.testbit_ones_nonneg by lia.
  destruct (Z.ltb_spec m 8).
  - rewrite andb_true_r. apply H. lia.
  - rewrite andb_false_r. symmetry.
    apply (testbit_small x 8); [change (2 ^ 8) with 256|]; lia.
Qed.

Lemma extract_a : Z.land (Z.shiftr val 16) 255 = a.
Proof using Ha Hb Hc.
  apply extract_byte; [lia|assumption|]. intros m Hm.
  rewrite testbit_val by lia.
  destruct (Z.ltb_spec (m + 16) 8); [lia|].
  destruct (Z.ltb_spec (m + 16) 16); [lia|]. f_equal. lia.
Qed.

Lemma extract_b : Z.land (Z.shiftr val 8) 255 = b.
Proof using Ha Hb Hc.
  apply extract_byte; [lia|assumption|]. intros m Hm.
  rewrite testbit_val by lia.
  destruct (Z.ltb_spec (m + 8) 8); [lia|].
  destruct (Z.ltb_spec (m + 8) 16); [|lia]. f_equal. lia.
Qed.

Lemma extract_c : Z.land (Z.shiftr val 0) 255 = c.
Proof using Ha Hb Hc.
  apply extract_byte; [lia|assumption|]. intros m Hm.
  rewrite testbit_val by lia.
  destruct (Z.ltb_spec (m + 0) 8); [|lia]. f_equal. lia.
Qed.

Lemma low_sextet_0 : c = 0 -> Z.land val 63 = 0.
Proof using Ha Hb Hc.
  intros Hc0. apply Z.bits_inj'. intros m Hm.
  rewrite Z.land_spec, Z.bits_0. change 63 with (Z.ones 6).
  rewrite Z.testbit_ones_nonneg by lia.
  destruct (Z.ltb_spec m 6); [|apply andb_false_r].
  rewrite testbit_val by lia. destruct (Z.ltb_spec m 8); [|lia].
  now rewrite Hc0, Z.bits_0.
Qed.

Lemma second_sextet_0 : b = 0 -> c = 0 -> Z.land (Z.shiftr val 6) 63 = 0.
Proof using Ha Hb Hc.
  intros Hb0 Hc0. apply Z.bits_inj'. intros m Hm.
  rewrite Z.land_spec, Z.shiftr_spec, Z.bits_0 by lia.
  change 63 with (Z.ones 6).
  rewrite Z.testbit_ones_nonneg by lia.
  destruct (Z.ltb_spec m 6); [|apply andb_false_r].
  rewrite testbit_val by lia.
  destruct (Z.ltb_spec (m + 6) 8); [now rewrite Hc0, Z.bits_0|].
  destruct (Z.ltb_spec (m + 6) 16); [|lia].
  now rewrite Hb0, Z.bits_0.
Qed.

End Quantum.

(** ** [base64.Encode] and [base64.DecodeString] *)

Lemma bytes_ind3 (P : bytes -> Prop) :
  P [] -> (forall a, P [a]) -> (forall a b, P [a; b]) ->
  (forall a b c r, P r -> P (a :: b :: c :: r)) ->
  forall l, P l.
Proof.
  intros H0 H1 H2 H3. fix IH 1. intros [|a [|b [|c r]]].
  - exact H0.
  - apply H1.
  - apply H2.
  - apply H3, IH.
Qed.

Lemma encode_props (i : Z) :
  (0 <= i < 64)%Z ->
  base64.decodeMap (base64.encode i) = i /\
  is_alphabet (base64.encode i) = true.
Proof.
  intros Hi. rewrite <- (Z2Nat.id i) by lia.
  assert (Hn : Z.to_nat i < 64) by lia.
  generalize dependent (Z.to_nat i). clear. intros n Hn.
  do 64 (destruct n as [|n]; [split; reflexivity|]). lia.
Qed.

Lemma alphabet_chars (c : ascii) :
  is_alphabet c = true ->
  c <> "?"%char /\ c <> "="%char /\ c <> LF /\ c <> CR /\ c <> SP /\
  base64.decodeMap c <> 255%Z.
Proof.
  intros H. unfold is_alphabet in H. apply existsb_exists in H.
  destruct H as [x [Hx Hc]]. apply Ascii.eqb_eq in Hc. subst x.
  unfold base64.encodeStd, lit in Hx. cbn [list_ascii_of_string] in Hx.
  repeat (destruct Hx as [<-|Hx];
          [repeat split; try discriminate; vm_compute; discriminate|]).
  contradiction.
Qed.

Lemma sextet_range (v : Z) : (0 <= Z.land v 63 < 64)%Z.
Proof. apply land_63_range. Qed.

Lemma Zbyte_land (v : Z) (a : ascii) : Z.land v 255 = byteZ a -> Zbyte v = a.
Proof.
  intros H. unfold Zbyte. rewrite H. unfold byteZ.
  rewrite N2Z.id. apply ascii_N_embedding.
Qed.

Lemma encode_alphabet (v : Z) :
  is_alphabet (base64.encode (Z.land v 63)) = true.
Proof. apply (encode_props _ (sextet_range v)). Qed.

(** Every byte of an encoding is of the alphabet or the padding. *)
Lemma Encode_b64 (s : bytes) :
  Forall (fun c => is_alphabet c = true \/ c = base64.padChar)
         (base64.Encode s).
Proof.
  induction s as [|a|a b|a b c r IH] using bytes_ind3;
    cbn [base64.Encode].
  - constructor.
  - constructor; [left; apply encode_alphabet|].
    constructor; [left; apply encode_alphabet|].
    constructor; [right; exact eq_refl|].
    constructor; [right; exact eq_refl|constructor].
  - constructor; [left; apply encode_alphabet|].
    constructor; [left; apply encode_alphabet|].
    constructor; [left; apply encode_alphabet|].
    constructor; [right; exact eq_refl|constructor].
  - constructor; [left; apply encode_alphabet|].
    constructor; [left; apply encode_alphabet|].
    constructor; [left; apply encode_alphabet|].
    constructor; [left; apply encode_alphabet|exact IH].
Qed.

Lemma Encode_head (a : ascii) (t : bytes) :
  exists h rest,
    base64.Encode (a :: t) = h :: rest /\ is_alphabet h = true.
Proof.
  destruct t as [|b [|c r]]; cbn [base64.Encode];
    eexists; eexists; (split; [reflexivity|]);
    apply encode_alphabet.
Qed.

Lemma length_Encode (s : bytes) :
  length (base64.Encode s) = base64.EncodedLen (length s).
Proof.
  unfold base64.EncodedLen.
  induction s as [|a|a b|a b c r IH] using bytes_ind3;
    cbn [base64.Encode length]; try reflexivity.
  rewrite IH.
  replace (S (S (S (length r))) + 2) with ((length r + 2) + 1 * 3) by lia.
  rewrite Nat.div_add by lia. lia.
Qed.

Lemma decodeQuantum_sextet (i : Z) (src : bytes) (j : nat) (dbuf : list Z) :
  (0 <= i < 64)%Z -> j < 4 ->
  base64.decodeQuantum (base64.encode i :: src) j dbuf =
  base64.decodeQuantum src (S j) (dbuf ++ [i]).
Proof.
  intros Hi Hj. cbn [base64.decodeQuantum].
  replace (Nat.leb 4 j) with false by (symmetry; apply Nat.leb_gt; lia).
  destruct (encode_props i Hi) as [-> _].
  replace (i =? 255)%Z with false by (symmetry; apply Z.eqb_neq; lia).
  reflexivity.
Qed.

Lemma decodeQuantum_done (src : bytes) (dbuf : list Z) :
  base64.decodeQuantum src 4 dbuf = Some (base64.assemble dbuf 4, src).
Proof. destruct src; reflexivity. Qed.

Lemma byteZ_0 : forall z : Z, z = 0%Z -> (0 <= z < 256)%Z.
Proof. intros z ->. lia. Qed.

Lemma decodeQuantum_three (a b c : ascii) (rest : bytes) :
  base64.decodeQuantum (base64.Encode (a :: b :: c :: rest)) 0 [] =
  Some ([a; b; c], base64.Encode rest).
Proof.
  cbn [base64.Encode].
  rewrite !decodeQuantum_sextet by (try apply sextet_range; lia).
  rewrite decodeQuantum_done. cbn [app]. f_equal. f_equal.
  unfold base64.assemble. cbn [nth Nat.sub firstn].
  pose proof (byteZ_range a) as Ha. pose proof (byteZ_range b) as Hb.
  pose proof (byteZ_range c) as Hc.
  rewrite (regroup _ _ _ Ha Hb Hc).
  rewrite (Zbyte_land _ a (extract_a _ _ _ Ha Hb Hc)).
  rewrite (Zbyte_land _ b (extract_b _ _ _ Ha Hb Hc)).
  rewrite (Zbyte_land _ c (extract_c _ _ _ Ha Hb Hc)).
  reflexivity.
Qed.

Lemma decodeQuantum_two (a b : ascii) :
  base64.decodeQuantum (base64.Encode [a; b]) 0 [] = Some ([a; b], []).
Proof.
  cbn [base64.Encode].
  rewrite !decodeQuantum_sextet by (try apply sextet_range; lia).
  cbn [app].
  pose proof (byteZ_range a) as Ha. pose proof (byteZ_range b) as Hb.
  assert (Hc : (0 <= 0 < 256)%Z) by lia.
  rewrite <- (Z.lor_0_r (Z.lor (Z.shiftl (byteZ a) 16)
                               (Z.shiftl (byteZ b) 8))).
  set (val := Z.lor (Z.lor (Z.shiftl (byteZ a) 16) (Z.shiftl (byteZ b) 8)) 0).
  transitivity (Some (base64.assemble
    [Z.land (Z.shiftr val 18) 63; Z.land (Z.shiftr val 12) 63;
     Z.land (Z.shiftr val 6) 63] 3, @nil ascii)); [reflexivity|].
  f_equal. f_equal. unfold base64.assemble. cbn [nth Nat.sub firstn].
  assert (E : Z.lor (Z.lor (Z.lor
                (Z.shiftl (Z.land (Z.shiftr val 18) 63) 18)
                (Z.shiftl (Z.land (Z.shiftr val 12) 63) 12))
                (Z.shiftl (Z.land (Z.shiftr val 6) 63) 6)) 0 = val).
  { rewrite <- (low_sextet_0 (byteZ a) (byteZ b) 0 Ha Hb Hc eq_refl) at 1.
    apply (regroup _ _ _ Ha Hb Hc). }
  rewrite !E. subst val.
  rewrite (Zbyte_land _ a (extract_a _ _ _ Ha Hb Hc)).
  rewrite (Zbyte_land _ b (extract_b _ _ _ Ha Hb Hc)).
  reflexivity.
Qed.

Lemma decodeQuantum_one (a : ascii) :
  base64.decodeQuantum (base64.Encode [a]) 0 [] = Some ([a], []).
Proof.
  cbn [base64.Encode].
  rewrite !decodeQuantum_sextet by (try apply sextet_range; lia).
  cbn [app].
  pose proof (byteZ_range a) as Ha.
  assert (H0 : (0 <= 0 < 256)%Z) by lia.
  replace (Z.shiftl (byteZ a) 16)
    with (Z.lor (Z.lor (Z.shiftl (byteZ a) 16) (Z.shiftl 0 8)) 0)
    by (now rewrite Z.shiftl_0_l, !Z.lor_0_r).
  set (val := Z.lor (Z.lor (Z.shiftl (byteZ a) 16) (Z.shiftl 0 8)) 0).
  transitivity (Some (base64.assemble
    [Z.land (Z.shiftr val 18) 63; Z.land (Z.shiftr val 12) 63] 2,
    @nil ascii)); [reflexivity|].
  f_equal. f_equal. unfold base64.assemble. cbn [nth Nat.sub firstn].
  assert (E : Z.lor (Z.lor (Z.lor
                (Z.shiftl (Z.land (Z.shiftr val 18) 63) 18)
                (Z.shiftl (Z.land (Z.shiftr val 12) 63) 12))
                (Z.shiftl 0 6)) 0 = val).
  { rewrite <- (low_sextet_0 (byteZ a) 0 0 Ha H0 H0 eq_refl) at 2.
    rewrite <- (second_sextet_0 (byteZ a) 0 0 Ha H0 H0 eq_refl eq_refl)
      at 1.
    apply (regroup _ _ _ Ha H0 H0). }
  rewrite !E. subst val.
  rewrite (Zbyte_land _ a (extract_a _ _ _ Ha H0 H0)).
  reflexivity.
Qed.

Lemma Decode_loop_Encode (s : bytes) :
  forall fuel,
    length (base64.Encode s) <= fuel ->
    base64.Decode_loop fuel (base64.Encode s) = Some s.
Proof.
  induction s as [|a|a b|a b c r IH] using bytes_ind3; intros fuel Hf.
  - destruct fuel; reflexivity.
  - destruct fuel as [|fuel]; [simpl in Hf; lia|].
    pose proof (decodeQuantum_one a) as H.
    cbn [base64.Encode] in *. cbn [base64.Decode_loop]. rewrite H.
    destruct fuel; reflexivity.
  - destruct fuel as [|fuel]; [simpl in Hf; lia|].
    pose proof (decodeQuantum_two a b) as H.
    cbn [base64.Encode] in *. cbn [base64.Decode_loop]. rewrite H.
    destruct fuel; reflexivity.
  - destruct fuel as [|fuel]; [simpl in Hf; lia|].
    pose proof (decodeQuantum_three a b c r) as H.
    cbn [base64.Encode] in Hf, H |- *. cbn [base64.Decode_loop]. rewrite H.
    rewrite IH; [reflexivity|]. cbn [length] in Hf. lia.
Qed.

(** Decoding an encoding gives the bytes back. *)
Lemma DecodeString_Encode (s : bytes) :
  base64.DecodeString (base64.Encode s) = Some s.
Proof. apply Decode_loop_Encode. lia. Qed.

(** ** The words that [mime.encodeWord] writes *)

Lemma join_words_tail (cs : list bytes) :
  cs <> [] -> join_words [SP] cs = word_open ++ tail_words cs.
Proof.
  induction cs as [|c cs IH]; [contradiction|]. intros _.
  destruct cs as [|c' cs]; [reflexivity|].
  change (join_words [SP] (c :: c' :: cs))
    with (word c ++ [SP] ++ join_words [SP] (c' :: cs)).
  change (tail_words (c :: c' :: cs))
    with (base64.Encode c ++ lit "?=" ++ [SP] ++ word_open
          ++ tail_words (c' :: cs)).
  rewrite IH by discriminate. unfold word.
  now rewrite <- !app_assoc.
Qed.

Lemma bEncode_loop_eq (fuel : nat) (buf charset s : bytes)
    (i last currentLen : nat) :
  mime.bEncode_loop fuel buf charset s i last currentLen =
  if negb (i <? length s) then mime.write_close buf (slice_from s last)
  else
    match fuel with
    | O => mime.write_close buf (slice_from s last)
    | S fuel' =>
      let runeLen := snd (utf8.DecodeRuneInString (slice_from s i)) in
      if currentLen + runeLen <=? mime.maxBase64Len then
        mime.bEncode_loop fuel' buf charset s (i + runeLen) last
                          (currentLen + runeLen)
      else
        mime.bEncode_loop fuel'
          (mime.splitWord (mime.write_close buf (slice s last i)) charset)
          charset s (i + runeLen) i runeLen
    end.
Proof. destruct fuel; reflexivity. Qed.

Lemma slice_skipn (s : bytes) (last i : nat) :
  last <= i -> slice s last i ++ skipn i s = skipn last s.
Proof.
  intros H. unfold slice.
  replace (skipn i s) with (skipn (i - last) (skipn last s)).
  - apply firstn_skipn.
  - rewrite skipn_skipn. f_equal. lia.
Qed.

Lemma bEncode_loop_words :
  forall fuel buf s i last cur,
    length s - i <= fuel ->
    last <= i -> i <= length s -> cur = i - last -> cur <= 45 ->
    last < length s ->
    exists cs,
      cs <> [] /\ concat cs = skipn last s /\ Forall chunk_ok cs /\
      mime.bEncode_loop fuel buf (lit "UTF-8") s i last cur ++ lit "?=" =
      buf ++ tail_words cs.
Proof.
  induction fuel as [|fuel IH]; intros buf s i last cur Hf Hli Hi Hc H45 Hl;
    rewrite bEncode_loop_eq.
  - assert (i = length s) by lia. subst i.
    rewrite Nat.ltb_irrefl. cbn [negb].
    exists [skipn last s]. split; [|split; [|split]].
    + discriminate.
    + simpl. apply app_nil_r.
    + constructor; [|constructor]. unfold chunk_ok.
      rewrite length_skipn. lia.
    + unfold mime.write_close, slice_from. simpl.
      now rewrite <- app_assoc.
  - destruct (Nat.ltb_spec i (length s)) as [Hlt|Hge]; cbn [negb].
    2:{ assert (i = length s) by lia. subst i.
        exists [skipn last s]. split; [|split; [|split]].
        + discriminate.
        + simpl. apply app_nil_r.
        + constructor; [|constructor]. unfold chunk_ok.
      rewrite length_skipn. lia.
        + unfold mime.write_close, slice_from. simpl.
          now rewrite <- app_assoc. }
    cbv zeta. unfold slice_from.
    destruct (skipn i s) as [|c t] eqn:Es.
    { apply (f_equal (@length ascii)) in Es.
      rewrite length_skipn in Es. simpl in Es. lia. }
    pose proof (DecodeRuneInString_width c t) as [[Hw1 Hw4] Hwl].
    cbv zeta in Hw1, Hw4, Hwl.
    set (runeLen := snd (utf8.DecodeRuneInString (c :: t))) in *.
    assert (Hlen : length (c :: t) = length s - i)
      by (rewrite <- Es; apply length_skipn).
    change mime.maxBase64Len with 45.
    destruct (Nat.leb_spec (cur + runeLen) 45) as [Hfit|Hsplit].
    + apply IH; lia.
    + destruct (IH (mime.splitWord
                      (mime.write_close buf (slice s last i)) (lit "UTF-8"))
                   s (i + runeLen) i runeLen)
        as [cs [Hne [Hcat [Hok Heq]]]]; try lia.
      exists (slice s last i :: cs). split; [|split; [|split]].
      * discriminate.
      * simpl. rewrite Hcat. now apply slice_skipn.
      * constructor; [|exact Hok]. unfold chunk_ok, slice.
        rewrite length_firstn, length_skipn. lia.
      * rewrite Heq. destruct cs as [|c' cs]; [contradiction|].
        change (tail_words (slice s last i :: c' :: cs))
          with (base64.Encode (slice s last i) ++ lit "?=" ++ [SP]
                ++ word_open ++ tail_words (c' :: cs)).
        unfold mime.splitWord, mime.openWord, mime.closeWord,
          mime.write_close.
        rewrite <- !app_assoc. reflexivity.
Qed.

Lemma short_length (n : nat) :
  base64.EncodedLen n <= mime.maxContentLen -> n <= 45.
Proof.
  unfold base64.EncodedLen. change mime.maxContentLen with 63. intros H.
  destruct (le_gt_dec n 45) as [Hle|Hgt]; [exact Hle|exfalso].
  assert (16 <= (n + 2) / 3).
  { change 16 with (48 / 3). apply Nat.Div0.div_le_mono. lia. }
  lia.
Qed.

(** The encoded form of a non-empty string: the words of its chunks, a
    space between two words. *)
Lemma encodeWord_words (s : bytes) :
  s <> [] ->
  exists cs,
    cs <> [] /\ concat cs = s /\ Forall chunk_ok cs /\
    mime.encodeWord (lit "UTF-8") s = join_words [SP] cs.
Proof.
  intros Hs. unfold mime.encodeWord, mime.bEncode, mime.closeWord.
  change (mime.isUTF8 (lit "UTF-8")) with true. cbn [negb orb].
  destruct (Nat.leb_spec (base64.EncodedLen (length s)) mime.maxContentLen)
    as [Hshort|Hlong].
  - exists [s]. split; [|split; [|split]].
    + discriminate.
    + simpl. apply app_nil_r.
    + constructor; [|constructor]. split.
      * destruct s; [contradiction|simpl; lia].
      * now apply short_length.
    + unfold mime.write_close, mime.openWord. simpl join_words.
      unfold word. now rewrite <- !app_assoc.
  - destruct (bEncode_loop_words (length s)
                (mime.openWord [] (lit "UTF-8")) s 0 0 0)
      as [cs [Hne [Hcat [Hok Heq]]]]; try lia.
    { destruct s; [contradiction|simpl; lia]. }
    exists cs. split; [|split; [|split]]; try assumption.
    rewrite Heq. now rewrite join_words_tail.
Qed.

(** ** The folded words *)

Lemma no_marker_app_l (x y : bytes) :
  Forall (fun c => c <> "?"%char) x -> no_marker y = true ->
  no_marker (x ++ y) = true.
Proof.
  intros Hx Hy. induction Hx as [|a x Ha Hx IH]; [exact Hy|].
  change ((a :: x) ++ y) with (a :: (x ++ y)).
  destruct (x ++ y) as [|b z] eqn:E; [reflexivity|].
  change (no_marker (a :: b :: z))
    with (negb (Ascii.eqb a "?"%char && Ascii.eqb b "="%char)
          && no_marker (b :: z)).
  rewrite IH. apply Ascii.eqb_neq in Ha. now rewrite Ha.
Qed.

Lemma b64_no_question (c : bytes) :
  Forall (fun x => x <> "?"%char) (base64.Encode c).
Proof.
  eapply Forall_impl; [|apply Encode_b64].
  intros x [H| ->]; [apply alphabet_chars in H; tauto|discriminate].
Qed.

Lemma b64_no_break (c : bytes) : no_break (base64.Encode c).
Proof.
  eapply Forall_impl; [|apply Encode_b64].
  intros x [H| ->]; [apply alphabet_chars in H; tauto|discriminate].
Qed.

Lemma chunk_nonempty (c : bytes) : chunk_ok c -> exists a t, c = a :: t.
Proof.
  unfold chunk_ok. destruct c as [|a t]; [simpl; lia|]. now exists a, t.
Qed.

(** No closing marker lies in an opened word before its own. *)
Lemma word_body_no_marker (pre c : bytes) :
  Forall (fun x => x <> "?"%char) pre -> chunk_ok c ->
  no_marker (pre ++ word_open ++ base64.Encode c) = true.
Proof.
  intros Hpre Hc. apply no_marker_app_l; [exact Hpre|].
  apply no_marker_app; [reflexivity| |].
  - apply no_marker_no_question, b64_no_question.
  - destruct (chunk_nonempty c Hc) as [a [t ->]].
    destruct (Encode_head a t) as [h [rest [-> Hh]]].
    apply alphabet_chars in Hh. tauto.
Qed.

Lemma Split_nil (sep : bytes) : sep <> [] -> strings.Split [] sep = [[]].
Proof. destruct sep; [contradiction|reflexivity]. Qed.

(** Splitting the words at the closing markers and putting the parts
    together again puts a line break after every word. *)
Lemma join_parts_Split_words :
  forall cs pre,
    cs <> [] -> Forall chunk_ok cs ->
    Forall (fun x => x <> "?"%char) pre ->
    let parts := strings.Split (pre ++ join_words [SP] cs) (lit "?=") in
    2 <= length parts /\
    join_parts parts = pre ++ join_words [LF; SP] cs ++ [LF].
Proof.
  induction cs as [|c cs IH]; [contradiction|].
  intros pre _ Hok Hpre. inversion Hok as [|? ? Hc Hcs]; subst.
  pose proof (word_body_no_marker pre c Hpre Hc) as Hm.
  destruct cs as [|c' cs].
  - cbv zeta. cbn [join_words]. unfold word.
    replace (pre ++ word_open ++ base64.Encode c ++ lit "?=")
      with ((pre ++ word_open ++ base64.Encode c) ++ lit "?=" ++ [])
      by now rewrite <- !app_assoc.
    rewrite (Split_marker_after _ _ Hm), Split_nil by discriminate.
    split; [simpl; lia|].
    cbn [join_parts]. now rewrite <- !app_assoc.
  - cbv zeta.
    assert (E : strings.Split (pre ++ join_words [SP] (c :: c' :: cs))
                              (lit "?=") =
                (pre ++ word_open ++ base64.Encode c) ::
                strings.Split ([SP] ++ join_words [SP] (c' :: cs))
                              (lit "?=")).
    { rewrite <- (Split_marker_after _ _ Hm). f_equal.
      change (join_words [SP] (c :: c' :: cs))
        with (word c ++ [SP] ++ join_words [SP] (c' :: cs)).
      unfold word. now rewrite <- !app_assoc. }
    rewrite E.
    change (join_words [LF; SP] (c :: c' :: cs))
      with (word c ++ [LF; SP] ++ join_words [LF; SP] (c' :: cs)).
    destruct (IH [SP] ltac:(discriminate) Hcs
                 ltac:(repeat constructor; discriminate)) as [Hlen Hjoin].
    cbv zeta in Hlen, Hjoin.
    destruct (strings.Split ([SP] ++ join_words [SP] (c' :: cs)) (lit "?="))
      as [|q parts] eqn:Eq; [simpl in Hlen; lia|].
    split; [simpl; lia|].
    change (join_parts ((pre ++ word_open ++ base64.Encode c) :: q :: parts))
      with ((pre ++ word_open ++ base64.Encode c) ++ lit "?=" ++ [LF]
            ++ join_parts (q :: parts)).
    rewrite Hjoin. unfold word. now rewrite <- !app_assoc.
Qed.

Lemma fold_reference_words (cs : list bytes) :
  cs <> [] -> Forall chunk_ok cs ->
  fold_reference (join_words [SP] cs) = join_words [LF; SP] cs.
Proof.
  intros Hne Hok. rewrite fold_reference_join.
  destruct (join_parts_Split_words cs [] Hne Hok ltac:(constructor))
    as [Hlen Hjoin].
  cbv zeta in Hlen, Hjoin. cbn [app] in Hlen, Hjoin.
  destruct (strings.Split (join_words [SP] cs) (lit "?="))
    as [|p [|q parts]]; try (simpl in Hlen; lia).
  rewrite Hjoin. apply strip_one_fold_app.
Qed.

Lemma not_plain_nonempty (s : bytes) :
  forallb plain_byte s = false -> s <> [].
Proof. now destruct s. Qed.

(** The subject of a string with a byte to encode: the words of its
    chunks, one a line, every line but the first beginning with a space. *)
Lemma encodeMIMESubject_words (s : bytes) :
  forallb plain_byte s = false ->
  exists cs,
    cs <> [] /\ concat cs = s /\ Forall chunk_ok cs /\
    encodeMIMESubject s = join_words [LF; SP] cs.
Proof.
  intros Hs. pose proof (not_plain_nonempty s Hs) as Hne.
  destruct (encodeWord_words s Hne) as [cs [Hcs [Hcat [Hok Heq]]]].
  exists cs. split; [|split; [|split]]; try assumption.
  rewrite encodeMIMESubject_fold by assumption.
  rewrite Encode_not_plain, Heq by assumption.
  now apply fold_reference_words.
Qed.

(** The subject of a string of printable ASCII and tabs. *)
Lemma encodeMIMESubject_plain (s : bytes) :
  s <> [] -> forallb plain_byte s = true ->
  encodeMIMESubject s = fold_reference s.
Proof.
  intros Hne Hs. rewrite encodeMIMESubject_fold by assumption.
  now rewrite Encode_plain.
Qed.

Lemma fold_reference_no_marker (s : bytes) :
  strings.Index s (lit "?=") = None -> fold_reference s = s.
Proof.
  intros H. unfold fold_reference.
  now rewrite Split_none by (try discriminate; exact H).
Qed.

Lemma join_words_shape (sep : bytes) (cs : list bytes) :
  cs <> [] ->
  exists body, join_words sep cs = word_open ++ body ++ lit "?=".
Proof.
  induction cs as [|c cs IH]; [contradiction|]. intros _.
  destruct cs as [|c' cs].
  - exists (base64.Encode c). reflexivity.
  - destruct (IH ltac:(discriminate)) as [body Hb].
    exists (base64.Encode c ++ lit "?=" ++ sep ++ word_open ++ body).
    change (join_words sep (c :: c' :: cs))
      with (word c ++ sep ++ join_words sep (c' :: cs)).
    rewrite Hb. unfold word. now rewrite <- !app_assoc.
Qed.

(** ** The lines of the folded words *)

Lemma HasPrefix_LF (s : bytes) :
  strings.HasPrefix s [LF] =
  match s with a :: _ => Ascii.eqb a LF | [] => false end.
Proof. destruct s; simpl; [reflexivity|apply andb_true_r]. Qed.

Lemma Index_LF_none (p : bytes) :
  no_break p -> strings.Index p [LF] = None.
Proof.
  induction 1 as [|a p Ha Hp IH]; [reflexivity|].
  rewrite Index_eq, HasPrefix_LF, IH.
  apply Ascii.eqb_neq in Ha. now rewrite Ha.
Qed.

Lemma Index_LF_first (p r : bytes) :
  no_break p -> strings.Index (p ++ [LF] ++ r) [LF] = Some (length p).
Proof.
  induction 1 as [|a p Ha Hp IH]; [reflexivity|].
  change ((a :: p) ++ [LF] ++ r) with (a :: (p ++ [LF] ++ r)).
  rewrite Index_eq, HasPrefix_LF, IH.
  apply Ascii.eqb_neq in Ha. now rewrite Ha.
Qed.

Lemma lines_single (p : bytes) : no_break p -> lines p = [p].
Proof.
  intros H. unfold lines. apply Split_none; [discriminate|].
  now apply Index_LF_none.
Qed.

Lemma lines_first (p r : bytes) :
  no_break p -> lines (p ++ [LF] ++ r) = p :: lines r.
Proof.
  intros H. unfold lines. apply Split_first; [discriminate|].
  now apply Index_LF_first.
Qed.

Lemma word_no_break (c : bytes) : no_break (word c).
Proof.
  unfold word. apply Forall_app; split; [|apply Forall_app; split].
  - repeat constructor; discriminate.
  - apply b64_no_break.
  - repeat constructor; discriminate.
Qed.

Lemma EncodedLen_chunk (n : nat) : n <= 45 -> base64.EncodedLen n <= 60.
Proof.
  intros H. unfold base64.EncodedLen.
  assert ((n + 2) / 3 <= 15); [|lia].
  change 15 with (47 / 3). apply Nat.Div0.div_le_mono. lia.
Qed.

Lemma length_word (c : bytes) : chunk_ok c -> length (word c) <= 72.
Proof.
  intros [_ H]. unfold word. rewrite !length_app, length_Encode.
  apply EncodedLen_chunk in H. simpl. lia.
Qed.

(** Every line of the folded words is a word, after at most a space. *)
Lemma lines_join_words :
  forall cs pre,
    cs <> [] -> Forall chunk_ok cs -> no_break pre -> length pre <= 1 ->
    Forall (fun l => length l <= 73) (lines (pre ++ join_words [LF; SP] cs)).
Proof.
  induction cs as [|c cs IH]; [contradiction|].
  intros pre _ Hok Hpre Hlen. inversion Hok as [|? ? Hc Hcs]; subst.
  assert (Hw : no_break (pre ++ word c))
    by (apply Forall_app; split; [exact Hpre|apply word_no_break]).
  assert (Hl : length (pre ++ word c) <= 73)
    by (rewrite length_app; pose proof (length_word c Hc); lia).
  destruct cs as [|c' cs].
  - cbn [join_words]. rewrite lines_single by exact Hw.
    constructor; [exact Hl|constructor].
  - change (join_words [LF; SP] (c :: c' :: cs))
      with (word c ++ [LF; SP] ++ join_words [LF; SP] (c' :: cs)).
    replace (pre ++ word c ++ [LF; SP] ++ join_words [LF; SP] (c' :: cs))
      with ((pre ++ word c) ++ [LF]
            ++ ([SP] ++ join_words [LF; SP] (c' :: cs)))
      by now rewrite <- !app_assoc.
    rewrite lines_first by exact Hw.
    constructor; [exact Hl|].
    apply IH; [discriminate|exact Hcs| |simpl; lia].
    repeat constructor; discriminate.
Qed.

(** ** [mime.DecodeHeader] on the folded words *)

Lemma DecodeHeader_loop_eq (fuel : nat) (buf header : bytes) (bw : bool) :
  mime.DecodeHeader_loop (S fuel) buf header bw =
  match strings.Index header (lit "=?") with
  | None => Some (buf ++ header)
  | Some start =>
    let cur := start + 2 in
    match strings.Index (slice_from header cur) (lit "?") with
    | None => Some (buf ++ header)
    | Some i =>
      let charset := slice header cur (cur + i) in
      let cur := cur + i + 1 in
      if length header <? cur + 4 then Some (buf ++ header)
      else
        let encoding := nth cur header "000"%char in
        let cur := cur + 1 in
        if negb (Ascii.eqb (nth cur header "000"%char) "?"%char)
        then Some (buf ++ header)
        else
          let cur := cur + 1 in
          match strings.Index (slice_from header cur) (lit "?=") with
          | None => Some (buf ++ header)
          | Some j =>
            let text := slice header cur (cur + j) in
            let end_ := cur + j + 2 in
            match mime.decode encoding text with
            | None =>
              mime.DecodeHeader_loop fuel
                (buf ++ slice_to header (start + 2))
                (slice_from header (start + 2)) false
            | Some content =>
              let buf' :=
                if (0 <? start) &&
                   (negb bw || mime.hasNonWhitespace (slice_to header start))
                then buf ++ slice_to header start else buf in
              match mime.convert buf' charset content with
              | None => None
              | Some buf'' =>
                mime.DecodeHeader_loop fuel buf'' (slice_from header end_)
                                       true
              end
            end
          end
    end
  end.
Proof. reflexivity. Qed.

(** One turn of the loop on a word that stands first in the header, or
    after the fold that follows a word. *)
Lemma DecodeHeader_loop_word (fuel : nat) (buf pre c rest : bytes)
    (bw : bool) :
  (pre = [] \/ (pre = [LF; SP] /\ bw = true)) ->
  mime.DecodeHeader_loop (S fuel) buf (pre ++ word c ++ rest) bw =
  mime.DecodeHeader_loop fuel (buf ++ c) rest true.
Proof.
  intros Hpre. rewrite DecodeHeader_loop_eq.
  pose proof (no_marker_no_question _ (b64_no_question c)) as Hm.
  pose proof (DecodeString_Encode c) as Hd.
  unfold word, word_open.
  set (x := base64.Encode c) in *.
  assert (Hx : strings.Index (x ++ lit "?=" ++ rest) (lit "?=")
               = Some (length x)) by now apply Index_marker_after.
  assert (Hf : firstn (length x) (x ++ lit "?=" ++ rest) = x).
  { rewrite firstn_app, firstn_all, Nat.sub_diag. simpl. apply app_nil_r. }
  assert (Hs : skipn (length x + 2) (x ++ lit "?=" ++ rest) = rest).
  { rewrite skipn_app, skipn_all2 by lia.
    replace (length x + 2 - length x) with 2 by lia. reflexivity. }
  rewrite <- !app_assoc.
  cbn [lit list_ascii_of_string app] in Hx, Hf, Hs.
  destruct Hpre as [->|[-> ->]];
    cbn [strings.Index strings.HasPrefix lit list_ascii_of_string app
         slice_from slice slice_to skipn firstn nth length Nat.add Nat.sub
         Nat.ltb Nat.leb Ascii.eqb Bool.eqb andb negb orb option_map
         mime.hasNonWhitespace existsb SP LF TAB CR];
    (replace (length (x ++ "?"%char :: "="%char :: rest) <=? 1) with false
      by (symmetry; apply Nat.leb_gt; rewrite length_app; simpl; lia));
    rewrite Hx, Nat.sub_0_r, Hf;
    change (mime.decode "b" x) with (base64.DecodeString x); rewrite Hd;
    change (mime.convert buf (lit "UTF-8") c) with (Some (buf ++ c));
    cbv iota; now rewrite Hs.
Qed.

Lemma DecodeHeader_loop_nil (fuel : nat) (buf : bytes) (bw : bool) :
  mime.DecodeHeader_loop fuel buf [] bw = Some (buf ++ []).
Proof. destruct fuel; reflexivity. Qed.

Lemma DecodeHeader_loop_words :
  forall cs fuel buf pre bw,
    cs <> [] ->
    (pre = [] \/ (pre = [LF; SP] /\ bw = true)) ->
    length cs <= fuel ->
    mime.DecodeHeader_loop fuel buf (pre ++ join_words [LF; SP] cs) bw =
    Some (buf ++ concat cs).
Proof.
  induction cs as [|c cs IH]; [contradiction|].
  intros fuel buf pre bw _ Hpre Hf.
  destruct fuel as [|fuel]; [simpl in Hf; lia|].
  destruct cs as [|c' cs].
  - cbn [join_words concat].
    rewrite <- (app_nil_r (word c)), (DecodeHeader_loop_word _ _ _ _ _ _ Hpre).
    rewrite DecodeHeader_loop_nil. now rewrite !app_nil_r.
  - change (join_words [LF; SP] (c :: c' :: cs))
      with (word c ++ [LF; SP] ++ join_words [LF; SP] (c' :: cs)).
    rewrite (DecodeHeader_loop_word _ _ _ _ _ _ Hpre).
    rewrite IH; [|discriminate|right; now split|simpl in *; lia].
    cbn [concat]. now rewrite <- app_assoc.
Qed.

Lemma length_join_words (sep : bytes) (cs : list bytes) :
  length cs <= length (join_words sep cs).
Proof.
  induction cs as [|c cs IH]; [simpl; lia|].
  destruct cs as [|c' cs].
  - cbn [join_words]. unfold word. rewrite !length_app. simpl. lia.
  - change (join_words sep (c :: c' :: cs))
      with (word c ++ sep ++ join_words sep (c' :: cs)).
    unfold word at 1. rewrite !length_app. simpl in *. lia.
Qed.

(** The decoder gives the chunks of the folded words back, joined. *)
Lemma DecodeHeader_words (cs : list bytes) :
  cs <> [] ->
  mime.DecodeHeader (join_words [LF; SP] cs) = Some (concat cs).
Proof.
  intros Hne. unfold mime.DecodeHeader.
  destruct (join_words_shape [LF; SP] cs Hne) as [body Hb].
  replace (strings.Index (join_words [LF; SP] cs) (lit "=?")) with (Some 0)
    by (rewrite Hb; reflexivity).
  unfold slice_to, slice_from. cbn [firstn skipn].
  apply (DecodeHeader_loop_words cs _ [] []);
    [assumption|now left|apply length_join_words].
Qed.

Lemma DecodeHeader_loop_no_marker :
  forall fuel buf header bw,
    strings.Index header (lit "?=") = None ->
    mime.DecodeHeader_loop fuel buf header bw = Some (buf ++ header).
Proof.
  intros [|fuel] buf header bw H; [reflexivity|].
  rewrite DecodeHeader_loop_eq.
  destruct (strings.Index header (lit "=?")) as [start|]; [|reflexivity].
  cbv zeta.
  destruct (strings.Index (slice_from header (start + 2)) (lit "?"))
    as [i|]; [|reflexivity].
  destruct (length header <? start + 2 + i + 1 + 4); [reflexivity|].
  destruct (negb (nth (start + 2 + i + 1 + 1) header "000" =? "?")%char);
    [reflexivity|].
  unfold slice_from at 1.
  now rewrite (Index_none_skipn header (lit "?=")) by (try discriminate; exact H).
Qed.

(** A text without a closing marker is decoded to itself. *)
Lemma DecodeHeader_no_marker (s : bytes) :
  strings.Index s (lit "?=") = None -> mime.DecodeHeader s = Some s.
Proof.
  intros H. unfold mime.DecodeHeader.
  destruct (strings.Index s (lit "=?")) as [i|]; [|reflexivity].
  rewrite DecodeHeader_loop_no_marker.
  - unfold slice_to, slice_from. now rewrite firstn_skipn.
  - unfold slice_from. apply Index_none_skipn; [discriminate|exact H].
Qed.

(** ** Runs of the submission path *)

Section RunFacts.

Variable W : Type.
Variable answer : forall X : Type, Event X -> W -> X * W.
Variable formatDuration : Z -> bytes.

Lemma run_bind (R S : Type) (p : Prog R) (f : R -> Prog S) :
  forall w,
    let o := run W answer p w in
    let o' := run W answer (f (result o)) (world o) in
    run W answer (bind p f) w =
    {| result := result o'; world := world o';
       trace := trace o ++ trace o';
       spawned := spawned o ++ spawned o' |}.
Proof.
  revert S f. induction p as [R r|R X e k IH|R body _ k IH];
    intros S f w; cbn [bind run].
  - cbv zeta. cbn [result world trace spawned app].
    now destruct (run W answer (f r) w).
  - destruct (answer X e w) as [x w']. cbv zeta in *.
    rewrite IH. reflexivity.
  - cbv zeta in *. rewrite IH. reflexivity.
Qed.

Lemma run_perform (X : Type) (e : Event X) (w : W) :
  run W answer (perform e) w =
  {| result := fst (answer X e w); world := snd (answer X e w);
     trace := [call e (fst (answer X e w))]; spawned := [] |}.
Proof. cbn [perform run]. now destruct (answer X e w). Qed.

(** Unfolds a run of [uploadMessage] one call after the other. *)
Ltac run_calls :=
  cbn [bind perform run result world trace spawned];
  repeat (match goal with
          | |- context [answer ?X ?e ?w] =>
            let x := fresh "x" in
            let w' := fresh "w" in
            destruct (answer X e w) as [x w'];
            match type of x with
            | unit => destruct x
            | _ => idtac
            end
          | |- context [match ?x with inl _ => _ | inr _ => _ end] =>
            destruct x
          | |- context [if ?b then _ else _] => destruct b eqn:?
          end;
          cbn [bind perform run result world trace spawned]).

Lemma uploadMessage_shape (q : QuickMail) (url message : bytes) (w : W) :
  upload_shape W formatDuration q url message
    (run W answer (uploadMessage formatDuration q url message) w).
Proof.
  unfold uploadMessage. run_calls.
  - apply shape_rejected. now apply Z.eqb_neq, negb_true_iff.
  - apply shape_ok. apply negb_false_iff in Heqb. now apply Z.eqb_eq.
  - apply shape_transport.
  - apply shape_request.
  - apply shape_proxy.
Qed.

End RunFacts.

(** ** [strings.TrimSpace] on white space *)

Lemma runes_loop_eq (fuel : nat) (c : ascii) (t : bytes) :
  runes_loop (S fuel) (c :: t) =
  fst (utf8.DecodeRuneInString (c :: t)) ::
  runes_loop fuel
    (slice_from (c :: t) (snd (utf8.DecodeRuneInString (c :: t)))).
Proof.
  cbn [runes_loop]. now destruct (utf8.DecodeRuneInString (c :: t)).
Qed.

Lemma runes_loop_fuel :
  forall f1 f2 s,
    length s <= f1 -> length s <= f2 -> runes_loop f1 s = runes_loop f2 s.
Proof.
  induction f1 as [|f1 IH]; intros f2 s H1 H2.
  - destruct s; [|simpl in H1; lia]. now destruct f2.
  - destruct s as [|c t]; [now destruct f2|].
    destruct f2 as [|f2]; [simpl in H2; lia|].
    rewrite !runes_loop_eq. f_equal.
    pose proof (DecodeRuneInString_width c t) as [[Hw _] _].
    cbv zeta in Hw.
    cbn [length] in H1, H2.
    apply IH; unfold slice_from; rewrite length_skipn; cbn [length]; lia.
Qed.

(** The runes of a string: the first, then those of what follows it. *)
Lemma runes_cons (c : ascii) (t : bytes) :
  runes (c :: t) =
  fst (utf8.DecodeRuneInString (c :: t)) ::
  runes (skipn (snd (utf8.DecodeRuneInString (c :: t))) (c :: t)).
Proof.
  unfold runes at 1. cbn [length]. rewrite runes_loop_eq. f_equal.
  pose proof (DecodeRuneInString_width c t) as [[Hw _] _].
  cbv zeta in Hw.
  apply runes_loop_fuel; unfold slice_from; rewrite length_skipn;
    cbn [length]; lia.
Qed.

Lemma runes_cons_ascii (c : ascii) (t : bytes) :
  (byteZ c < 128)%Z -> runes (c :: t) = byteZ c :: runes t.
Proof.
  intros H. rewrite runes_cons, (DecodeRuneInString_ascii c t H).
  reflexivity.
Qed.

Lemma IsSpace_ascii (c : ascii) :
  (byteZ c < 128)%Z -> unicode.IsSpace (byteZ c) = strings.asciiSpace c.
Proof.
  intros H. pose proof (byteZ_range c) as Hc.
  unfold unicode.IsSpace, strings.asciiSpace, unicode.MaxLatin1.
  destruct (Z.leb_spec 0 (byteZ c)); [|lia].
  destruct (Z.leb_spec (byteZ c) 255); [|lia]. cbn [andb].
  destruct (Z.eqb_spec (byteZ c) 133); [lia|].
  destruct (Z.eqb_spec (byteZ c) 160); [lia|].
  now rewrite !orb_false_r.
Qed.

Lemma only_whitespace_skip (c : ascii) (t : bytes) :
  only_whitespace (c :: t) ->
  unicode.IsSpace (fst (utf8.DecodeRuneInString (c :: t))) = true /\
  only_whitespace (skipn (snd (utf8.DecodeRuneInString (c :: t))) (c :: t)).
Proof.
  unfold only_whitespace. rewrite runes_cons. intros H.
  inversion H; subst. now split.
Qed.

Lemma TrimSpace_start_ws :
  forall s start,
    only_whitespace s ->
    strings.TrimSpace_start s start = inr (start + length s) \/
    exists k, strings.TrimSpace_start s start = inl (start + k) /\
              only_whitespace (skipn k s).
Proof.
  induction s as [|c t IH]; intros start Hs.
  - left. simpl. f_equal. lia.
  - cbn [strings.TrimSpace_start]. unfold utf8.RuneSelf.
    destruct (Z.leb_spec 128 (byteZ c)) as [Hhigh|Hlow].
    + right. exists 0. split; [f_equal; lia|exact Hs].
    + unfold only_whitespace in Hs.
      rewrite runes_cons_ascii in Hs by assumption.
      inversion Hs as [|? ? Hc Ht]; subst.
      rewrite IsSpace_ascii in Hc by assumption. rewrite Hc. cbn [negb].
      destruct (IH (S start) Ht) as [E|[k [E Hk]]].
      * left. rewrite E. f_equal. simpl. lia.
      * right. exists (S k). split; [rewrite E; f_equal; lia|exact Hk].
Qed.

Lemma indexFunc_loop_ws :
  forall fuel s i,
    length s - i <= fuel ->
    only_whitespace (skipn i s) ->
    strings.indexFunc_loop fuel s i unicode.IsSpace false = None.
Proof.
  induction fuel as [|fuel IH]; intros s i Hf Hs; [reflexivity|].
  cbn [strings.indexFunc_loop]. unfold slice_from.
  destruct (skipn i s) as [|c t] eqn:E; [reflexivity|].
  destruct (only_whitespace_skip c t Hs) as [Hr Hrest].
  pose proof (DecodeRuneInString_width c t) as [[Hw _] _].
  cbv zeta in Hw.
  destruct (utf8.DecodeRuneInString (c :: t)) as [r size].
  cbn [fst snd] in *. rewrite Hr. cbn [Bool.eqb].
  apply IH; [lia|].
  rewrite Nat.add_comm, <- skipn_skipn, E. exact Hrest.
Qed.

(** A string of white space only is trimmed to the empty string. *)
Lemma TrimSpace_ws (s : bytes) : only_whitespace s -> strings.TrimSpace s = [].
Proof.
  intros Hs. unfold strings.TrimSpace.
  destruct (TrimSpace_start_ws s 0 Hs) as [E|[k [E Hk]]]; rewrite E.
  - cbn [Nat.add].
    assert (Hstop : strings.TrimSpace_stop s (length s) (length s)
                    = inr (length s)).
    { destruct (length s) as [|n] eqn:El; [reflexivity|].
      cbn [strings.TrimSpace_stop]. now rewrite Nat.leb_refl. }
    rewrite Hstop. unfold slice. now rewrite Nat.sub_diag.
  - cbn [Nat.add]. unfold strings.TrimFunc, strings.TrimLeftFunc,
      strings.indexFunc, slice_from.
    rewrite indexFunc_loop_ws; [reflexivity|lia|exact Hk].
Qed.

(** ** The encoded string has no line break *)

Lemma join_words_no_break (sep : bytes) (cs : list bytes) :
  no_break sep -> no_break (join_words sep cs).
Proof.
  intros Hsep. induction cs as [|c cs IH]; [constructor|].
  destruct cs as [|c' cs]; [apply word_no_break|].
  change (join_words sep (c :: c' :: cs))
    with (word c ++ sep ++ join_words sep (c' :: cs)).
  apply Forall_app; split; [apply word_no_break|].
  apply Forall_app; split; assumption.
Qed.

Lemma Encode_no_break (s : bytes) : no_break (mime.Encode (lit "UTF-8") s).
Proof.
  destruct (forallb plain_byte s) eqn:Hp.
  - rewrite Encode_plain by assumption. now apply plain_no_break.
  - rewrite Encode_not_plain by assumption.
    destruct (encodeWord_words s (not_plain_nonempty s Hp))
      as [cs [_ [_ [_ ->]]]].
    apply join_words_no_break. repeat constructor; discriminate.
Qed.

(** ** Observations on the runs of the submission path *)

Lemma dialogs_app (t1 t2 : list Call) :
  dialogs (t1 ++ t2) = dialogs t1 ++ dialogs t2.
Proof.
  induction t1 as [|[X e x] t1 IH]; [reflexivity|].
  destruct e; cbn [app dialogs]; now rewrite IH.
Qed.

Lemma uploadMessage_no_dialog (W : Type)
    (answer : forall X : Type, Event X -> W -> X * W)
    (formatDuration : Z -> bytes) (q : QuickMail) (url message : bytes)
    (w : W) :
  let o := run W answer (uploadMessage formatDuration q url message) w in
  dialogs (trace o) = [] /\ spawned o = [].
Proof.
  cbv zeta.
  destruct (uploadMessage_shape W answer formatDuration q url message w);
    split; reflexivity.
Qed.

Lemma sendMail_passes (W : Type)
    (answer : forall X : Type, Event X -> W -> X * W)
    (formatDuration : Z -> bytes) (q : QuickMail) (cfg : Config) (w : W) :
  config q = Some cfg ->
  strings.TrimSpace (textArea_Text q) <> [] ->
  run W answer (sendMail formatDuration q) w =
  {| result := tt; world := w; trace := [];
     spawned := [sendMail_goroutine formatDuration q (serverURL cfg)
                                    (textArea_Text q)] |}.
Proof.
  intros Hc Ht. unfold sendMail. rewrite Hc.
  apply bytes_eqb_neq in Ht. unfold lit at 1. cbn [list_ascii_of_string].
  rewrite Ht. reflexivity.
Qed.

Lemma sendMail_goroutine_run (W : Type)
    (answer : forall X : Type, Event X -> W -> X * W)
    (formatDuration : Z -> bytes) (q : QuickMail) (url message : bytes)
    (w : W) :
  let u := run W answer (uploadMessage formatDuration q url message) w in
  let o := run W answer (sendMail_goroutine formatDuration q url message) w in
  spawned o = [] /\
  dialogs (trace o) =
  match result u with
  | Some e => [(lit "Error", lit "Send error: " ++ e)]
  | None => [(lit "Success", lit "Message sent successfully!")]
  end.
Proof.
  cbv zeta. unfold sendMail_goroutine. rewrite run_bind. cbv zeta.
  cbn [trace spawned]. rewrite dialogs_app.
  destruct (uploadMessage_no_dialog W answer formatDuration q url message w)
    as [-> ->].
  destruct (result (run W answer
                        (uploadMessage formatDuration q url message) w));
    unfold showError, showSuccess; rewrite run_perform; split; reflexivity.
Qed.

(** ** The claims *)

(** C1, as amended.  The encoder path is not unconditional: a non-empty
    string of printable ASCII characters and tabs is not encoded, it is
    folded as it is (and returned unchanged when it holds no ["?="]); a
    string with any other byte, an ASCII control character among them, is
    returned as encoded words, from ["=?UTF-8?b?"] with a lower-case [b]
    to ["?="]. *)
Theorem C1_encoded_only_when_needed (input : bytes) :
  input <> [] ->
  (forallb plain_byte input = true ->
   encodeMIMESubject input = fold_reference input /\
   (strings.Index input (lit "?=") = None ->
    encodeMIMESubject input = input)) /\
  (forallb plain_byte input = false ->
   exists body, encodeMIMESubject input =
                lit "=?UTF-8?b?" ++ body ++ lit "?=").
Proof.
  intros Hne. split.
  - intros Hp. pose proof (encodeMIMESubject_plain input Hne Hp) as E.
    split; [exact E|]. intros Hi. rewrite E.
    now apply fold_reference_no_marker.
  - intros Hp. destruct (encodeMIMESubject_words input Hp)
      as [cs [Hcs [_ [_ ->]]]].
    apply (join_words_shape [LF; SP] cs Hcs).
Qed.

Lemma C1_encoded_only_when_needed_witness :
  lit "hello" <> [] /\ encodeMIMESubject (lit "hello") = lit "hello".
Proof.
  split; [discriminate|].
  apply (proj1 (C1_encoded_only_when_needed (lit "hello")
                  ltac:(discriminate))); reflexivity.
Defined.

(** C1 as stated fails: the ASCII subject ["hello"] is returned as it is,
    not as an encoded word. *)
Lemma C1_ascii_subject_unchanged :
  lit "hello" <> [] /\
  forallb is_ascii (lit "hello") = true /\
  encodeMIMESubject (lit "hello") = lit "hello" /\
  ~ (exists body, encodeMIMESubject (lit "hello") =
                  lit "=?UTF-8?B?" ++ body ++ lit "?=").
Proof.
  split; [discriminate|]. split; [reflexivity|]. split; [reflexivity|].
  intros [body H]. vm_compute in H. discriminate.
Qed.

(** C2.  When [uploadMessage] has received a response, it returns [nil]
    if the status code is 200, and otherwise an error whose text carries
    the status of the response and the body that was read from it. *)
Theorem C2_upload_status (W : Type)
    (answer : forall X : Type, Event X -> W -> X * W)
    (formatDuration : Z -> bytes) (q : QuickMail) (url message : bytes)
    (w : W) (response : Response) :
  let o := run W answer (uploadMessage formatDuration q url message) w in
  In response (responses (trace o)) ->
  (StatusCode response = StatusOK -> result o = None) /\
  (StatusCode response <> StatusOK ->
   exists body,
     In (Body response, body) (bodies_read (trace o)) /\
     result o = Some (lit "unexpected status: " ++ Status response ++
                      lit ", body: " ++ body)).
Proof.
  cbv zeta.
  destruct (uploadMessage_shape W answer formatDuration q url message w)
    as [t0 err w1|t0 d err w1|t0 d req err w1|t0 d req resp rb w1 Hs
       |t0 d req resp rb elapsed w1 Hs];
    cbn [trace result responses bodies_read]; intros Hin;
    try contradiction; destruct Hin as [<-|[]]; split; intros Hc;
    try contradiction; try reflexivity.
  exists (fst rb). split; [now left|reflexivity].
Qed.

Lemma C2_upload_status_witness :
  let o := run unit
             (scripted (inl (DialerOf 1)) None (inl denied)
                       (lit "denied", None))
             (uploadMessage (fun _ => lit "00:00:00") sample_app
                            (lit "http://abcdef.onion:8080/upload")
                            (lit "hello")) tt in
  In denied (responses (trace o)) /\
  ((StatusCode denied = StatusOK -> result o = None) /\
   (StatusCode denied <> StatusOK ->
    exists body,
      In (Body denied, body) (bodies_read (trace o)) /\
      result o = Some (lit "unexpected status: " ++ Status denied ++
                       lit ", body: " ++ body))).
Proof.
  cbv zeta. split; [left; reflexivity|].
  apply (C2_upload_status unit
           (scripted (inl (DialerOf 1)) None (inl denied)
                     (lit "denied", None))).
  left; reflexivity.
Defined.

(** C3.  The destination is composed as the specification words it: host,
    then [":port"] for a non-empty port, ["http://"] before it unless it
    begins with ["http://"] or ["https://"], and ["/upload"] after it.  It
    always carries a scheme and ends in ["/upload"], and it is the URL that
    [sendMail] hands to the upload. *)
Theorem C3_destination :
  (forall host port : bytes,
      let url := serverURL {| OnionAddress := host; Port := port |} in
      url = destination_reference host port /\
      (strings.HasPrefix url (lit "http://") = true \/
       strings.HasPrefix url (lit "https://") = true) /\
      strings.HasSuffix url (lit "/upload") = true) /\
  (forall (W : Type) (answer : forall X : Type, Event X -> W -> X * W)
          (formatDuration : Z -> bytes) (q : QuickMail) (cfg : Config)
          (w : W),
      config q = Some cfg ->
      strings.TrimSpace (textArea_Text q) <> [] ->
      spawned (run W answer (sendMail formatDuration q) w) =
      [sendMail_goroutine formatDuration q
         (destination_reference (OnionAddress cfg) (Port cfg))
         (textArea_Text q)]).
Proof.
  assert (Href : forall host port,
             serverURL {| OnionAddress := host; Port := port |} =
             destination_reference host port).
  { intros host port. unfold serverURL, destination_reference.
    cbn [OnionAddress Port].
    destruct port as [|c port].
    - change (bytes_eqb [] (lit "")) with true. cbn [negb]. f_equal.
      destruct (strings.HasPrefix host (lit "http://")),
        (strings.HasPrefix host (lit "https://")); reflexivity.
    - change (bytes_eqb (c :: port) (lit "")) with false. cbn [negb].
      f_equal.
      destruct (strings.HasPrefix (host ++ lit ":" ++ c :: port)
                                  (lit "http://")),
        (strings.HasPrefix (host ++ lit ":" ++ c :: port)
                           (lit "https://")); reflexivity. }
  split.
  - intros host port. cbv zeta. split; [apply Href|].
    rewrite Href. unfold destination_reference.
    set (joined := match port with
                   | [] => host
                   | _ :: _ => host ++ lit ":" ++ port
                   end).
    split; [|apply HasSuffix_app].
    destruct (strings.HasPrefix joined (lit "http://")) eqn:E1;
      [left; now apply HasPrefix_app_l|].
    destruct (strings.HasPrefix joined (lit "https://")) eqn:E2;
      [right; now apply HasPrefix_app_l|].
    left. reflexivity.
  - intros W answer formatDuration q cfg w Hc Ht.
    rewrite (sendMail_passes W answer formatDuration q cfg w Hc Ht).
    cbn [spawned]. destruct cfg as [host port]. now rewrite Href.
Qed.

(** C4.  For a non-empty input, [encodeMIMESubject] is the reference
    folding of the specification applied to the encoded string. *)
Theorem C4_fold_refinement (input : bytes) :
  input <> [] ->
  encodeMIMESubject input = fold_reference (mime.Encode (lit "UTF-8") input).
Proof. apply encodeMIMESubject_fold. Qed.

Lemma C4_fold_refinement_witness :
  lit "a?=b" <> [] /\
  encodeMIMESubject (lit "a?=b") =
  fold_reference (mime.Encode (lit "UTF-8") (lit "a?=b")).
Proof.
  split; [discriminate|].
  apply (C4_fold_refinement (lit "a?=b")). discriminate.
Defined.

(** C5, as amended.  Decoding the encoded subject gives the input back
    when the input holds a byte that is not a printable ASCII character or
    a tab (it is then base64-encoded), and when it holds no ["?="] (the
    empty input among these). *)
Theorem C5_round_trip (input : bytes) :
  forallb plain_byte input = false \/
  strings.Index input (lit "?=") = None ->
  mime.DecodeHeader (encodeMIMESubject input) = Some input.
Proof.
  intros H. destruct (forallb plain_byte input) eqn:Hp.
  - destruct H as [H|H]; [discriminate|].
    destruct input as [|c t]; [reflexivity|].
    rewrite encodeMIMESubject_plain by (try discriminate; exact Hp).
    rewrite fold_reference_no_marker by exact H.
    now apply DecodeHeader_no_marker.
  - destruct (encodeMIMESubject_words input Hp) as [cs [Hcs [Hcat [_ ->]]]].
    rewrite DecodeHeader_words by exact Hcs. now rewrite Hcat.
Qed.

Lemma C5_round_trip_witness :
  forallb plain_byte [ascii_of_nat 195; ascii_of_nat 169] = false /\
  mime.DecodeHeader (encodeMIMESubject [ascii_of_nat 195; ascii_of_nat 169])
  = Some [ascii_of_nat 195; ascii_of_nat 169].
Proof.
  split; [reflexivity|].
  apply (C5_round_trip [ascii_of_nat 195; ascii_of_nat 169]).
  left; reflexivity.
Defined.

(** C5 as stated fails: the subject ["a?=b"] is folded after its ["?="],
    and the decoder leaves the line break where it is. *)
Lemma C5_plain_marker_not_recovered :
  encodeMIMESubject (lit "a?=b") = lit "a?=" ++ [LF] ++ lit "b" /\
  mime.DecodeHeader (encodeMIMESubject (lit "a?=b")) <> Some (lit "a?=b").
Proof.
  split; [reflexivity|]. vm_compute. discriminate.
Qed.

(** C6, as amended.  In the subject of a non-empty input every line break
    stands right after a ["?="] and none stands at the end; no line is
    longer than an encoded word may be when the input holds a byte that is
    not a printable ASCII character or a tab. *)
Theorem C6_folded_header (input : bytes) :
  input <> [] ->
  breaks_after_marker (encodeMIMESubject input) /\
  no_trailing_break (encodeMIMESubject input) /\
  (forallb plain_byte input = false ->
   Forall (fun l => length l <= mime.maxEncodedWordLen)
          (lines (encodeMIMESubject input))).
Proof.
  intros Hne.
  pose proof (fold_reference_breaks _ (Encode_no_break input)) as [Hb Ht].
  rewrite <- encodeMIMESubject_fold in Hb, Ht by exact Hne.
  split; [exact Hb|]. split; [exact Ht|].
  intros Hp. destruct (encodeMIMESubject_words input Hp)
    as [cs [Hcs [_ [Hok ->]]]].
  eapply Forall_impl;
    [|apply (lines_join_words cs [] Hcs Hok); [constructor|simpl; lia]].
  intros l Hl. unfold mime.maxEncodedWordLen. cbv beta in Hl. lia.
Qed.

Lemma C6_folded_header_witness :
  lit "a?=b" <> [] /\
  breaks_after_marker (encodeMIMESubject (lit "a?=b")) /\
  no_trailing_break (encodeMIMESubject (lit "a?=b")).
Proof.
  split; [discriminate|].
  pose proof (C6_folded_header (lit "a?=b") ltac:(discriminate)) as H.
  split; [exact (proj1 H)|exact (proj1 (proj2 H))].
Defined.

(** C6 as stated fails: a subject of eighty letters is one line of eighty
    bytes, more than the seventy-five of an encoded word. *)
Lemma C6_long_plain_line :
  repeat "a"%char 80 <> [] /\
  lines (encodeMIMESubject (repeat "a"%char 80)) = [repeat "a"%char 80] /\
  ~ Forall (fun l => length l <= mime.maxEncodedWordLen)
           (lines (encodeMIMESubject (repeat "a"%char 80))).
Proof.
  split; [discriminate|]. split; [vm_compute; reflexivity|].
  intros H.
  replace (lines (encodeMIMESubject (repeat "a"%char 80)))
    with [repeat "a"%char 80] in H by (vm_compute; reflexivity).
  inversion H as [|? ? Hl _]; subst.
  unfold mime.maxEncodedWordLen in Hl. cbn [repeat length] in Hl. lia.
Qed.

(** C7.  When the construction of the SOCKS5 dialer fails, [uploadMessage]
    returns the proxy error and neither builds nor dispatches a request;
    and in every run the client of a dispatched request dials through the
    dialer that [proxy.SOCKS5("tcp", "127.0.0.1:9050", nil, proxy.Direct)]
    returned. *)
Theorem C7_tor_only (W : Type)
    (answer : forall X : Type, Event X -> W -> X * W)
    (formatDuration : Z -> bytes) (q : QuickMail) (url message : bytes)
    (w : W) :
  let o := run W answer (uploadMessage formatDuration q url message) w in
  (forall err,
      In err (proxy_failures (trace o)) ->
      result o = Some (lit "can't connect to Tor proxy: " ++ err) /\
      forallb (fun c => negb (is_http_call c)) (trace o) = true) /\
  (forall d, In d (dispatch_dialers (trace o)) -> In d (tor_dialers (trace o))).
Proof.
  cbv zeta.
  destruct (uploadMessage_shape W answer formatDuration q url message w);
    cbn [trace result proxy_failures dispatch_dialers tor_dialers
         ClientTransport Dial];
    (split; [intros e He; try contradiction|intros d' Hd; try contradiction]).
  - destruct He as [<-|[]]. split; reflexivity.
  - exact Hd.
  - exact Hd.
  - exact Hd.
Qed.

Lemma C7_tor_only_witness :
  let o := run unit
             (scripted (inr (lit "refused")) None (inl accepted) ([], None))
             (uploadMessage (fun _ => lit "00:00:00") sample_app
                            (lit "http://abcdef.onion:8080/upload")
                            (lit "hello")) tt in
  In (lit "refused") (proxy_failures (trace o)) /\
  result o = Some (lit "can't connect to Tor proxy: " ++ lit "refused") /\
  forallb (fun c => negb (is_http_call c)) (trace o) = true.
Proof.
  cbv zeta. split; [left; reflexivity|].
  apply (proj1 (C7_tor_only unit
                  (scripted (inr (lit "refused")) None (inl accepted)
                            ([], None))
                  (fun _ => lit "00:00:00") sample_app
                  (lit "http://abcdef.onion:8080/upload") (lit "hello") tt)).
  left; reflexivity.
Defined.

(** C8.  A submission that passes the guards of [sendMail] shows no dialog
    itself and starts one goroutine; whenever that goroutine runs, it shows
    exactly one dialog: the error dialog when the upload returned an error,
    the success dialog when it returned [nil]. *)
Theorem C8_notified_exactly_once (W : Type)
    (answer : forall X : Type, Event X -> W -> X * W)
    (formatDuration : Z -> bytes) (q : QuickMail) (cfg : Config) (w : W) :
  config q = Some cfg ->
  strings.TrimSpace (textArea_Text q) <> [] ->
  let o := run W answer (sendMail formatDuration q) w in
  dialogs (trace o) = [] /\
  exists g,
    spawned o = [g] /\
    forall w',
      let u := run W answer
                   (uploadMessage formatDuration q (serverURL cfg)
                                  (textArea_Text q)) w' in
      let o' := run W answer g w' in
      spawned o' = [] /\
      dialogs (trace o') =
      match result u with
      | Some e => [(lit "Error", lit "Send error: " ++ e)]
      | None => [(lit "Success", lit "Message sent successfully!")]
      end.
Proof.
  intros Hc Ht. cbv zeta.
  rewrite (sendMail_passes W answer formatDuration q cfg w Hc Ht).
  cbn [trace spawned dialogs]. split; [reflexivity|].
  eexists. split; [reflexivity|]. intros w'.
  apply sendMail_goroutine_run.
Qed.

Lemma C8_notified_exactly_once_witness :
  let o := run unit
             (scripted (inl (DialerOf 1)) None (inl accepted) ([], None))
             (sendMail (fun _ => lit "00:00:00") sample_app) tt in
  dialogs (trace o) = [] /\ length (spawned o) = 1.
Proof.
  cbv zeta.
  destruct (C8_notified_exactly_once unit
              (scripted (inl (DialerOf 1)) None (inl accepted) ([], None))
              (fun _ => lit "00:00:00") sample_app sample_config tt
              eq_refl ltac:(vm_compute; discriminate))
    as [Hd [g [Hg _]]].
  split; [exact Hd|]. now rewrite Hg.
Defined.

(** C9.  The subject of the empty string is the empty string; the result
    is a string, there is no error to return. *)
Theorem C9_empty_subject : encodeMIMESubject (lit "") = lit "".
Proof. reflexivity. Qed.

(** C10.  Without a configuration, or with a message that is empty or
    white space only, [sendMail] shows one error dialog and does nothing
    else: no goroutine is started, so no destination is composed and
    nothing is submitted. *)
Theorem C10_guards (W : Type)
    (answer : forall X : Type, Event X -> W -> X * W)
    (formatDuration : Z -> bytes) (q : QuickMail) (w : W) :
  config q = None \/ only_whitespace (textArea_Text q) ->
  let o := run W answer (sendMail formatDuration q) w in
  spawned o = [] /\
  exists message,
    trace o = [call (DialogShowInformation (lit "Error") message (window q))
                    tt].
Proof.
  intros H. cbv zeta. unfold sendMail.
  destruct (config q) as [cfg|] eqn:Hc.
  - destruct H as [H|H]; [discriminate|].
    rewrite (TrimSpace_ws _ H). cbn [bytes_eqb lit list_ascii_of_string].
    unfold showError. rewrite run_perform. cbn [spawned trace].
    split; [reflexivity|]. eexists.
    now destruct (fst (answer unit _ w)).
  - unfold showError. rewrite run_perform. cbn [spawned trace].
    split; [reflexivity|]. eexists.
    now destruct (fst (answer unit _ w)).
Qed.

Lemma C10_guards_witness :
  let q := {| window := 1; textArea_Text := lit "   "; config := None |} in
  let o := run unit
             (scripted (inl (DialerOf 1)) None (inl accepted) ([], None))
             (sendMail (fun _ => lit "00:00:00") q) tt in
  spawned o = [] /\
  exists message,
    trace o = [call (DialogShowInformation (lit "Error") message (window q))
                    tt].
Proof.
  cbv zeta.
  apply (C10_guards unit
           (scripted (inl (DialerOf 1)) None (inl accepted) ([], None))
           (fun _ => lit "00:00:00")
           {| window := 1; textArea_Text := lit "   "; config := None |} tt).
  left; reflexivity.
Defined.

(** ** Further properties of the submission path *)

(** X1.  When [http.NewRequest] fails, [uploadMessage] returns its error
    after ["failed to create request: "] and stops: nothing is dispatched,
    read, closed or printed. *)
Theorem X1_request_error_stops (W : Type)
    (answer : forall X : Type, Event X -> W -> X * W)
    (formatDuration : Z -> bytes) (q : QuickMail) (url message : bytes)
    (w : W) (err : error) :
  let o := run W answer (uploadMessage formatDuration q url message) w in
  In err (request_failures (trace o)) ->
  result o = Some (lit "failed to create request: " ++ err) /\
  dispatched (trace o) = [] /\ bodies_read (trace o) = [] /\
  closed_bodies (trace o) = [] /\ printed (trace o) = [].
Proof.
  cbv zeta.
  destruct (uploadMessage_shape W answer formatDuration q url message w);
    cbn [trace result request_failures dispatched bodies_read closed_bodies
         printed]; intros Hin; try contradiction.
  destruct Hin as [<-|[]]. repeat split; reflexivity.
Qed.

Lemma X1_request_error_stops_witness :
  let o := run unit
             (scripted (inl (DialerOf 1)) (Some (lit "invalid URL"))
                       (inl accepted) ([], None))
             (uploadMessage (fun _ => lit "00:00:00") sample_app
                            (lit "http://abcdef.onion:8080/upload")
                            (lit "hello")) tt in
  In (lit "invalid URL") (request_failures (trace o)) /\
  result o = Some (lit "failed to create request: " ++ lit "invalid URL") /\
  dispatched (trace o) = [].
Proof.
  cbv zeta. split; [left; reflexivity|].
  destruct (X1_request_error_stops unit
              (scripted (inl (DialerOf 1)) (Some (lit "invalid URL"))
                        (inl accepted) ([], None))
              (fun _ => lit "00:00:00") sample_app
              (lit "http://abcdef.onion:8080/upload") (lit "hello") tt
              (lit "invalid URL") ltac:(left; reflexivity))
    as [Hr [Hd _]].
  split; assumption.
Defined.

(** X2.  When [client.Do] fails, [uploadMessage] returns its error after
    ["failed to send request: "]; no body is read or closed (the deferred
    close is registered only after a response) and nothing is printed. *)
Theorem X2_transport_error (W : Type)
    (answer : forall X : Type, Event X -> W -> X * W)
    (formatDuration : Z -> bytes) (q : QuickMail) (url message : bytes)
    (w : W) (err : error) :
  let o := run W answer (uploadMessage formatDuration q url message) w in
  In err (transport_failures (trace o)) ->
  result o = Some (lit "failed to send request: " ++ err) /\
  bodies_read (trace o) = [] /\ closed_bodies (trace o) = [] /\
  printed (trace o) = [].
Proof.
  cbv zeta.
  destruct (uploadMessage_shape W answer formatDuration q url message w);
    cbn [trace result transport_failures bodies_read closed_bodies printed];
    intros Hin; try contradiction.
  destruct Hin as [<-|[]]. repeat split; reflexivity.
Qed.

Lemma X2_transport_error_witness :
  let o := run unit
             (scripted (inl (DialerOf 1)) None (inr (lit "timeout"))
                       ([], None))
             (uploadMessage (fun _ => lit "00:00:00") sample_app
                            (lit "http://abcdef.onion:8080/upload")
                            (lit "hello")) tt in
  In (lit "timeout") (transport_failures (trace o)) /\
  result o = Some (lit "failed to send request: " ++ lit "timeout").
Proof.
  cbv zeta. split; [left; reflexivity|].
  apply (X2_transport_error unit
           (scripted (inl (DialerOf 1)) None (inr (lit "timeout"))
                     ([], None))
           (fun _ => lit "00:00:00") sample_app
           (lit "http://abcdef.onion:8080/upload") (lit "hello") tt
           (lit "timeout")).
  left; reflexivity.
Defined.

(** X3.  The body of every response that [uploadMessage] receives is read
    once and closed once, whatever the status, and the close is the last
    call of the run; without a response nothing is read or closed. *)
Theorem X3_body_closed_once (W : Type)
    (answer : forall X : Type, Event X -> W -> X * W)
    (formatDuration : Z -> bytes) (q : QuickMail) (url message : bytes)
    (w : W) :
  let o := run W answer (uploadMessage formatDuration q url message) w in
  closed_bodies (trace o) = map Body (responses (trace o)) /\
  map fst (bodies_read (trace o)) = map Body (responses (trace o)) /\
  (forall resp, In resp (responses (trace o)) ->
                exists before,
                  trace o = before ++ [call (BodyClose (Body resp)) tt]).
Proof.
  cbv zeta.
  destruct (uploadMessage_shape W answer formatDuration q url message w);
    cbn [trace responses closed_bodies bodies_read map fst];
    (split; [reflexivity|]); (split; [reflexivity|]);
    intros resp' Hin; try contradiction; destruct Hin as [<-|[]].
  - eexists [_; _; _; _; _]. reflexivity.
  - eexists [_; _; _; _; _; _; _]. reflexivity.
Qed.

(** X4.  [uploadMessage] builds at most one request, a POST to the given
    URL with the message as its body, byte for byte; a dispatched request
    is the built one with the single [Content-Type] value
    [application/octet-stream], and its client has a timeout of thirty
    seconds. *)
Theorem X4_dispatched_request (W : Type)
    (answer : forall X : Type, Event X -> W -> X * W)
    (formatDuration : Z -> bytes) (q : QuickMail) (url message : bytes)
    (w : W) :
  let o := run W answer (uploadMessage formatDuration q url message) w in
  (new_request_calls (trace o) = [] \/
   new_request_calls (trace o) = [(lit "POST", url, message)]) /\
  (forall c, In c (dispatch_clients (trace o)) ->
             Timeout c = 30000000000%Z) /\
  (forall req,
      In req (dispatched (trace o)) ->
      Header_Values req (lit "Content-Type") =
      [lit "application/octet-stream"] /\
      exists built,
        In built (built_requests (trace o)) /\
        Method req = Method built /\ URL req = URL built /\
        RequestBody req = RequestBody built /\
        forall key, bytes_eqb key (lit "Content-Type") = false ->
                    Header_Values req key = Header_Values built key).
Proof.
  assert (Hset : forall r : Request,
             Header_Values (Header_Set r (lit "Content-Type")
                                       (lit "application/octet-stream"))
                           (lit "Content-Type")
             = [lit "application/octet-stream"]).
  { intros r. unfold Header_Values, Header_Set. cbn [Header].
    rewrite filter_app, map_app.
    replace (filter (fun kv => bytes_eqb (fst kv) (lit "Content-Type"))
               (filter (fun kv =>
                          negb (bytes_eqb (fst kv) (lit "Content-Type")))
                       (Header r))) with (@nil (bytes * bytes)).
    - reflexivity.
    - induction (Header r) as [|kv h IH]; [reflexivity|].
      cbn [filter]. destruct (bytes_eqb (fst kv) (lit "Content-Type")) eqn:E;
        cbn [negb filter]; [exact IH|]. now rewrite E. }
  assert (Hother : forall (r : Request) key,
             bytes_eqb key (lit "Content-Type") = false ->
             Header_Values (Header_Set r (lit "Content-Type")
                                       (lit "application/octet-stream")) key
             = Header_Values r key).
  { intros r key Hk. unfold Header_Values, Header_Set. cbn [Header].
    rewrite filter_app, map_app. cbn [filter fst].
    replace (bytes_eqb (lit "Content-Type") key) with false.
    2:{ symmetry. apply bytes_eqb_neq. intros E. subst key.
        now rewrite bytes_eqb_refl in Hk. }
    cbn [map]. rewrite app_nil_r. f_equal.
    induction (Header r) as [|kv h IH]; [reflexivity|].
    cbn [filter].
    destruct (bytes_eqb (fst kv) (lit "Content-Type")) eqn:E; cbn [negb].
    - apply bytes_eqb_eq in E.
      replace (bytes_eqb (fst kv) key) with false; [exact IH|].
      symmetry. apply bytes_eqb_neq. intros E'. rewrite E' in E. subst key.
      now rewrite bytes_eqb_refl in Hk.
    - cbn [filter]. destruct (bytes_eqb (fst kv) key); now rewrite IH. }
  cbv zeta.
  destruct (uploadMessage_shape W answer formatDuration q url message w);
    cbn [trace new_request_calls dispatch_clients dispatched built_requests];
    (split; [first [now left|now right]|]);
    (split; [intros c Hin; try contradiction; destruct Hin as [<-|[]];
             reflexivity|]);
    intros req' Hin; try contradiction; destruct Hin as [<-|[]];
    (split; [apply Hset|]); eexists; (split; [left; reflexivity|]);
    repeat split; try reflexivity; intros key Hk; now apply Hother.
Qed.

(** X5.  One call of [uploadMessage] constructs the proxy dialer once and
    dispatches at most one request: there is no retry.  It shows no dialog
    and starts no goroutine. *)
Theorem X5_single_attempt (W : Type)
    (answer : forall X : Type, Event X -> W -> X * W)
    (formatDuration : Z -> bytes) (q : QuickMail) (url message : bytes)
    (w : W) :
  let o := run W answer (uploadMessage formatDuration q url message) w in
  proxy_calls (trace o) = 1 /\ length (dispatched (trace o)) <= 1 /\
  dialogs (trace o) = [] /\ spawned o = [].
Proof.
  cbv zeta.
  destruct (uploadMessage_shape W answer formatDuration q url message w);
    cbn [trace spawned proxy_calls dispatched dialogs length];
    repeat split; try reflexivity; lia.
Qed.

(** X6.  [uploadMessage] returns [nil] exactly when it received a response
    with status code 200, and it prints its success line, with the elapsed
    time that [time.Since] gave, exactly then. *)
Theorem X6_success_iff_200 (W : Type)
    (answer : forall X : Type, Event X -> W -> X * W)
    (formatDuration : Z -> bytes) (q : QuickMail) (url message : bytes)
    (w : W) :
  let o := run W answer (uploadMessage formatDuration q url message) w in
  (result o = None <->
   exists resp, In resp (responses (trace o)) /\ StatusCode resp = 200%Z) /\
  printed (trace o) =
  match result o with
  | None =>
    map (fun d => lit "Message sent successfully! Elapsed Time: " ++
                  formatDuration d ++ [LF]) (elapsed_times (trace o))
  | Some _ => []
  end /\
  (result o = None -> length (elapsed_times (trace o)) = 1).
Proof.
  cbv zeta.
  destruct (uploadMessage_shape W answer formatDuration q url message w)
    as [t0 err w1|t0 d err w1|t0 d req err w1|t0 d req resp rb w1 Hs
       |t0 d req resp rb elapsed w1 Hs];
    cbn [trace result responses printed elapsed_times map length];
    (split; [|split; [reflexivity|]; intros E; try discriminate E;
              reflexivity]).
  - split; [discriminate|]. intros [r' [Hin _]]. contradiction.
  - split; [discriminate|]. intros [r' [Hin _]]. contradiction.
  - split; [discriminate|]. intros [r' [Hin _]]. contradiction.
  - split; [discriminate|]. intros [r' [Hin Hr]].
    destruct Hin as [<-|Hin]; contradiction.
  - split; [|reflexivity]. intros _. exists resp. split; [now left|exact Hs].
Qed.

(** X7.  [sendMail] starts an upload exactly when a configuration is
    loaded and the trimmed message is not empty.  Otherwise it shows one
    error dialog: ["Configuration not loaded"] without a configuration,
    whatever the message, and ["Message is empty"] with one. *)
Theorem X7_sendMail_decision (W : Type)
    (answer : forall X : Type, Event X -> W -> X * W)
    (formatDuration : Z -> bytes) (q : QuickMail) (w : W) :
  let o := run W answer (sendMail formatDuration q) w in
  (spawned o <> [] <->
   config q <> None /\ strings.TrimSpace (textArea_Text q) <> []) /\
  (config q = None ->
   dialogs (trace o) = [(lit "Error", lit "Configuration not loaded")]) /\
  (config q <> None -> strings.TrimSpace (textArea_Text q) = [] ->
   dialogs (trace o) = [(lit "Error", lit "Message is empty")]) /\
  (spawned o <> [] -> trace o = []).
Proof.
  cbv zeta. unfold sendMail.
  destruct (config q) as [cfg|].
  - destruct (bytes_eqb (strings.TrimSpace (textArea_Text q)) (lit ""))
      eqn:E.
    + apply bytes_eqb_eq in E. unfold showError. rewrite run_perform.
      cbn [spawned trace dialogs].
      split; [|split; [|split]].
      * split; [intros H; now contradiction H|intros [_ H]; contradiction].
      * discriminate.
      * reflexivity.
      * intros H. now contradiction H.
    + apply bytes_eqb_neq in E. cbn [run spawned trace dialogs].
      split; [|split; [|split]].
      * split; [intros _; split; [discriminate|exact E]|discriminate].
      * discriminate.
      * intros _ H. contradiction.
      * reflexivity.
  - unfold showError. rewrite run_perform. cbn [spawned trace dialogs].
    split; [|split; [|split]].
    + split; [intros H; now contradiction H|intros [H _]; now contradiction H].
    + reflexivity.
    + intros H. now contradiction H.
    + intros H. now contradiction H.
Qed.

Lemma new_request_calls_app (t1 t2 : list Call) :
  new_request_calls (t1 ++ t2) =
  new_request_calls t1 ++ new_request_calls t2.
Proof.
  induction t1 as [|[X e x] t1 IH]; [reflexivity|].
  destruct e; cbn [app new_request_calls]; now rewrite IH.
Qed.

(** X8.  The upload that [sendMail] starts posts the message as it was
    typed, with its leading and trailing white space: the trimmed text
    serves the test only.  The request goes to the composed destination. *)
Theorem X8_payload_as_typed (W : Type)
    (answer : forall X : Type, Event X -> W -> X * W)
    (formatDuration : Z -> bytes) (q : QuickMail) (cfg : Config) (w : W) :
  config q = Some cfg ->
  strings.TrimSpace (textArea_Text q) <> [] ->
  exists g,
    spawned (run W answer (sendMail formatDuration q) w) = [g] /\
    forall w',
      let calls := new_request_calls (trace (run W answer g w')) in
      calls = [] \/
      calls = [(lit "POST", serverURL cfg, textArea_Text q)].
Proof.
  intros Hc Ht.
  rewrite (sendMail_passes W answer formatDuration q cfg w Hc Ht).
  cbn [spawned]. eexists. split; [reflexivity|]. intros w'. cbv zeta.
  unfold sendMail_goroutine. rewrite run_bind. cbv zeta. cbn [trace].
  rewrite new_request_calls_app.
  assert (Hd : forall r, new_request_calls
                 (trace (run W answer
                    (match r with
                     | Some e => showError q (lit "Send error: " ++ e)
                     | None => showSuccess q
                                 (lit "Message sent successfully!")
                     end) (world (run W answer
                                    (uploadMessage formatDuration q
                                       (serverURL cfg) (textArea_Text q))
                                    w')))) = []).
  { intros [e|]; unfold showError, showSuccess; now rewrite run_perform. }
  rewrite Hd, app_nil_r.
  destruct (uploadMessage_shape W answer formatDuration q (serverURL cfg)
              (textArea_Text q) w');
    cbn [trace new_request_calls]; first [now left|now right].
Qed.

Lemma X8_payload_as_typed_witness :
  exists g,
    spawned (run unit
                 (scripted (inl (DialerOf 1)) None (inl accepted) ([], None))
                 (sendMail (fun _ => lit "00:00:00")
                           {| window := 1; textArea_Text := lit "  hi  ";
                              config := Some sample_config |}) tt) = [g] /\
    new_request_calls
      (trace (run unit
                  (scripted (inl (DialerOf 1)) None (inl accepted)
                            ([], None)) g tt)) =
    [(lit "POST", lit "http://abcdef.onion:8080/upload", lit "  hi  ")].
Proof.
  destruct (X8_payload_as_typed unit
              (scripted (inl (DialerOf 1)) None (inl accepted) ([], None))
              (fun _ => lit "00:00:00")
              {| window := 1; textArea_Text := lit "  hi  ";
                 config := Some sample_config |}
              sample_config tt eq_refl ltac:(vm_compute; discriminate))
    as [g [Hg H]].
  exists g. split; [exact Hg|].
  destruct (H tt) as [H0|H0]; [|exact H0].
  exfalso. injection Hg as <-. vm_compute in H0. discriminate.
Defined.

(** ** Further properties of the subject encoder *)

Lemma alphabet_plain (c : ascii) : is_alphabet c = true -> plain_byte c = true.
Proof.
  intros H. unfold is_alphabet in H. apply existsb_exists in H.
  destruct H as [x [Hx Hc]]. apply Ascii.eqb_eq in Hc. subst x.
  unfold base64.encodeStd, lit in Hx. cbn [list_ascii_of_string] in Hx.
  repeat (destruct Hx as [<-|Hx]; [reflexivity|]). contradiction.
Qed.

Lemma header_byte_word (c : bytes) :
  Forall (fun x => plain_byte x = true \/ x = LF) (word c).
Proof.
  unfold word. apply Forall_app; split; [|apply Forall_app; split].
  - repeat constructor.
  - eapply Forall_impl; [|apply Encode_b64].
    intros x [H| ->]; left; [now apply alphabet_plain|reflexivity].
  - repeat constructor.
Qed.

Lemma header_byte_join_words (cs : list bytes) :
  Forall (fun x => plain_byte x = true \/ x = LF) (join_words [LF; SP] cs).
Proof.
  induction cs as [|c cs IH]; [constructor|].
  destruct cs as [|c' cs]; [apply header_byte_word|].
  change (join_words [LF; SP] (c :: c' :: cs))
    with (word c ++ [LF; SP] ++ join_words [LF; SP] (c' :: cs)).
  apply Forall_app; split; [apply header_byte_word|].
  apply Forall_app; split; [|exact IH].
  constructor; [now right|]. constructor; [now left|constructor].
Qed.

Lemma header_byte_join_parts (parts : list bytes) :
  Forall (Forall (fun x => plain_byte x = true \/ x = LF)) parts ->
  Forall (fun x => plain_byte x = true \/ x = LF) (join_parts parts).
Proof.
  induction 1 as [|p parts Hp Hparts IH]; [constructor|].
  destruct parts as [|p' parts]; [exact Hp|].
  change (join_parts (p :: p' :: parts))
    with (p ++ lit "?=" ++ [LF] ++ join_parts (p' :: parts)).
  apply Forall_app; split; [exact Hp|].
  apply Forall_app; split; [repeat constructor|].
  apply Forall_app; split; [|exact IH].
  constructor; [now right|constructor].
Qed.

Lemma header_byte_strip (x : bytes) :
  Forall (fun c => plain_byte c = true \/ c = LF) x ->
  Forall (fun c => plain_byte c = true \/ c = LF) (strip_one_fold x).
Proof.
  intros H. destruct (strip_one_fold_cases x) as [[y [-> ->]]|[_ ->]];
    [|exact H].
  now apply Forall_app in H.
Qed.

(** X9.  The subject is safe for a header whatever the input: every byte
    of it is a printable ASCII character, a tab or a line break. *)
Theorem X9_subject_header_safe (input : bytes) :
  Forall (fun c => plain_byte c = true \/ c = LF) (encodeMIMESubject input).
Proof.
  destruct input as [|a t]; [constructor|].
  destruct (forallb plain_byte (a :: t)) eqn:Hp.
  - rewrite encodeMIMESubject_plain by (try discriminate; exact Hp).
    rewrite fold_reference_join.
    assert (Hs : Forall (fun c => plain_byte c = true \/ c = LF) (a :: t)).
    { apply Forall_forall. intros c Hc. left.
      rewrite forallb_forall in Hp. now apply Hp. }
    pose proof (Split_Forall _ (a :: t) (lit "?=") ltac:(discriminate) Hs)
      as Hparts.
    destruct (strings.Split (a :: t) (lit "?=")) as [|p [|p' parts]];
      try exact Hs.
    now apply header_byte_strip, header_byte_join_parts.
  - destruct (encodeMIMESubject_words (a :: t) Hp) as [cs [_ [_ [_ ->]]]].
    apply header_byte_join_words.
Qed.

(** X10.  A subject of at most forty-five bytes, one of them to encode, is
    one encoded word on one line: the base64 encoding of the whole input
    between ["=?UTF-8?b?"] and ["?="]. *)
Theorem X10_short_subject_one_word (input : bytes) :
  forallb plain_byte input = false -> length input <= 45 ->
  encodeMIMESubject input =
  lit "=?UTF-8?b?" ++ base64.Encode input ++ lit "?=" /\
  lines (encodeMIMESubject input) = [encodeMIMESubject input].
Proof.
  intros Hp Hlen. pose proof (not_plain_nonempty input Hp) as Hne.
  assert (Hok : Forall chunk_ok [input]).
  { constructor; [|constructor]. split; [|exact Hlen].
    destruct input; [contradiction|simpl; lia]. }
  assert (E : encodeMIMESubject input = word input).
  { rewrite encodeMIMESubject_fold, Encode_not_plain by assumption.
    unfold mime.encodeWord, mime.bEncode, mime.closeWord.
    change (mime.isUTF8 (lit "UTF-8")) with true. cbn [negb orb].
    replace (base64.EncodedLen (length input) <=? mime.maxContentLen)
      with true.
    - unfold mime.write_close, mime.openWord.
      replace (([] ++ lit "=?" ++ lit "UTF-8" ++ ["?"%char] ++
                [mime.BEncoding] ++ ["?"%char]) ++ base64.Encode input)
        with (word_open ++ base64.Encode input) by reflexivity.
      rewrite <- app_assoc.
      apply (fold_reference_words [input]); [discriminate|exact Hok].
    - symmetry. apply Nat.leb_le.
      pose proof (EncodedLen_chunk _ Hlen). change mime.maxContentLen with 63.
      lia. }
  split; [exact E|]. rewrite E. apply lines_single, word_no_break.
Qed.

Lemma X10_short_subject_one_word_witness :
  encodeMIMESubject [ascii_of_nat 195; ascii_of_nat 169] =
  lit "=?UTF-8?b?" ++ base64.Encode [ascii_of_nat 195; ascii_of_nat 169]
  ++ lit "?=".
Proof.
  apply (proj1 (X10_short_subject_one_word
                  [ascii_of_nat 195; ascii_of_nat 169] eq_refl
                  ltac:(simpl; lia))).
Defined.

Lemma DecodeHeader_encodeMIMESubject (input : bytes) :
  forallb plain_byte input = false ->
  mime.DecodeHeader (encodeMIMESubject input) = Some input.
Proof.
  intros Hp.
  destruct (encodeMIMESubject_words input Hp) as [cs [Hcs [Hcat [_ ->]]]].
  rewrite DecodeHeader_words by exact Hcs. now rewrite Hcat.
Qed.

(** X11.  Two subjects that both hold a byte to encode have different
    encodings unless they are the same subject. *)
Theorem X11_encoded_subjects_differ (a b : bytes) :
  forallb plain_byte a = false -> forallb plain_byte b = false ->
  encodeMIMESubject a = encodeMIMESubject b -> a = b.
Proof.
  intros Ha Hb E.
  pose proof (DecodeHeader_encodeMIMESubject a Ha) as Da.
  pose proof (DecodeHeader_encodeMIMESubject b Hb) as Db.
  rewrite E, Db in Da. now injection Da.
Qed.

Lemma X11_encoded_subjects_differ_witness :
  [ascii_of_nat 195; ascii_of_nat 169] = [ascii_of_nat 195; ascii_of_nat 169].
Proof.
  apply (X11_encoded_subjects_differ
           [ascii_of_nat 195; ascii_of_nat 169]
           [ascii_of_nat 195; ascii_of_nat 169] eq_refl eq_refl eq_refl).
Defined.

(** ** The lines of a text *)

Lemma lines_of_no_break (p : bytes) : no_break p -> lines_of p = [p].
Proof.
  induction 1 as [|a p Ha Hp IH]; [reflexivity|].
  cbn [lines_of]. apply Ascii.eqb_neq in Ha. now rewrite Ha, IH.
Qed.

Lemma lines_of_first (p r : bytes) :
  no_break p -> lines_of (p ++ LF :: r) = p :: lines_of r.
Proof.
  induction 1 as [|a p Ha Hp IH]; [reflexivity|].
  cbn [app lines_of]. apply Ascii.eqb_neq in Ha. now rewrite Ha, IH.
Qed.

Lemma first_break (s : bytes) :
  no_break s \/ exists p r, s = p ++ LF :: r /\ no_break p.
Proof.
  induction s as [|c t IH]; [left; constructor|].
  destruct (Ascii.eqb_spec c LF) as [->|Hc].
  - right. exists [], t. split; [reflexivity|constructor].
  - destruct IH as [IH|[p [r [-> Hp]]]].
    + left. now constructor.
    + right. exists (c :: p), r. split; [reflexivity|now constructor].
Qed.

(** [strings.Split(s, "\n")] gives the lines of [s]. *)
Lemma lines_lines_of (s : bytes) : lines s = lines_of s.
Proof.
  remember (length s) as n eqn:Hn. revert s Hn.
  induction n as [n IH] using lt_wf_ind. intros s Hn.
  destruct (first_break s) as [Hs|[p [r [-> Hp]]]].
  - now rewrite lines_single, lines_of_no_break.
  - change (p ++ LF :: r) with (p ++ [LF] ++ r) at 1.
    rewrite (lines_first p r Hp), (lines_of_first p r Hp). f_equal.
    apply (IH (length r)); [|reflexivity].
    subst n. rewrite length_app. simpl. lia.
Qed.

Lemma lines_of_nonempty (s : bytes) : lines_of s <> [].
Proof.
  induction s as [|c t IH]; [discriminate|].
  cbn [lines_of]. destruct (Ascii.eqb c LF); [discriminate|].
  destruct (lines_of t); discriminate.
Qed.

(** The lines, a line break after each, are the text and a line break. *)
Lemma lines_of_join (s : bytes) :
  concat (map (fun l => l ++ [LF]) (lines_of s)) = s ++ [LF].
Proof.
  induction s as [|c t IH]; [reflexivity|].
  cbn [lines_of]. destruct (Ascii.eqb_spec c LF) as [->|Hc].
  - cbn [map concat app]. now rewrite IH.
  - destruct (lines_of t) as [|l ls] eqn:E.
    + now destruct (lines_of_nonempty t).
    + cbn [map concat app] in *. now rewrite IH.
Qed.

Lemma lines_of_app (x y : bytes) :
  lines_of (x ++ LF :: y) = lines_of x ++ lines_of y.
Proof.
  induction x as [|c t IH]; [reflexivity|].
  cbn [app lines_of]. destruct (Ascii.eqb c LF).
  - now rewrite IH.
  - rewrite IH. destruct (lines_of t) as [|l ls] eqn:E.
    + now destruct (lines_of_nonempty t).
    + reflexivity.
Qed.

Lemma length_lines_of (s : bytes) : length (lines_of s) = S (breaks s).
Proof.
  unfold breaks. induction s as [|c t IH]; [reflexivity|].
  cbn [lines_of count_occ].
  destruct (Ascii.eqb_spec c LF) as [->|Hc].
  - destruct (ascii_dec LF LF); [|contradiction]. simpl. now rewrite IH.
  - destruct (ascii_dec c LF); [contradiction|].
    destruct (lines_of t) as [|l ls] eqn:E.
    + now destruct (lines_of_nonempty t).
    + exact IH.
Qed.

(** ** The offset of the cursor *)

Lemma position_loop_sum (lines : list bytes) :
  forall todo i actualPos,
    i + todo <= length lines ->
    position_loop lines i todo actualPos =
    actualPos +
    length (concat (map (fun l => l ++ [LF]) (firstn todo (skipn i lines)))).
Proof.
  induction todo as [|todo IH]; intros i actualPos H.
  - simpl. lia.
  - cbn [position_loop].
    replace (i <? length lines) with true
      by (symmetry; apply Nat.ltb_lt; lia).
    rewrite IH by lia.
    assert (E : skipn i lines = nth i lines [] :: skipn (S i) lines).
    { clear IH. revert i H. induction lines as [|l ls IHl]; intros i H.
      - simpl in H. lia.
      - destruct i as [|i]; [reflexivity|].
        cbn [skipn nth]. apply IHl. simpl in H. lia. }
    rewrite E. cbn [firstn map concat]. rewrite !length_app.
    cbn [length]. lia.
Qed.

Lemma position_loop_beyond (lines : list bytes) :
  forall todo i actualPos,
    length lines <= i -> position_loop lines i todo actualPos = actualPos.
Proof.
  induction todo as [|todo IH]; intros i actualPos H; [reflexivity|].
  cbn [position_loop].
  replace (i <? length lines) with false
    by (symmetry; apply Nat.ltb_ge; lia).
  apply IH. lia.
Qed.

Lemma firstn_concat_lines (ls : list bytes) (row : nat) :
  row < length ls ->
  concat (map (fun l => l ++ [LF]) ls) =
  concat (map (fun l => l ++ [LF]) (firstn row ls))
  ++ nth row ls [] ++ [LF]
  ++ concat (map (fun l => l ++ [LF]) (skipn (S row) ls)).
Proof.
  revert row. induction ls as [|l ls IH]; intros row H.
  - simpl in H. lia.
  - destruct row as [|row].
    + cbn [firstn map concat app nth skipn]. now rewrite <- app_assoc.
    + cbn [firstn map concat nth skipn]. rewrite (IH row) by (simpl in H; lia).
      now rewrite <- !app_assoc.
Qed.

(** The text before the cursor: the lines above its row, and its row up to
    its column, or up to the end of the row when the column lies beyond. *)
Lemma cursor_offset_prefix (text : bytes) (row col : nat) :
  row < length (lines_of text) ->
  let line := nth row (lines_of text) [] in
  let col' := Nat.min col (length line) in
  cursor_offset text row col <= length text /\
  firstn (cursor_offset text row col) text =
  concat (map (fun l => l ++ [LF]) (firstn row (lines_of text)))
  ++ firstn col' line.
Proof.
  intros Hrow line col'. unfold cursor_offset.
  fold (lines text). rewrite lines_lines_of.
  replace (row <? length (lines_of text)) with true
    by (symmetry; now apply Nat.ltb_lt).
  rewrite position_loop_sum by (simpl; lia). cbn [skipn Nat.add].
  fold line.
  set (above := concat (map (fun l => l ++ [LF])
                            (firstn row (lines_of text)))).
  assert (Hcol : (if length line <? col then length line else col) = col').
  { subst col'. destruct (Nat.ltb_spec (length line) col); lia. }
  rewrite Hcol.
  pose proof (lines_of_join text) as Hj.
  rewrite (firstn_concat_lines _ row Hrow) in Hj. fold above line in Hj.
  set (below := concat (map (fun l => l ++ [LF])
                            (skipn (S row) (lines_of text)))) in Hj.
  assert (Hlen : length above + length line + 1 + length below
                 = length text + 1).
  { apply (f_equal (@length ascii)) in Hj.
    rewrite !length_app in Hj. simpl in Hj. lia. }
  assert (Hc : col' <= length line) by (subst col'; lia).
  split; [lia|].
  assert (Ht : text ++ [LF] =
               (above ++ firstn col' line)
               ++ (skipn col' line ++ [LF] ++ below)).
  { rewrite <- Hj, <- !app_assoc. f_equal.
    rewrite <- (firstn_skipn col' line) at 1. now rewrite <- app_assoc. }
  assert (Hf : firstn (length above + col') (text ++ [LF])
               = above ++ firstn col' line).
  { rewrite Ht, firstn_app.
    replace (length above + col' - length (above ++ firstn col' line))
      with 0 by (rewrite length_app, length_firstn; lia).
    rewrite firstn_all2
      by (rewrite length_app, length_firstn; lia).
    simpl. apply app_nil_r. }
  rewrite firstn_app in Hf.
  replace (length above + col' - length text) with 0 in Hf by lia.
  simpl in Hf. rewrite app_nil_r in Hf. exact Hf.
Qed.

Lemma cursor_offset_beyond (text : bytes) (row col : nat) :
  length (lines_of text) <= row -> cursor_offset text row col = length text.
Proof.
  intros H. unfold cursor_offset. fold (lines text). rewrite lines_lines_of.
  now replace (row <? length (lines_of text)) with false
    by (symmetry; now apply Nat.ltb_ge).
Qed.

Lemma cursor_offset_le (text : bytes) (row col : nat) :
  cursor_offset text row col <= length text.
Proof.
  destruct (Nat.lt_ge_cases row (length (lines_of text))) as [H|H].
  - apply (cursor_offset_prefix text row col H).
  - rewrite cursor_offset_beyond by exact H. lia.
Qed.

(** ** The callback of the subject dialog *)

Lemma breaks_app (x y : bytes) : breaks (x ++ y) = breaks x + breaks y.
Proof. unfold breaks. apply count_occ_app. Qed.

Lemma lines_of_trailing (x : bytes) :
  lines_of (x ++ [LF]) = lines_of x ++ [[]].
Proof. apply (lines_of_app x []). Qed.

(** What the callback does with a subject that is not empty. *)
Lemma callback_insert (subject : bytes) (e : Entry) :
  subject <> [] ->
  let pos := cursor_offset (Text e) (CursorRow e) (CursorColumn e) in
  let before := firstn pos (Text e) ++ encodeMIMESubject subject ++ [LF] in
  showSubjectDialog_callback true subject e =
  Some {| Text := before ++ skipn pos (Text e);
          CursorRow := breaks before;
          CursorColumn := 0 |}.
Proof.
  intros Hs. cbv zeta. unfold showSubjectDialog_callback.
  replace (bytes_eqb subject (lit "")) with false
    by (symmetry; now apply bytes_eqb_neq).
  cbn [andb negb]. cbv zeta.
  set (pos := cursor_offset (Text e) (CursorRow e) (CursorColumn e)).
  pose proof (cursor_offset_le (Text e) (CursorRow e) (CursorColumn e))
    as Hpos. fold pos in Hpos.
  replace (length (Text e) <? pos) with false
    by (symmetry; apply Nat.ltb_ge; exact Hpos).
  unfold slice_to, slice_from.
  set (enc := encodeMIMESubject subject ++ [LF]).
  assert (Hlen : length (firstn pos (Text e) ++ enc) = pos + length enc).
  { rewrite length_app, length_firstn. lia. }
  replace (length (firstn pos (Text e) ++ enc ++ skipn pos (Text e))
           <? pos + length enc) with false
    by (symmetry; apply Nat.ltb_ge; rewrite app_assoc, length_app, Hlen; lia).
  assert (Hcut : firstn (pos + length enc)
                   (firstn pos (Text e) ++ enc ++ skipn pos (Text e))
                 = firstn pos (Text e) ++ enc).
  { rewrite app_assoc, <- Hlen, firstn_app, firstn_all, Nat.sub_diag.
    simpl. apply app_nil_r. }
  rewrite Hcut. fold (lines (firstn pos (Text e) ++ enc)).
  rewrite lines_lines_of. subst enc.
  rewrite app_assoc, lines_of_trailing.
  set (x := firstn pos (Text e) ++ encodeMIMESubject subject).
  destruct (lines_of x ++ [[]]) as [|l ls] eqn:E.
  { now destruct (lines_of x). }
  rewrite <- E. f_equal.
  rewrite length_app. cbn [length].
  replace (length (lines_of x) + 1 - 1) with (length (lines_of x)) by lia.
  rewrite app_nth2, Nat.sub_diag by lia. cbn [nth length].
  rewrite length_lines_of, breaks_app.
  replace (breaks [LF]) with 1 by reflexivity.
  subst x. rewrite <- !app_assoc. f_equal. lia.
Qed.

(** X12.  The callback of the subject dialog never panics.  With a
    subject it puts the encoded subject and a line break into the text at
    the offset of the cursor, keeps all of the text around it, and leaves
    the cursor at the start of the line after the subject.  Cancelled, or
    with an empty subject, it leaves the text area as it is. *)
Theorem X12_subject_inserted (confirmed : bool) (subject : bytes) (e : Entry) :
  (confirmed = false \/ subject = [] ->
   showSubjectDialog_callback confirmed subject e = Some e) /\
  (confirmed = true -> subject <> [] ->
   exists pre post,
     Text e = pre ++ post /\
     showSubjectDialog_callback confirmed subject e =
     Some {| Text := pre ++ encodeMIMESubject subject ++ [LF] ++ post;
             CursorRow := breaks (pre ++ encodeMIMESubject subject ++ [LF]);
             CursorColumn := 0 |}).
Proof.
  split.
  - intros [-> | ->]; unfold showSubjectDialog_callback;
      [reflexivity|now rewrite andb_false_r].
  - intros -> Hs.
    exists (firstn (cursor_offset (Text e) (CursorRow e) (CursorColumn e))
                   (Text e)),
           (skipn (cursor_offset (Text e) (CursorRow e) (CursorColumn e))
                  (Text e)).
    split; [symmetry; apply firstn_skipn|].
    rewrite (callback_insert subject e Hs). cbv zeta.
    now rewrite <- !app_assoc.
Qed.

Lemma lines_of_no_breaks (s : bytes) : Forall no_break (lines_of s).
Proof.
  induction s as [|c t IH]; [repeat constructor|].
  cbn [lines_of]. destruct (Ascii.eqb_spec c LF) as [->|Hc].
  - constructor; [constructor|exact IH].
  - destruct (lines_of t) as [|l ls]; [repeat constructor; exact Hc|].
    inversion IH; subst. constructor; [now constructor|assumption].
Qed.

Lemma lines_of_above (ls : list bytes) (x : bytes) :
  Forall no_break ls ->
  lines_of (concat (map (fun l => l ++ [LF]) ls) ++ x) = ls ++ lines_of x.
Proof.
  induction 1 as [|l ls Hl Hls IH]; [reflexivity|].
  cbn [map concat]. rewrite <- !app_assoc. cbn [app].
  rewrite (lines_of_first l _ Hl), IH. reflexivity.
Qed.

Lemma Forall_firstn_no_break (n : nat) (ls : list bytes) :
  Forall no_break ls -> Forall no_break (firstn n ls).
Proof.
  intros H. rewrite <- (firstn_skipn n ls) in H. now apply Forall_app in H.
Qed.

Lemma no_break_firstn (n : nat) (l : bytes) :
  no_break l -> no_break (firstn n l).
Proof.
  intros H. unfold no_break in *.
  rewrite <- (firstn_skipn n l) in H. now apply Forall_app in H.
Qed.

(** X13.  The subject goes where the cursor is: with the cursor on a row
    of the text, the lines before the subject are the rows above the
    cursor and the row of the cursor up to its column (up to the end of the
    row when the column lies beyond it); with the cursor below the last
    row, the subject goes to the end of the text. *)
Theorem X13_subject_at_cursor (subject : bytes) (e : Entry) :
  subject <> [] ->
  exists pre post,
    Text e = pre ++ post /\
    option_map Text (showSubjectDialog_callback true subject e) =
    Some (pre ++ encodeMIMESubject subject ++ [LF] ++ post) /\
    (CursorRow e < length (lines (Text e)) ->
     let row := nth (CursorRow e) (lines (Text e)) [] in
     lines pre =
     firstn (CursorRow e) (lines (Text e))
     ++ [firstn (Nat.min (CursorColumn e) (length row)) row]) /\
    (length (lines (Text e)) <= CursorRow e -> post = []).
Proof.
  intros Hs.
  set (pos := cursor_offset (Text e) (CursorRow e) (CursorColumn e)).
  exists (firstn pos (Text e)), (skipn pos (Text e)).
  split; [symmetry; apply firstn_skipn|].
  split; [|split].
  - rewrite (callback_insert subject e Hs). cbv zeta. fold pos.
    cbn [option_map Text]. now rewrite <- !app_assoc.
  - rewrite !lines_lines_of. intros Hrow. cbv zeta.
    destruct (cursor_offset_prefix (Text e) (CursorRow e) (CursorColumn e)
                Hrow) as [_ Hpre].
    cbv zeta in Hpre. fold pos in Hpre. rewrite Hpre.
    pose proof (lines_of_no_breaks (Text e)) as Hall.
    rewrite lines_of_above by (now apply Forall_firstn_no_break).
    f_equal. apply lines_of_no_break, no_break_firstn.
    assert (Hin : In (nth (CursorRow e) (lines_of (Text e)) [])
                     (lines_of (Text e))) by (now apply nth_In).
    rewrite Forall_forall in Hall. now apply Hall.
  - rewrite lines_lines_of. intros Hrow.
    subst pos. rewrite cursor_offset_beyond by exact Hrow.
    apply skipn_all.
Qed.

Lemma X13_subject_at_cursor_witness :
  exists pre post,
    lit "To: a" ++ [LF] ++ lit "body" = pre ++ post /\
    lines pre = [lit "To: a"; lit "bo"].
Proof.
  destruct (X13_subject_at_cursor (lit "hi")
              {| Text := lit "To: a" ++ [LF] ++ lit "body";
                 CursorRow := 1; CursorColumn := 2 |}
              ltac:(discriminate))
    as [pre [post [Ht [_ [Hrow _]]]]].
  exists pre, post. split; [exact Ht|].
  apply Hrow. vm_compute. lia.
Defined.

Lemma cursor_offset_after (a post : bytes) :
  cursor_offset ((a ++ [LF]) ++ post) (breaks (a ++ [LF])) 0
  = length (a ++ [LF]).
Proof.
  set (text := (a ++ [LF]) ++ post).
  assert (Hl : lines_of text = lines_of a ++ lines_of post).
  { subst text. rewrite <- app_assoc. apply lines_of_app. }
  assert (Hrow : breaks (a ++ [LF]) = length (lines_of a)).
  { rewrite breaks_app, length_lines_of.
    replace (breaks [LF]) with 1 by reflexivity. lia. }
  assert (Hlt : breaks (a ++ [LF]) < length (lines_of text)).
  { rewrite Hl, length_app, Hrow.
    pose proof (lines_of_nonempty post). destruct (lines_of post);
      [contradiction|simpl; lia]. }
  destruct (cursor_offset_prefix text (breaks (a ++ [LF])) 0 Hlt)
    as [Hle Hpre].
  cbv zeta in Hpre. cbn [Nat.min firstn] in Hpre.
  rewrite app_nil_r, Hl, Hrow in Hpre.
  rewrite firstn_app, firstn_all, Nat.sub_diag in Hpre.
  cbn [firstn] in Hpre. rewrite app_nil_r, lines_of_join in Hpre.
  apply (f_equal (@length ascii)) in Hpre.
  rewrite length_firstn in Hpre. rewrite <- Hrow in Hpre. lia.
Qed.

(** X14.  Subjects that are entered one after the other stand one after
    the other in the text: the cursor that the callback leaves is where
    the next subject goes. *)
Theorem X14_subjects_in_order (s1 s2 : bytes) (e e1 e2 : Entry) :
  s1 <> [] -> s2 <> [] ->
  showSubjectDialog_callback true s1 e = Some e1 ->
  showSubjectDialog_callback true s2 e1 = Some e2 ->
  exists pre post,
    Text e = pre ++ post /\
    Text e2 = pre ++ encodeMIMESubject s1 ++ [LF]
              ++ encodeMIMESubject s2 ++ [LF] ++ post.
Proof.
  intros H1 H2 E1 E2.
  rewrite (callback_insert s1 e H1) in E1. cbv zeta in E1.
  injection E1 as <-.
  rewrite (callback_insert s2 _ H2) in E2. cbv zeta in E2.
  cbn [Text CursorRow CursorColumn] in E2. injection E2 as <-.
  set (pos := cursor_offset (Text e) (CursorRow e) (CursorColumn e)).
  exists (firstn pos (Text e)), (skipn pos (Text e)).
  split; [symmetry; apply firstn_skipn|]. cbn [Text].
  set (pre := firstn pos (Text e)). set (post := skipn pos (Text e)).
  replace (pre ++ encodeMIMESubject s1 ++ [LF])
    with ((pre ++ encodeMIMESubject s1) ++ [LF])
    by now rewrite <- app_assoc.
  rewrite cursor_offset_after.
  rewrite firstn_app, firstn_all, Nat.sub_diag.
  rewrite skipn_app, skipn_all, Nat.sub_diag. cbn [firstn skipn].
  rewrite !app_nil_r. now rewrite <- !app_assoc.
Qed.

Lemma X14_subjects_in_order_witness :
  exists pre post,
    lit "body" = pre ++ post /\
    lit "a" ++ [LF] ++ lit "b" ++ [LF] ++ lit "body" =
    pre ++ encodeMIMESubject (lit "a") ++ [LF]
    ++ encodeMIMESubject (lit "b") ++ [LF] ++ post.
Proof.
  apply (X14_subjects_in_order (lit "a") (lit "b")
           {| Text := lit "body"; CursorRow := 0; CursorColumn := 0 |}
           {| Text := lit "a" ++ [LF] ++ lit "body";
              CursorRow := 1; CursorColumn := 0 |}
           {| Text := lit "a" ++ [LF] ++ lit "b" ++ [LF] ++ lit "body";
              CursorRow := 2; CursorColumn := 0 |});
    first [discriminate|reflexivity].
Defined.

(** ** [formatDuration] *)

Section FormatDuration.

Local Open Scope Z_scope.

Lemma int64_small (z : Z) : - 2 ^ 63 <= z < 2 ^ 63 -> time.int64 z = z.
Proof.
  intros H. unfold time.int64. rewrite Z.mod_small; lia.
Qed.

Lemma uint64_small (z : Z) : 0 <= z < 2 ^ 64 -> time.uint64 z = z.
Proof. intros H. unfold time.uint64. now apply Z.mod_small. Qed.

(** Rounding a duration that is not negative to the second: half a second
    and more counts as one. *)
Lemma Round_Second (d : Z) :
  0 <= d <= time.maxDuration - Second ->
  time.Round d Second = (d + 500000000) / 1000000000 * 1000000000.
Proof.
  unfold time.maxDuration, Second. intros H.
  unfold time.Round, time.lessThanHalf.
  change (1000000000 <=? 0) with false. cbv iota zeta.
  replace (d <? 0) with false by (symmetry; apply Z.ltb_ge; lia).
  rewrite Z.rem_mod_nonneg by lia.
  assert (Hr : 0 <= d mod 1000000000 < 1000000000)
    by (apply Z.mod_pos_bound; lia).
  change (2 ^ 63) with 9223372036854775808 in *.
  rewrite (uint64_small (d mod 1000000000))
    by (change (2 ^ 64) with 18446744073709551616; lia).
  rewrite (uint64_small (d mod 1000000000 + d mod 1000000000))
    by (change (2 ^ 64) with 18446744073709551616; lia).
  rewrite (uint64_small 1000000000) by (now vm_compute).
  destruct (Z.ltb_spec (d mod 1000000000 + d mod 1000000000) 1000000000).
  - rewrite int64_small
      by (change (2 ^ 63) with 9223372036854775808; lia).
    Z.to_euclidean_division_equations. lia.
  - rewrite (int64_small (d + 1000000000))
      by (change (2 ^ 63) with 9223372036854775808; lia).
    rewrite int64_small
      by (change (2 ^ 63) with 9223372036854775808; lia).
    replace (d <? d + 1000000000 - d mod 1000000000) with true
      by (symmetry; apply Z.ltb_lt; lia).
    Z.to_euclidean_division_equations. lia.
Qed.

Lemma Sprintf_02d_two_digits (n : Z) :
  0 <= n < 100 -> fmt.Sprintf_02d n = two_digits n.
Proof.
  intros Hn. rewrite <- (Z2Nat.id n) by lia.
  assert (H : (Z.to_nat n < 100)%nat) by lia.
  generalize dependent (Z.to_nat n). clear. intros k Hk.
  do 100 (destruct k as [|k]; [reflexivity|]). lia.
Qed.

(** The hours, minutes and seconds of a whole number of seconds. *)
Lemma fields_of_seconds (total : Z) :
  0 <= total -> total * 1000000000 < 2 ^ 63 ->
  let d := total * 1000000000 in
  let h := Z.quot d time.Hour in
  let d1 := time.int64 (d - time.int64 (h * time.Hour)) in
  let m := Z.quot d1 time.Minute in
  let d2 := time.int64 (d1 - time.int64 (m * time.Minute)) in
  h = total / 3600 /\ m = total / 60 mod 60 /\
  Z.quot d2 Second = total mod 60.
Proof.
  intros H0 Hmax. cbv zeta.
  unfold time.Hour, time.Minute, Second.
  change (60 * (60 * 1000000000)) with 3600000000000.
  change (60 * 1000000000) with 60000000000.
  change (2 ^ 63) with 9223372036854775808 in Hmax.
  rewrite (Z.quot_div_nonneg (total * 1000000000)) by lia.
  assert (Hh : total * 1000000000 / 3600000000000 = total / 3600)
    by (Z.to_euclidean_division_equations; lia).
  rewrite Hh.
  assert (H1 : 0 <= total / 3600 <= total)
    by (Z.to_euclidean_division_equations; lia).
  rewrite (int64_small (total / 3600 * 3600000000000))
    by (change (2 ^ 63) with 9223372036854775808;
        Z.to_euclidean_division_equations; lia).
  assert (Hd1 : total * 1000000000 - total / 3600 * 3600000000000
                = total mod 3600 * 1000000000)
    by (Z.to_euclidean_division_equations; lia).
  rewrite Hd1.
  assert (Hm3600 : 0 <= total mod 3600 < 3600)
    by (apply Z.mod_pos_bound; lia).
  rewrite (int64_small (total mod 3600 * 1000000000))
    by (change (2 ^ 63) with 9223372036854775808; lia).
  rewrite (Z.quot_div_nonneg (total mod 3600 * 1000000000)) by lia.
  assert (Hm : total mod 3600 * 1000000000 / 60000000000
               = total / 60 mod 60)
    by (Z.to_euclidean_division_equations; lia).
  rewrite Hm.
  assert (Hm60 : 0 <= total / 60 mod 60 < 60)
    by (apply Z.mod_pos_bound; lia).
  rewrite (int64_small (total / 60 mod 60 * 60000000000))
    by (change (2 ^ 63) with 9223372036854775808; lia).
  assert (Hd2 : total mod 3600 * 1000000000
                - total / 60 mod 60 * 60000000000
                = total mod 60 * 1000000000)
    by (Z.to_euclidean_division_equations; lia).
  rewrite Hd2.
  assert (Hs60 : 0 <= total mod 60 < 60) by (apply Z.mod_pos_bound; lia).
  rewrite (int64_small (total mod 60 * 1000000000))
    by (change (2 ^ 63) with 9223372036854775808; lia).
  rewrite Z.quot_div_nonneg by lia.
  repeat split.
  now rewrite Z.div_mul.
Qed.

End FormatDuration.

(** X15.  For an elapsed time that is not negative (and not within a
    second of the largest duration), [formatDuration] shows the time
    rounded to the nearest second, half a second counting as one: the hours,
    then the minutes and the seconds of the hour, each of these two always
    as two digits; the hours take two digits below a hundred hours. *)
Theorem X15_formatDuration_fields (d : Z) :
  (0 <= d <= time.maxDuration - Second)%Z ->
  let total := ((d + 500000000) / 1000000000)%Z in
  formatDuration d =
  fmt.Sprintf_02d (total / 3600) ++ lit ":" ++
  two_digits (total / 60 mod 60) ++ lit ":" ++ two_digits (total mod 60) /\
  ((total < 360000)%Z ->
   formatDuration d =
   two_digits (total / 3600) ++ lit ":" ++
   two_digits (total / 60 mod 60) ++ lit ":" ++ two_digits (total mod 60)).
Proof.
  intros Hd. cbv zeta. set (total := ((d + 500000000) / 1000000000)%Z).
  assert (Ht : (0 <= total)%Z)
    by (subst total; apply Z.div_pos; lia).
  assert (Hmax : (total * 1000000000 < 2 ^ 63)%Z).
  { subst total. unfold time.maxDuration, Second in Hd.
    change (2 ^ 63)%Z with 9223372036854775808%Z in *.
    Z.to_euclidean_division_equations. lia. }
  assert (E : formatDuration d =
              fmt.Sprintf_02d (total / 3600) ++ lit ":" ++
              two_digits (total / 60 mod 60) ++ lit ":" ++
              two_digits (total mod 60)).
  { unfold formatDuration. rewrite (Round_Second d Hd). fold total.
    destruct (fields_of_seconds total Ht Hmax) as [Hh [Hm Hs]].
    cbv zeta in Hh, Hm, Hs. cbv zeta. rewrite Hs, Hm, Hh.
    rewrite (Sprintf_02d_two_digits (total / 60 mod 60))
      by (pose proof (Z.mod_pos_bound (total / 60) 60 ltac:(lia)); lia).
    rewrite (Sprintf_02d_two_digits (total mod 60))
      by (pose proof (Z.mod_pos_bound total 60 ltac:(lia)); lia).
    reflexivity. }
  split; [exact E|]. intros Hlt. rewrite E.
  rewrite Sprintf_02d_two_digits; [reflexivity|].
  Z.to_euclidean_division_equations. lia.
Qed.

Lemma X15_formatDuration_fields_witness :
  formatDuration 3725500000000 = lit "01:02:06".
Proof.
  apply (proj2 (X15_formatDuration_fields 3725500000000
                  ltac:(vm_compute; split; discriminate))).
  vm_compute. reflexivity.
Defined.

(** ** The theme, the Clear button and the start of the program *)

Lemma toggleTheme_agrees (a : Appearance) :
  shownTheme (toggleTheme a) =
  if isDarkTheme (toggleTheme a) then DarkTheme else LightTheme.
Proof. unfold toggleTheme. now destruct (isDarkTheme a). Qed.

(** X16.  After any number of presses of the theme button from the start
    of the program, [isDarkTheme] says which theme is set: dark after an
    even number of presses, light after an odd number; every press
    refreshes the window once. *)
Theorem X16_theme_alternates (n : nat) :
  let a := Nat.iter n toggleTheme main_appearance in
  isDarkTheme a = Nat.even n /\
  shownTheme a = (if Nat.even n then DarkTheme else LightTheme) /\
  refreshes a = n.
Proof.
  cbv zeta. induction n as [|n [Hd [Hs Hr]]]; [repeat split|].
  rewrite Nat.even_succ, <- Nat.negb_even.
  change (Nat.iter (S n) toggleTheme main_appearance)
    with (toggleTheme (Nat.iter n toggleTheme main_appearance)).
  set (a := Nat.iter n toggleTheme main_appearance) in *.
  unfold toggleTheme. rewrite Hd, Hr.
  destruct (Nat.even n); split; try split; reflexivity.
Qed.

(** X17.  After Clear the text area is empty and the clipboard, when
    there is one, holds the empty string; the configuration is untouched,
    and a Send that follows starts no upload: it shows one error dialog. *)
Theorem X17_clear_then_send (W : Type)
    (answer : forall X : Type, Event X -> W -> X * W)
    (formatDuration : Z -> bytes) (q : QuickMail) (clipboard : option bytes)
    (w : W) :
  let q' := fst (clearContent q clipboard) in
  let o := run W answer (sendMail formatDuration q') w in
  textArea_Text q' = [] /\ config q' = config q /\
  snd (clearContent q clipboard) = option_map (fun _ => []) clipboard /\
  spawned o = [] /\
  dialogs (trace o) =
  [(lit "Error",
    match config q with
    | None => lit "Configuration not loaded"
    | Some _ => lit "Message is empty"
    end)].
Proof.
  cbv zeta. unfold clearContent. cbn [fst snd textArea_Text config].
  split; [reflexivity|]. split; [reflexivity|].
  split; [now destruct clipboard|].
  unfold sendMail. cbn [config textArea_Text].
  destruct (config q); unfold showError; rewrite ?run_perform;
    [change (bytes_eqb (strings.TrimSpace (lit "")) (lit "")) with true;
     cbv iota; rewrite run_perform|]; split; reflexivity.
Qed.

(** X18.  [loadConfig] returns a configuration or an error, never both and
    never neither.  It stops at the first step that fails: the error of
    [os.Executable] as it is, without reading a file; the error of
    [os.ReadFile] after ["could not read config file: "], without parsing;
    the error of [json.Unmarshal] after ["could not parse config file: "].
    The file it reads is [quickmail.json] in the directory of the
    executable. *)
Theorem X18_loadConfig_outcome (h : Host) :
  let '((config, err), calls) := loadConfig h in
  (config = None <-> err <> None) /\
  match os_Executable h with
  | inr e => err = Some e /\ calls = [CallExecutable]
  | inl exePath =>
    let path :=
      filepath_Join h (filepath_Dir h exePath) (lit "quickmail.json") in
    match os_ReadFile h path with
    | inr e =>
      err = Some (lit "could not read config file: " ++ e) /\
      calls = [CallExecutable; CallReadFile path]
    | inl data =>
      calls = [CallExecutable; CallReadFile path; CallUnmarshal data] /\
      match json_Unmarshal h data with
      | inr e => err = Some (lit "could not parse config file: " ++ e)
      | inl c => config = Some c
      end
    end
  end.
Proof.
  unfold loadConfig.
  destruct (os_Executable h) as [exePath|e].
  - cbv zeta.
    destruct (os_ReadFile h _) as [data|e].
    + destruct (json_Unmarshal h data) as [c|e].
      * repeat split; try discriminate. intros H. now contradiction H.
      * repeat split; try discriminate.
    + repeat split; try discriminate.
  - repeat split; try discriminate.
Qed.

(** X19.  When the configuration cannot be loaded, [main] prints one
    warning with the error and goes on without a configuration; whatever
    the user then types, Send shows ["Configuration not loaded"] and
    starts no upload. *)
Theorem X19_no_config_no_upload (W : Type)
    (answer : forall X : Type, Event X -> W -> X * W)
    (formatDuration : Z -> bytes) (h : Host) (win : Window) (text : bytes)
    (w : W) (e : error) :
  snd (fst (loadConfig h)) = Some e ->
  let q := fst (main_start h win) in
  let o := run W answer (sendMail formatDuration (typed q text)) w in
  snd (main_start h win) =
  [lit "Warning: Could not load config: " ++ e ++ [LF]] /\
  config q = None /\ spawned o = [] /\
  dialogs (trace o) = [(lit "Error", lit "Configuration not loaded")].
Proof.
  intros He. cbv zeta. unfold main_start.
  assert (Hc : fst (fst (loadConfig h)) = None).
  { revert He. unfold loadConfig.
    destruct (os_Executable h); [|reflexivity].
    destruct (os_ReadFile h _); [|reflexivity].
    destruct (json_Unmarshal h _); [discriminate|reflexivity]. }
  destruct (fst (loadConfig h)) as [config err].
  cbn [fst snd] in *. subst config err.
  cbn [fst snd config]. split; [reflexivity|]. split; [reflexivity|].
  unfold sendMail, typed. cbn [config]. unfold showError.
  rewrite run_perform. split; reflexivity.
Qed.

Lemma X19_no_config_no_upload_witness :
  let q := fst (main_start no_files 1) in
  let o := run unit
             (scripted (inl (DialerOf 1)) None (inl accepted) ([], None))
             (sendMail (fun _ => lit "00:00:00") (typed q (lit "hello")))
             tt in
  config q = None /\ spawned o = [] /\
  dialogs (trace o) = [(lit "Error", lit "Configuration not loaded")].
Proof.
  cbv zeta.
  apply (X19_no_config_no_upload unit
           (scripted (inl (DialerOf 1)) None (inl accepted) ([], None))
           (fun _ => lit "00:00:00") no_files 1 (lit "hello") tt
           (lit "could not read config file: "
            ++ lit "no such file or directory") eq_refl).
Defined.

(** ** Encoded words and character boundaries *)

Ltac nat_tests :=
  repeat match goal with
         | H : Nat.ltb _ _ = true |- _ => apply Nat.ltb_lt in H
         | H : Nat.ltb _ _ = false |- _ => apply Nat.ltb_ge in H
         | H : Nat.leb _ _ = true |- _ => apply Nat.leb_le in H
         | H : Nat.leb _ _ = false |- _ => apply Nat.leb_gt in H
         end.

Lemma first_size (b : Z) : Z.to_nat (Z.land (utf8.first b) 7) <= 4.
Proof. unfold utf8.first. break_ifs; vm_compute; lia. Qed.

(** A rune is decoded from its own bytes: what follows them is not
    looked at. *)
Lemma DecodeRuneInString_firstn (s : bytes) (m : nat) :
  snd (utf8.DecodeRuneInString s) <= m ->
  utf8.DecodeRuneInString (firstn m s) = utf8.DecodeRuneInString s.
Proof.
  unfold utf8.DecodeRuneInString.
  destruct s as [|c0 [|c1 [|c2 [|c3 t]]]];
    try pose proof (first_size (byteZ c0));
    try pose proof (firstn_le_length (m - 4) t);
    destruct m as [|[|[|[|m]]]]; cbn [firstn length Nat.sub] in *;
    break_ifs; cbn [snd]; intros Hm; try reflexivity;
    exfalso; nat_tests; cbn [length] in *; try lia; try congruence.
Qed.

Lemma rune_prefix_le (s : bytes) (n : nat) :
  rune_prefix s n -> n <= length s.
Proof.
  induction 1 as [s|s n Hs _ IH]; [lia|].
  destruct s as [|c t]; [contradiction|].
  pose proof (DecodeRuneInString_width c t) as [_ Hw]. cbv zeta in Hw.
  unfold slice_from in IH. rewrite length_skipn in IH. lia.
Qed.

(** One more rune after whole runes. *)
Lemma rune_prefix_extend (s : bytes) (n : nat) :
  rune_prefix s n -> n < length s ->
  rune_prefix s (n + snd (utf8.DecodeRuneInString (slice_from s n))).
Proof.
  induction 1 as [s|s n Hs _ IH]; intros Hn.
  - cbn [Nat.add]. unfold slice_from. cbn [skipn].
    rewrite <- (Nat.add_0_r (snd _)).
    apply prefix_step; [|constructor].
    destruct s; [simpl in Hn; lia|discriminate].
  - rewrite <- Nat.add_assoc.
    replace (slice_from s (snd (utf8.DecodeRuneInString s) + n))
      with (slice_from (slice_from s (snd (utf8.DecodeRuneInString s))) n).
    + apply prefix_step; [assumption|]. apply IH.
      unfold slice_from. rewrite length_skipn. lia.
    + unfold slice_from. rewrite skipn_skipn. f_equal. lia.
Qed.

(** The runes of a string cut after whole runes: those before the cut,
    then those after it. *)
Lemma runes_split (s : bytes) (n : nat) :
  rune_prefix s n ->
  runes s = runes (firstn n s) ++ runes (skipn n s).
Proof.
  induction 1 as [s|s n Hs _ IH]; [reflexivity|].
  destruct s as [|c t]; [contradiction|].
  pose proof (DecodeRuneInString_width c t) as [[Hw _] _]. cbv zeta in Hw.
  set (w := snd (utf8.DecodeRuneInString (c :: t))) in *.
  rewrite runes_cons. fold w. unfold slice_from in IH. rewrite IH.
  assert (Hd : utf8.DecodeRuneInString (firstn (w + n) (c :: t)) =
               utf8.DecodeRuneInString (c :: t)).
  { apply DecodeRuneInString_firstn. fold w. lia. }
  destruct (firstn (w + n) (c :: t)) as [|c' t'] eqn:Ef.
  { destruct w; [lia|discriminate]. }
  rewrite (runes_cons c' t'), Hd. fold w. rewrite <- Ef.
  cbn [app]. f_equal. f_equal.
  - f_equal. rewrite skipn_firstn_comm. f_equal. lia.
  - f_equal. rewrite skipn_skipn. f_equal. lia.
Qed.

(** The loop of [bEncode] cuts after whole runes. *)
Lemma bEncode_loop_runes :
  forall fuel buf s i last cur,
    length s - i <= fuel ->
    last <= i -> i <= length s -> cur = i - last -> cur <= 45 ->
    last < length s ->
    rune_prefix (skipn last s) (i - last) ->
    exists cs,
      cs <> [] /\ concat cs = skipn last s /\ Forall chunk_ok cs /\
      runes (skipn last s) = concat (map runes cs) /\
      mime.bEncode_loop fuel buf (lit "UTF-8") s i last cur ++ lit "?=" =
      buf ++ tail_words cs.
Proof.
  induction fuel as [|fuel IH];
    intros buf s i last cur Hf Hli Hi Hc H45 Hl Hr;
    rewrite bEncode_loop_eq.
  - assert (i = length s) by lia. subst i.
    rewrite Nat.ltb_irrefl. cbn [negb].
    exists [skipn last s]. split; [|split; [|split; [|split]]].
    + discriminate.
    + simpl. apply app_nil_r.
    + constructor; [|constructor]. unfold chunk_ok.
      rewrite length_skipn. lia.
    + simpl. now rewrite app_nil_r.
    + unfold mime.write_close, slice_from. simpl.
      now rewrite <- app_assoc.
  - destruct (Nat.ltb_spec i (length s)) as [Hlt|Hge]; cbn [negb].
    2:{ assert (i = length s) by lia. subst i.
        exists [skipn last s]. split; [|split; [|split; [|split]]].
        + discriminate.
        + simpl. apply app_nil_r.
        + constructor; [|constructor]. unfold chunk_ok.
          rewrite length_skipn. lia.
        + simpl. now rewrite app_nil_r.
        + unfold mime.write_close, slice_from. simpl.
          now rewrite <- app_assoc. }
    cbv zeta.
    assert (Hnext : rune_prefix (skipn last s)
                      (i - last
                       + snd (utf8.DecodeRuneInString (slice_from s i)))).
    { replace (slice_from s i)
        with (slice_from (skipn last s) (i - last)).
      - apply rune_prefix_extend; [assumption|].
        rewrite length_skipn. lia.
      - unfold slice_from. rewrite skipn_skipn. f_equal. lia. }
    assert (Hone : rune_prefix (skipn i s)
                     (snd (utf8.DecodeRuneInString (slice_from s i)))).
    { unfold slice_from. rewrite <- (Nat.add_0_r (snd _)).
      apply prefix_step; [|constructor].
      intros E. apply (f_equal (@length ascii)) in E.
      rewrite length_skipn in E. simpl in E. lia. }
    unfold slice_from in *.
    destruct (skipn i s) as [|c t] eqn:Es.
    { apply (f_equal (@length ascii)) in Es.
      rewrite length_skipn in Es. simpl in Es. lia. }
    pose proof (DecodeRuneInString_width c t) as [[Hw1 Hw4] Hwl].
    cbv zeta in Hw1, Hw4, Hwl.
    set (runeLen := snd (utf8.DecodeRuneInString (c :: t))) in *.
    assert (Hlen : length (c :: t) = length s - i)
      by (rewrite <- Es; apply length_skipn).
    change mime.maxBase64Len with 45.
    destruct (Nat.leb_spec (cur + runeLen) 45) as [Hfit|Hsplit].
    + apply IH; try lia.
      replace (i + runeLen - last) with (i - last + runeLen) by lia.
      exact Hnext.
    + destruct (IH (mime.splitWord
                      (mime.write_close buf (slice s last i)) (lit "UTF-8"))
                   s (i + runeLen) i runeLen)
        as [cs [Hne [Hcat [Hok [Hrunes Heq]]]]]; try lia.
      { rewrite Es. replace (i + runeLen - i) with runeLen by lia.
        exact Hone. }
      exists (slice s last i :: cs). split; [|split; [|split; [|split]]].
      * discriminate.
      * simpl. rewrite Hcat. now apply slice_skipn.
      * constructor; [|exact Hok]. unfold chunk_ok, slice.
        rewrite length_firstn, length_skipn. lia.
      * cbn [map concat]. rewrite <- Hrunes, (runes_split _ _ Hr).
        unfold slice. f_equal. f_equal.
        rewrite skipn_skipn. f_equal. lia.
      * rewrite Heq. destruct cs as [|c' cs]; [contradiction|].
        change (tail_words (slice s last i :: c' :: cs))
          with (base64.Encode (slice s last i) ++ lit "?=" ++ [SP]
                ++ word_open ++ tail_words (c' :: cs)).
        unfold mime.splitWord, mime.openWord, mime.closeWord,
          mime.write_close.
        rewrite <- !app_assoc. reflexivity.
Qed.

(** The words of [encodeWord], cut after whole runes. *)
Lemma encodeWord_runes (s : bytes) :
  s <> [] ->
  exists cs,
    cs <> [] /\ concat cs = s /\ Forall chunk_ok cs /\
    runes s = concat (map runes cs) /\
    mime.encodeWord (lit "UTF-8") s = join_words [SP] cs.
Proof.
  intros Hs. unfold mime.encodeWord, mime.bEncode, mime.closeWord.
  change (mime.isUTF8 (lit "UTF-8")) with true. cbn [negb orb].
  destruct (Nat.leb_spec (base64.EncodedLen (length s)) mime.maxContentLen)
    as [Hshort|Hlong].
  - exists [s]. split; [|split; [|split; [|split]]].
    + discriminate.
    + simpl. apply app_nil_r.
    + constructor; [|constructor]. split.
      * destruct s; [contradiction|simpl; lia].
      * now apply short_length.
    + simpl. now rewrite app_nil_r.
    + unfold mime.write_close, mime.openWord. simpl join_words.
      unfold word. now rewrite <- !app_assoc.
  - destruct (bEncode_loop_runes (length s)
                (mime.openWord [] (lit "UTF-8")) s 0 0 0)
      as [cs [Hne [Hcat [Hok [Hrunes Heq]]]]]; try lia.
    { destruct s; [contradiction|simpl; lia]. }
    { constructor. }
    exists cs. cbn [skipn] in Hcat, Hrunes.
    split; [|split; [|split; [|split]]]; try assumption.
    rewrite Heq, (join_words_tail cs Hne). reflexivity.
Qed.

(** X20.  A subject with a byte to encode is cut into its encoded words
    after whole characters only: the output is one word a line for chunks
    of one to forty-five bytes that make up the subject, and the runes of
    the subject are the runes of the chunks, in order; no character of
    several bytes is divided between two words. *)
Theorem X20_whole_characters (s : bytes) :
  forallb plain_byte s = false ->
  exists cs,
    encodeMIMESubject s = join_words [LF; SP] cs /\
    concat cs = s /\ Forall chunk_ok cs /\
    runes s = concat (map runes cs).
Proof.
  intros Hs. pose proof (not_plain_nonempty s Hs) as Hne.
  destruct (encodeWord_runes s Hne) as [cs [Hcs [Hcat [Hok [Hr Heq]]]]].
  exists cs. split; [|split; [|split]]; try assumption.
  rewrite encodeMIMESubject_fold by assumption.
  rewrite Encode_not_plain, Heq by assumption.
  now apply fold_reference_words.
Qed.

Lemma X20_whole_characters_witness :
  let s := repeat "a"%char 44 ++ [ascii_of_nat 195; ascii_of_nat 169] in
  exists cs,
    encodeMIMESubject s = join_words [LF; SP] cs /\
    concat cs = s /\ Forall chunk_ok cs /\
    runes s = concat (map runes cs).
Proof.
  cbv zeta.
  apply (X20_whole_characters
           (repeat "a"%char 44 ++ [ascii_of_nat 195; ascii_of_nat 169])).
  vm_compute. reflexivity.
Defined.
